(** * StrategyOptimizer: a shallow embedding of the genetic strategy optimizer

    The development follows [StrategyOptimizer.ts]: the metrics calculator
    ([calculateMetrics]), the moving-average backtest ([evaluateStrategy],
    [calculateSMA]), the genetic operators ([crossover], [mutate],
    [randomInRange], [generateInitialPopulation]) and the generational loop
    ([optimize]).

    A JavaScript [number] is an IEEE 754 binary64 value; it is modelled by
    Rocq's primitive [float], whose operations are the same binary64
    operations with round-to-nearest-even, so that NaN, the infinities and
    the signed zeros behave here as they do in the program.  Counts
    ([populationSize], [generations]) are integers and array indices are
    natural numbers.  The calls of [Math.random()] read successive values of
    a sequence that a run is given; exceptions are results of their own; the
    evaluation of the candidates, which the program starts as promises and
    awaits together, runs here in the order of the population. *)

From Stdlib Require Import Floats ZArith List Bool Lia String.
From Stdlib Require Uint63 DecimalNat.
From Stdlib Require Import Permutation Sorted DecimalString.
Import ListNotations.

Set Warnings "-inexact-float".

(** ** The number layer *)

Module JS.

Local Open Scope float_scope.

Definition number := float.

(** [a > b] and [a >= b] on numbers; both are false when an operand is NaN. *)
Definition gt (a b : number) : bool := b <? a.
Definition ge (a b : number) : bool := b <=? a.

(** [a === b] on numbers: IEEE equality (NaN differs from itself, the two
    zeros are equal). *)
Definition strict_eq (a b : number) : bool := a =? b.

(** [Math.sqrt] is the binary64 square root. *)
Definition Math_sqrt (x : number) : number := PrimFloat.sqrt x.

(** [Math.pow(x, 2)], the only use of [Math.pow] in the program: the
    square. *)
Definition Math_pow2 (x : number) : number := x * x.

(** [Math.max] and [Math.min] of two numbers: NaN as soon as one argument is
    NaN, and [+0] counts as larger than [-0]. *)
Definition Math_max (a b : number) : number :=
  if is_nan a || is_nan b then nan
  else if a <? b then b
  else if b <? a then a
  else if get_sign a then b else a.

Definition Math_min (a b : number) : number :=
  if is_nan a || is_nan b then nan
  else if a <? b then a
  else if b <? a then b
  else if get_sign a then a else b.

(** A length used as a number; the conversion is exact below [2 ^ 53]. *)
Definition of_nat (n : nat) : number := of_uint63 (Uint63.of_Z (Z.of_nat n)).

(** [Math.floor] of a number that is then used as an array index: the integer
    below a finite number, nothing for NaN and the infinities. *)
Definition Math_floor (x : number) : option Z :=
  match Prim2SF x with
  | S754_zero _ => Some 0%Z
  | S754_finite s m e => Some (Z.shiftl (cond_Zopp s (Zpos m)) e)
  | S754_infinity _ | S754_nan => None
  end.

(** [arr[x]] for a number [x] that went through [Math.floor]: [undefined]
    unless [x] is an index of the array. *)
Definition index {A : Type} (arr : list A) (x : option Z) : option A :=
  match x with
  | Some z => if (z <? 0)%Z then None else nth_error arr (Z.to_nat z)
  | None => None
  end.

(** [arr.slice(start, end)] for [start <= end], indices inside the array or
    beyond its end. *)
Definition slice {A : Type} (arr : list A) (start end_ : nat) : list A :=
  firstn (end_ - start) (skipn start arr).

(** A finite value: neither NaN nor an infinity. *)
Definition finite (x : number) : bool := is_finite x.

End JS.

Import JS.

Bind Scope float_scope with number.

(** ** Data model *)

Inductive RiskLevel := risk_low | risk_medium | risk_high.
Inductive RebalanceFrequency := daily | weekly | monthly.

(** The [name] of a strategy is a template literal.  [`Strategy_${i}`] is a
    plain text; [`Strategy_${Math.random().toString(36).substr(2, 9)}`] is
    kept as the draw it is rendered from. *)
Inductive DisplayName :=
| Text (s : string)
| RandomSuffix (r : number).

Record StrategyConfig := {
  name : DisplayName;
  description : string;
  riskLevel : RiskLevel;
  maxPositionSize : number;
  stopLossPercentage : number;
  takeProfitPercentage : number;
  maxDrawdown : number;
  rebalanceFrequency : RebalanceFrequency;
  indicators : list string
}.

Record MarketData := {
  symbol : string;
  timestamp : string;
  open : number;
  high : number;
  low : number;
  close : number;
  volume : number;
  vwap : number;
  trades : number
}.

Inductive Objective := sharpeRatio | sortinoRatio | calmarRatio | maxDrawdownObjective.

Record Constraints := {
  c_maxPositionSize : number * number;
  c_stopLossPercentage : number * number;
  c_takeProfitPercentage : number * number;
  c_maxDrawdown : number * number
}.

(** [populationSize] and [generations] are counts; they are integers here,
    possibly zero or negative. *)
Record OptimizationConfig := {
  populationSize : Z;
  generations : Z;
  mutationRate : number;
  crossoverRate : number;
  objective : Objective;
  constraints : Constraints
}.

Record Metrics := {
  m_sharpeRatio : number;
  m_sortinoRatio : number;
  m_calmarRatio : number;
  m_maxDrawdown : number;
  m_totalReturn : number;
  m_winRate : number
}.

Record OptimizationResult := {
  parameters : StrategyConfig;
  metrics : Metrics
}.

(** [result.metrics[this.config.objective]] *)
Definition metricOf (o : Objective) (m : Metrics) : number :=
  match o with
  | sharpeRatio => m_sharpeRatio m
  | sortinoRatio => m_sortinoRatio m
  | calmarRatio => m_calmarRatio m
  | maxDrawdownObjective => m_maxDrawdown m
  end.

Definition score (o : Objective) (r : OptimizationResult) : number :=
  metricOf o (metrics r).

(** ** calculateMetrics *)

Section Metrics.

Local Open Scope float_scope.

(** The running state of the drawdown loop. *)
Record Drawdown := {
  peak : number;
  dd_max : number;
  currentValue : number
}.

Definition drawdownStep (st : Drawdown) (return_ : number) : Drawdown :=
  let currentValue' := currentValue st * (1 + return_) in
  let peak' := if gt currentValue' (peak st) then currentValue' else peak st in
  let drawdown := (peak' - currentValue') / peak' in
  {| peak := peak';
     dd_max := Math_max (dd_max st) drawdown;
     currentValue := currentValue' |}.

Definition riskFreeRate : number := 0.02.

Definition calculateMetrics (returns : list number) : Metrics :=
  let len := of_nat (List.length returns) in
  let totalReturn := fold_left (fun a b => a + b) returns 0 in
  let avgReturn := totalReturn / len in
  let stdDev :=
    Math_sqrt (fold_left (fun a b => a + Math_pow2 (b - avgReturn)) returns 0 / len) in
  let sharpe :=
    if strict_eq stdDev 0 then 0
    else (avgReturn - riskFreeRate / 252) / stdDev * Math_sqrt 252 in
  let downsideReturns := filter (fun r => r <? 0) returns in
  let downsideStdDev :=
    Math_sqrt (fold_left (fun a b => a + Math_pow2 b) downsideReturns 0 / len) in
  let sortino :=
    if strict_eq downsideStdDev 0 then 0
    else (avgReturn - riskFreeRate / 252) / downsideStdDev * Math_sqrt 252 in
  let dd :=
    fold_left drawdownStep returns {| peak := 0; dd_max := 0; currentValue := 1 |} in
  let maxDrawdown := dd_max dd in
  let calmar :=
    if strict_eq maxDrawdown 0 then 0 else (avgReturn * 252) / maxDrawdown in
  let winRate :=
    of_nat (List.length (filter (fun r => gt r 0) returns)) / len in
  {| m_sharpeRatio := sharpe;
     m_sortinoRatio := sortino;
     m_calmarRatio := calmar;
     m_maxDrawdown := maxDrawdown;
     m_totalReturn := totalReturn;
     m_winRate := winRate |}.

(** All six outputs finite. *)
Definition allFinite (m : Metrics) : bool :=
  finite (m_totalReturn m) && finite (m_sharpeRatio m) && finite (m_sortinoRatio m)
  && finite (m_calmarRatio m) && finite (m_maxDrawdown m) && finite (m_winRate m).

End Metrics.

(** ** Exceptions *)

Inductive Exn :=
| TypeError (msg : string)
| Error (msg : string).

Inductive Outcome (A : Type) :=
| Ok (a : A)
| Throw (e : Exn).

Arguments Ok {A} a.
Arguments Throw {A} e.

Definition isOk {A : Type} (o : Outcome A) : bool :=
  match o with Ok _ => true | Throw _ => false end.

(** ** evaluateStrategy: the moving-average backtest *)

Section Backtest.

Local Open Scope float_scope.

Definition calculateSMA (data : list MarketData) : number :=
  fold_left (fun sum d => sum + close d) data 0 / of_nat (List.length data).

(** The variables of the simulation loop: [position] is 0 (flat), 1 (long) or
    -1 (short). *)
Record SimState := {
  position : number;
  entryPrice : number;
  returns : list number
}.

Definition stopLossPrice (strategy : StrategyConfig) (position entryPrice : number) : number :=
  if strict_eq position 1
  then entryPrice * (1 - stopLossPercentage strategy / 100)
  else entryPrice * (1 + stopLossPercentage strategy / 100).

Definition takeProfitPrice (strategy : StrategyConfig) (position entryPrice : number) : number :=
  if strict_eq position 1
  then entryPrice * (1 + takeProfitPercentage strategy / 100)
  else entryPrice * (1 - takeProfitPercentage strategy / 100).

(** The condition of the exit [if]. *)
Definition exitTouched (position : number) (currentData : MarketData)
    (stopLoss takeProfit : number) : bool :=
  (strict_eq position 1 && (low currentData <=? stopLoss))
  || (strict_eq position (-1) && ge (high currentData) stopLoss)
  || (strict_eq position 1 && ge (high currentData) takeProfit)
  || (strict_eq position (-1) && (low currentData <=? takeProfit)).

Definition exitPrice (position stopLoss takeProfit : number) : number :=
  if strict_eq position 1 then Math_min stopLoss takeProfit
  else Math_max stopLoss takeProfit.

Definition tradeReturn (position exitPrice entryPrice : number) : number :=
  position * (exitPrice - entryPrice) / entryPrice.

(** The body of the [for] loop at index [i], where [currentData] is
    [historicalData[i]].  [i - 20] and [i - 50] are truncated at zero, which
    is [Math.max(0, i - 20)]. *)
Definition simulateBar (strategy : StrategyConfig) (historicalData : list MarketData)
    (i : nat) (currentData : MarketData) (st : SimState) : SimState :=
  let sma20 := calculateSMA (slice historicalData (Nat.max 0 (i - 20)) (i + 1)) in
  let sma50 := calculateSMA (slice historicalData (Nat.max 0 (i - 50)) (i + 1)) in
  if strict_eq (position st) 0 then
    if gt sma20 sma50 then
      {| position := 1; entryPrice := close currentData; returns := returns st |}
    else if sma20 <? sma50 then
      {| position := -1; entryPrice := close currentData; returns := returns st |}
    else st
  else
    let stopLoss := stopLossPrice strategy (position st) (entryPrice st) in
    let takeProfit := takeProfitPrice strategy (position st) (entryPrice st) in
    if exitTouched (position st) currentData stopLoss takeProfit then
      let exitPrice_ := exitPrice (position st) stopLoss takeProfit in
      let return_ := tradeReturn (position st) exitPrice_ (entryPrice st) in
      {| position := 0; entryPrice := entryPrice st; returns := returns st ++ [return_] |}
    else st.

(** [n] more iterations of the loop, starting at index [i].  Reading a field
    of [historicalData[i]] would raise if the element were missing. *)
Fixpoint simulateFrom (strategy : StrategyConfig) (historicalData : list MarketData)
    (n i : nat) (st : SimState) : Outcome SimState :=
  match n with
  | O => Ok st
  | S n' =>
      match nth_error historicalData i with
      | None => Throw (TypeError "Cannot read properties of undefined")
      | Some currentData =>
          simulateFrom strategy historicalData n' (S i)
            (simulateBar strategy historicalData i currentData st)
      end
  end.

Definition initialSimState : SimState :=
  {| position := 0; entryPrice := 0; returns := [] |}.

(** The loop [for (let i = 1; i < historicalData.length; i++)]. *)
Definition simulate (strategy : StrategyConfig) (historicalData : list MarketData)
  : Outcome SimState :=
  simulateFrom strategy historicalData (List.length historicalData - 1) 1 initialSimState.

Definition evaluateStrategy (strategy : StrategyConfig) (historicalData : list MarketData)
  : Outcome OptimizationResult :=
  match simulate strategy historicalData with
  | Ok st => Ok {| parameters := strategy; metrics := calculateMetrics (returns st) |}
  | Throw e => Throw e
  end.

End Backtest.

(** ** The optimizer: randomness, evaluation count and console as state *)

(** One line of [console.log]:
    [`Generation ${generation + 1}: Best ${objective} = ${value.toFixed(4)}`],
    kept as its three arguments. *)
Record LogLine := {
  log_generation : nat;
  log_objective : Objective;
  log_value : number
}.

(** What a run has done so far: how many times [Math.random()] was called,
    how many times [evaluateStrategy] was called, and what was printed. *)
Record World := {
  draws : nat;
  evaluations : nat;
  console : list LogLine
}.

Definition initialWorld : World :=
  {| draws := 0; evaluations := 0; console := [] |}.

Definition M (A : Type) : Type := World -> Outcome A * World.

Definition ret {A : Type} (a : A) : M A := fun w => (Ok a, w).

Definition bind {A B : Type} (c : M A) (k : A -> M B) : M B :=
  fun w =>
    match c w with
    | (Ok a, w') => k a w'
    | (Throw e, w') => (Throw e, w')
    end.

Definition throw {A : Type} (e : Exn) : M A := fun w => (Throw e, w).

Definition lift {A : Type} (o : Outcome A) : M A := fun w => (o, w).

Declare Scope opt_scope.
Delimit Scope opt_scope with opt.
Notation "x <- c ;; k" := (bind c (fun x => k))
  (at level 61, c at next level, right associativity) : opt_scope.

(** [arr.reduce(f)] without an initial value. *)
Definition reduce1 {A : Type} (f : A -> A -> A) (arr : list A) : Outcome A :=
  match arr with
  | [] => Throw (TypeError "Reduce of empty array with no initial value")
  | x :: rest => Ok (fold_left f rest x)
  end.

(** [arr.sort(cmp)].  The sort of an array is stable; an element moves in
    front of another one only when the comparator says so ([cmp y x > 0] for
    [y] before [x]), so elements that compare equal keep their order.  The
    sorted prefix is scanned from the left, as in an insertion sort; with a
    consistent comparator every stable sort gives this order. *)
Fixpoint sortInsert {A : Type} (cmp : A -> A -> number) (x : A) (sorted : list A) : list A :=
  match sorted with
  | [] => [x]
  | y :: rest =>
      if gt (cmp y x) 0%float then x :: y :: rest
      else y :: sortInsert cmp x rest
  end.

Definition sort {A : Type} (cmp : A -> A -> number) (arr : list A) : list A :=
  fold_left (fun sorted x => sortInsert cmp x sorted) arr [].

(** [[...new Set(arr)]]: the first occurrence of every element, in order. *)
Definition setOf (arr : list string) : list string :=
  fold_left (fun seen x => if existsb (String.eqb x) seen then seen else seen ++ [x]) arr [].

(** [`Strategy_${i}`] *)
Definition strategyName (i : nat) : DisplayName :=
  Text ("Strategy_" ++ NilEmpty.string_of_uint (Nat.to_uint i)).

(** [mutated.field = v] on the copy [{ ...strategy }]: one field replaced,
    the others kept. *)
Definition set_maxPositionSize (s : StrategyConfig) (v : number) : StrategyConfig :=
  {| name := name s; description := description s; riskLevel := riskLevel s;
     maxPositionSize := v;
     stopLossPercentage := stopLossPercentage s;
     takeProfitPercentage := takeProfitPercentage s;
     maxDrawdown := maxDrawdown s;
     rebalanceFrequency := rebalanceFrequency s; indicators := indicators s |}.

Definition set_stopLossPercentage (s : StrategyConfig) (v : number) : StrategyConfig :=
  {| name := name s; description := description s; riskLevel := riskLevel s;
     maxPositionSize := maxPositionSize s;
     stopLossPercentage := v;
     takeProfitPercentage := takeProfitPercentage s;
     maxDrawdown := maxDrawdown s;
     rebalanceFrequency := rebalanceFrequency s; indicators := indicators s |}.

Definition set_takeProfitPercentage (s : StrategyConfig) (v : number) : StrategyConfig :=
  {| name := name s; description := description s; riskLevel := riskLevel s;
     maxPositionSize := maxPositionSize s;
     stopLossPercentage := stopLossPercentage s;
     takeProfitPercentage := v;
     maxDrawdown := maxDrawdown s;
     rebalanceFrequency := rebalanceFrequency s; indicators := indicators s |}.

Definition set_maxDrawdown (s : StrategyConfig) (v : number) : StrategyConfig :=
  {| name := name s; description := description s; riskLevel := riskLevel s;
     maxPositionSize := maxPositionSize s;
     stopLossPercentage := stopLossPercentage s;
     takeProfitPercentage := takeProfitPercentage s;
     maxDrawdown := v;
     rebalanceFrequency := rebalanceFrequency s; indicators := indicators s |}.

Section Optimizer.

Local Open Scope float_scope.
Local Open Scope opt_scope.

(** The values that successive calls of [Math.random()] return. *)
Variable random : nat -> number.

(** [this.config] *)
Variable config : OptimizationConfig.

Definition Math_random : M number :=
  fun w =>
    (Ok (random (draws w)),
     {| draws := S (draws w); evaluations := evaluations w; console := console w |}).

Definition console_log (l : LogLine) : M unit :=
  fun w =>
    (Ok tt,
     {| draws := draws w; evaluations := evaluations w; console := console w ++ [l] |}).

Definition randomInRange (bound : number * number) : M number :=
  let (min, max) := bound in
  r <- Math_random ;;
  ret (min + r * (max - min)).

(** [n] more iterations of the loop of [generateInitialPopulation], at
    counter [i]. *)
Fixpoint generateFrom (n i : nat) (population : list StrategyConfig)
  : M (list StrategyConfig) :=
  match n with
  | O => ret population
  | S n' =>
      a <- randomInRange (c_maxPositionSize (constraints config)) ;;
      b <- randomInRange (c_stopLossPercentage (constraints config)) ;;
      c <- randomInRange (c_takeProfitPercentage (constraints config)) ;;
      d <- randomInRange (c_maxDrawdown (constraints config)) ;;
      generateFrom n' (S i)
        (population ++
           [ {| name := strategyName i;
                description := "Optimized strategy";
                riskLevel := risk_medium;
                maxPositionSize := a;
                stopLossPercentage := b;
                takeProfitPercentage := c;
                maxDrawdown := d;
                rebalanceFrequency := daily;
                indicators := ["sma"; "ema"; "rsi"; "macd"]%string |} ])
  end.

(** [for (let i = 0; i < this.config.populationSize; i++)] runs
    [populationSize] times, and not at all for a count below one. *)
Definition generateInitialPopulation : M (list StrategyConfig) :=
  generateFrom (Z.to_nat (populationSize config)) 0 [].

Definition crossover (parent1 parent2 : StrategyConfig) : M StrategyConfig :=
  r_name <- Math_random ;;
  r_risk <- Math_random ;;
  r_size <- Math_random ;;
  r_stop <- Math_random ;;
  r_take <- Math_random ;;
  r_draw <- Math_random ;;
  r_freq <- Math_random ;;
  ret {| name := RandomSuffix r_name;
         description := "Optimized strategy";
         riskLevel := if r_risk <? 0.5 then riskLevel parent1 else riskLevel parent2;
         maxPositionSize :=
           if r_size <? 0.5 then maxPositionSize parent1 else maxPositionSize parent2;
         stopLossPercentage :=
           if r_stop <? 0.5 then stopLossPercentage parent1 else stopLossPercentage parent2;
         takeProfitPercentage :=
           if r_take <? 0.5 then takeProfitPercentage parent1
           else takeProfitPercentage parent2;
         maxDrawdown := if r_draw <? 0.5 then maxDrawdown parent1 else maxDrawdown parent2;
         rebalanceFrequency :=
           if r_freq <? 0.5 then rebalanceFrequency parent1 else rebalanceFrequency parent2;
         indicators := setOf (indicators parent1 ++ indicators parent2) |}.

(** One [if (Math.random() < this.config.mutationRate) { field = redraw }]. *)
Definition mutateField (bound : number * number)
    (set : StrategyConfig -> number -> StrategyConfig) (mutated : StrategyConfig)
  : M StrategyConfig :=
  r <- Math_random ;;
  if r <? mutationRate config then
    v <- randomInRange bound ;;
    ret (set mutated v)
  else ret mutated.

Definition mutate (strategy : StrategyConfig) : M StrategyConfig :=
  let mutated := strategy in
  mutated <- mutateField (c_maxPositionSize (constraints config)) set_maxPositionSize mutated ;;
  mutated <- mutateField (c_stopLossPercentage (constraints config)) set_stopLossPercentage mutated ;;
  mutated <- mutateField (c_takeProfitPercentage (constraints config)) set_takeProfitPercentage mutated ;;
  mutated <- mutateField (c_maxDrawdown (constraints config)) set_maxDrawdown mutated ;;
  ret mutated.

(** [population.map(strategy => this.evaluateStrategy(strategy, historicalData))]
    under [Promise.all]: every candidate is evaluated, in order, and the
    results are collected in the same order. *)
Fixpoint collect {A : Type} (l : list (Outcome A)) : Outcome (list A) :=
  match l with
  | [] => Ok []
  | Ok a :: rest =>
      match collect rest with
      | Ok l' => Ok (a :: l')
      | Throw e => Throw e
      end
  | Throw e :: _ => Throw e
  end.

Definition evaluateAll (population : list StrategyConfig) (historicalData : list MarketData)
  : M (list OptimizationResult) :=
  fun w =>
    (collect (map (fun strategy => evaluateStrategy strategy historicalData) population),
     {| draws := draws w;
        evaluations := evaluations w + List.length population;
        console := console w |}).

(** The callback of [results.reduce]. *)
Definition better (best current : OptimizationResult) : OptimizationResult :=
  let bestMetric := score (objective config) best in
  let currentMetric := score (objective config) current in
  if gt currentMetric bestMetric then current else best.

(** [if (!bestResult || currentBest.metrics[o] > bestResult.metrics[o])
      bestResult = currentBest] *)
Definition updateBest (bestResult : option OptimizationResult)
    (currentBest : OptimizationResult) : OptimizationResult :=
  match bestResult with
  | None => currentBest
  | Some incumbent =>
      if gt (score (objective config) currentBest) (score (objective config) incumbent)
      then currentBest
      else incumbent
  end.

(** The comparator of the selection sort. *)
Definition byObjective (a b : OptimizationResult) : number :=
  score (objective config) b - score (objective config) a.

(** [results.sort(...).slice(0, Math.floor(population.length / 2))] *)
Definition select (results : list OptimizationResult) (populationLength : nat)
  : list OptimizationResult :=
  let sortedResults := sort byObjective results in
  firstn (populationLength / 2) sortedResults.

(** [selected[Math.floor(Math.random() * selected.length)].parameters] *)
Definition pickParent (selected : list OptimizationResult) : M StrategyConfig :=
  r <- Math_random ;;
  match index selected (Math_floor (r * of_nat (List.length selected))) with
  | Some result => ret (parameters result)
  | None => throw (TypeError "Cannot read properties of undefined")
  end.

(** [n] more iterations of [while (newPopulation.length < populationSize)];
    every iteration pushes one child. *)
Fixpoint breed (n : nat) (selected : list OptimizationResult)
    (newPopulation : list StrategyConfig) : M (list StrategyConfig) :=
  match n with
  | O => ret newPopulation
  | S n' =>
      parent1 <- pickParent selected ;;
      parent2 <- pickParent selected ;;
      child <- crossover parent1 parent2 ;;
      child <- mutate child ;;
      breed n' selected (newPopulation ++ [child])
  end.

(** The body of the generation loop, from the population and the best
    result so far to the next ones. *)
Definition generationStep (historicalData : list MarketData) (generation : nat)
    (population : list StrategyConfig) (bestResult : option OptimizationResult)
  : M (list StrategyConfig * OptimizationResult) :=
  results <- evaluateAll population historicalData ;;
  currentBest <- lift (reduce1 better results) ;;
  let bestResult' := updateBest bestResult currentBest in
  let selected := select results (List.length population) in
  newPopulation <- breed (Z.to_nat (populationSize config)) selected [] ;;
  _ <- console_log {| log_generation := generation + 1;
                      log_objective := objective config;
                      log_value := score (objective config) bestResult' |} ;;
  ret (newPopulation, bestResult').

(** [n] more generations, at counter [generation]. *)
Fixpoint generationsFrom (historicalData : list MarketData) (n generation : nat)
    (population : list StrategyConfig) (bestResult : option OptimizationResult)
  : M (option OptimizationResult) :=
  match n with
  | O => ret bestResult
  | S n' =>
      next <- generationStep historicalData generation population bestResult ;;
      generationsFrom historicalData n' (S generation) (fst next) (Some (snd next))
  end.

Definition optimize (historicalData : list MarketData) : M OptimizationResult :=
  population <- generateInitialPopulation ;;
  bestResult <- generationsFrom historicalData (Z.to_nat (generations config)) 0
                  population None ;;
  match bestResult with
  | None => throw (Error "Optimization failed to find a solution")
  | Some result => ret result
  end.

End Optimizer.

(** A run of [optimize] from a fresh process. *)
Definition run (random : nat -> number) (config : OptimizationConfig)
    (historicalData : list MarketData) : Outcome OptimizationResult * World :=
  optimize random config historicalData initialWorld.

(** * Properties *)

(** ** The order of numbers

    The comparisons of binary64 values, from their specification on
    [spec_float]: a sign, then an exponent, then a mantissa. *)

Module NumberOrder.

Local Open Scope float_scope.

Ltac compare_cases :=
  repeat match goal with
  | H : context [Pos.compare_cont Eq ?a ?b] |- _ =>
      change (Pos.compare_cont Eq a b) with (Pos.compare a b) in H
  | |- context [Pos.compare_cont Eq ?a ?b] =>
      change (Pos.compare_cont Eq a b) with (Pos.compare a b)
  end;
  repeat match goal with
  | H : context [Z.compare ?a ?b] |- _ => destruct (Z.compare_spec a b)
  | |- context [Z.compare ?a ?b] => destruct (Z.compare_spec a b)
  | H : context [Pos.compare ?a ?b] |- _ => destruct (Pos.compare_spec a b)
  | |- context [Pos.compare ?a ?b] => destruct (Pos.compare_spec a b)
  end.

Ltac by_kind x y z :=
  destruct x as [sx|sx| |sx mx ex], y as [sy|sy| |sy my ey], z as [sz|sz| |sz mz ez];
  simpl; try discriminate; try congruence;
  try (destruct sx; congruence); try (destruct sy; congruence);
  try (destruct sz; congruence);
  try (destruct sx, sy; congruence); try (destruct sx, sz; congruence);
  try (destruct sy, sz; congruence); try (destruct sx, sy, sz; congruence).

Lemma SFcompare_swap x y :
  SFcompare y x = option_map CompOpp (SFcompare x y).
Proof.
  destruct x as [sx|sx| |sx mx ex], y as [sy|sy| |sy my ey]; simpl;
    try reflexivity; try (destruct sx; reflexivity); try (destruct sy; reflexivity);
    try (destruct sx, sy; reflexivity).
  destruct sx, sy; try reflexivity; compare_cases; simpl; subst;
    try reflexivity; try lia.
Qed.

Lemma SFcompare_trans x y z c :
  SFcompare x y = Some c -> SFcompare y z = Some c -> SFcompare x z = Some c.
Proof.
  by_kind x y z.
  destruct sx, sy, sz; try congruence; intros H1 H2;
    injection H1 as H1; injection H2 as H2; f_equal;
    compare_cases; simpl in *; subst; try congruence; try lia.
Qed.

Lemma SFcompare_Eq_l x y z c :
  SFcompare x y = Some Eq -> SFcompare y z = Some c -> SFcompare x z = Some c.
Proof.
  by_kind x y z.
  destruct sx, sy, sz; try congruence; intros H1 H2;
    injection H1 as H1; injection H2 as H2; f_equal;
    compare_cases; simpl in *; subst; try congruence; try lia.
Qed.

Lemma SFcompare_Eq_r x y z c :
  SFcompare x y = Some c -> SFcompare y z = Some Eq -> SFcompare x z = Some c.
Proof.
  by_kind x y z.
  destruct sx, sy, sz; try congruence; intros H1 H2;
    injection H1 as H1; injection H2 as H2; f_equal;
    compare_cases; simpl in *; subst; try congruence; try lia.
Qed.

Lemma SFcompare_refl x : x <> S754_nan -> SFcompare x x = Some Eq.
Proof.
  destruct x as [s|s| |s m e]; simpl; try congruence; intros _; f_equal.
  - destruct s; reflexivity.
  - destruct s; rewrite Z.compare_refl; change (Pos.compare_cont Eq m m) with (Pos.compare m m);
      rewrite Pos.compare_refl; reflexivity.
Qed.

Lemma SFcompare_None x y :
  SFcompare x y = None <-> x = S754_nan \/ y = S754_nan.
Proof.
  destruct x as [sx|sx| |sx mx ex], y as [sy|sy| |sy my ey]; simpl;
    split; intros H; try discriminate; auto;
    try (destruct H; discriminate);
    try (destruct sx; discriminate); try (destruct sy; discriminate).
Qed.

(** The comparison of two numbers, [None] when one of them is NaN. *)
Definition cmp (a b : number) : option comparison :=
  SFcompare (Prim2SF a) (Prim2SF b).

Lemma ltb_cmp a b : (a <? b) = match cmp a b with Some Lt => true | _ => false end.
Proof. apply FloatAxioms.ltb_spec. Qed.

Lemma leb_cmp a b :
  (a <=? b) = match cmp a b with Some (Lt | Eq) => true | _ => false end.
Proof. apply FloatAxioms.leb_spec. Qed.

Lemma eqb_cmp a b : (a =? b) = match cmp a b with Some Eq => true | _ => false end.
Proof. apply FloatAxioms.eqb_spec. Qed.

Lemma cmp_swap a b : cmp b a = option_map CompOpp (cmp a b).
Proof. apply SFcompare_swap. Qed.

Lemma is_nan_Prim2SF a : is_nan a = true <-> Prim2SF a = S754_nan.
Proof.
  unfold is_nan. rewrite FloatAxioms.eqb_spec. unfold SFeqb. split.
  - destruct (Prim2SF a) as [s|s| |s m e] eqn:E; try reflexivity;
      rewrite SFcompare_refl by discriminate; discriminate.
  - intros ->. reflexivity.
Qed.

Lemma cmp_defined a b :
  is_nan a = false -> is_nan b = false -> exists c, cmp a b = Some c.
Proof.
  intros Ha Hb. unfold cmp. destruct (SFcompare (Prim2SF a) (Prim2SF b)) eqn:E; eauto.
  apply SFcompare_None in E. destruct E as [E|E]; apply is_nan_Prim2SF in E; congruence.
Qed.

(** The facts the program's comparisons rest on. *)

Lemma ltb_irrefl a : (a <? a) = false.
Proof.
  rewrite ltb_cmp. unfold cmp.
  destruct (Prim2SF a) as [s|s| |s m e] eqn:E; try reflexivity;
    rewrite SFcompare_refl by discriminate; reflexivity.
Qed.


Lemma eqb_not_ltb a b : (a =? b) = true -> (a <? b) = false /\ (b <? a) = false.
Proof.
  rewrite eqb_cmp, !ltb_cmp, (cmp_swap a b).
  destruct (cmp a b) as [[ | | ]|]; simpl; intuition congruence.
Qed.

Lemma ltb_leb a b : (a <? b) = true -> (a <=? b) = true.
Proof.
  rewrite leb_cmp, ltb_cmp. destruct (cmp a b) as [[ | | ]|]; congruence.
Qed.

Lemma not_ltb_leb a b :
  is_nan a = false -> is_nan b = false -> (a <? b) = false -> (b <=? a) = true.
Proof.
  intros Ha Hb. destruct (cmp_defined a b Ha Hb) as [c Hc].
  rewrite leb_cmp, ltb_cmp, (cmp_swap a b), Hc. destruct c; simpl; congruence.
Qed.

Lemma leb_trans a b c : (a <=? b) = true -> (b <=? c) = true -> (a <=? c) = true.
Proof.
  rewrite !leb_cmp. unfold cmp.
  destruct (SFcompare (Prim2SF a) (Prim2SF b)) as [[ | | ]|] eqn:E1; try discriminate;
  destruct (SFcompare (Prim2SF b) (Prim2SF c)) as [[ | | ]|] eqn:E2; try discriminate;
  intros _ _.
  - rewrite (SFcompare_Eq_l _ _ _ _ E1 E2). reflexivity.
  - rewrite (SFcompare_Eq_l _ _ _ _ E1 E2). reflexivity.
  - rewrite (SFcompare_Eq_r _ _ _ _ E1 E2). reflexivity.
  - rewrite (SFcompare_trans _ _ _ _ E1 E2). reflexivity.
Qed.

Lemma leb_ltb_trans a b c : (a <=? b) = true -> (b <? c) = true -> (a <? c) = true.
Proof.
  rewrite leb_cmp, !ltb_cmp. unfold cmp.
  destruct (SFcompare (Prim2SF a) (Prim2SF b)) as [[ | | ]|] eqn:E1; try discriminate;
  destruct (SFcompare (Prim2SF b) (Prim2SF c)) as [[ | | ]|] eqn:E2; try discriminate;
  intros _ _.
  - rewrite (SFcompare_Eq_l _ _ _ _ E1 E2). reflexivity.
  - rewrite (SFcompare_trans _ _ _ _ E1 E2). reflexivity.
Qed.

Lemma ltb_trans a b c : (a <? b) = true -> (b <? c) = true -> (a <? c) = true.
Proof. intros H. apply leb_ltb_trans. apply ltb_leb. exact H. Qed.

Lemma eqb_sym a b : (a =? b) = (b =? a).
Proof.
  rewrite !eqb_cmp, (cmp_swap a b). destruct (cmp a b) as [[ | | ]|]; reflexivity.
Qed.

Lemma eqb_trans a b c : (a =? b) = true -> (b =? c) = true -> (a =? c) = true.
Proof.
  rewrite !eqb_cmp. unfold cmp.
  destruct (SFcompare (Prim2SF a) (Prim2SF b)) as [[ | | ]|] eqn:E1; try discriminate;
  destruct (SFcompare (Prim2SF b) (Prim2SF c)) as [[ | | ]|] eqn:E2; try discriminate;
  intros _ _.
  rewrite (SFcompare_Eq_l _ _ _ _ E1 E2). reflexivity.
Qed.

Lemma eqb_not_nan a b : (a =? b) = true -> is_nan a = false /\ is_nan b = false.
Proof.
  intros H. split.
  - unfold is_nan. rewrite (eqb_trans a b a H); [reflexivity|]. rewrite eqb_sym. exact H.
  - unfold is_nan. rewrite (eqb_trans b a b); [reflexivity| |exact H].
    rewrite eqb_sym. exact H.
Qed.

End NumberOrder.

(** ** Rounding

    Two facts about binary64 arithmetic that the optimizer relies on, from
    the specification of the operations on [spec_float].

    The comparator of the selection sort is a difference of two objective
    values: the difference of two values that are not NaN is above zero
    exactly when the first value is above the second one.  The exact
    difference is an integer multiple of the smaller unit, and rounding it to
    the format cannot make it vanish, since that unit is at least the
    smallest one of the format.

    A parent is picked at [Math.floor(Math.random() * selected.length)]: the
    product of a number from 0 to 1 (excluded) and a length is below the
    length.  The number is at most [1 - 2 ^ -53], and rounding to nearest
    adds at most half a unit of the result to the exact product. *)

Module Rounding.

Local Open Scope Z_scope.

Section Format.

Variable prec emax : Z.
Hypothesis prec_pos : 0 < prec.

Abbreviation emin := (SpecFloat.emin prec emax).
Abbreviation fexp := (SpecFloat.fexp prec emax).

Lemma digits2_pos_bounds m :
  2 ^ (Zpos (digits2_pos m) - 1) <= Zpos m < 2 ^ Zpos (digits2_pos m).
Proof.
  induction m as [m IH|m IH|]; cbn [digits2_pos].
  - rewrite Pos2Z.inj_succ. replace (Z.succ (Z.pos (digits2_pos m)) - 1) with (Z.succ (Z.pos (digits2_pos m) - 1)) by lia.
    rewrite !Z.pow_succ_r by lia. lia.
  - rewrite Pos2Z.inj_succ. replace (Z.succ (Z.pos (digits2_pos m)) - 1) with (Z.succ (Z.pos (digits2_pos m) - 1)) by lia.
    rewrite !Z.pow_succ_r by lia. lia.
  - simpl. lia.
Qed.

Lemma fexp_ge_emin e : emin <= fexp e.
Proof. unfold SpecFloat.fexp. lia. Qed.

Lemma shr_1_m mrs : 0 <= shr_m mrs -> shr_m (shr_1 mrs) = shr_m mrs / 2.
Proof.
  destruct mrs as [m r s]. simpl. intros H.
  destruct m as [|[p|p|]|p]; simpl; try reflexivity; try lia.
  - rewrite Pos2Z.inj_xI. apply Z.div_unique with (r := 1); lia.
  - rewrite Pos2Z.inj_xO. apply Z.div_unique with (r := 0); lia.
Qed.

Lemma shr_1_nonneg mrs : 0 <= shr_m mrs -> 0 <= shr_m (shr_1 mrs).
Proof. intros H. rewrite shr_1_m by assumption. apply Z.div_pos; lia. Qed.

Lemma iter_shr_1_m p mrs :
  0 <= shr_m mrs -> shr_m (SpecFloat.iter_pos shr_1 p mrs) = shr_m mrs / 2 ^ Zpos p.
Proof.
  revert mrs. induction p as [p IH|p IH|]; intros mrs H; cbn [SpecFloat.iter_pos].
  - assert (H1 : 0 <= shr_m (shr_1 mrs)) by (apply shr_1_nonneg; exact H).
    assert (H2 : 0 <= shr_m (SpecFloat.iter_pos shr_1 p (shr_1 mrs))).
    { rewrite IH by exact H1. apply Z.div_pos; lia. }
    rewrite (IH _ H2), (IH _ H1), shr_1_m by exact H.
    assert (E : 2 ^ Z.pos p~1 = 2 * 2 ^ Z.pos p * 2 ^ Z.pos p).
    { rewrite <- Z.pow_succ_r, <- Z.pow_add_r by lia. f_equal. lia. }
    rewrite E, !Z.div_div by lia. f_equal. lia.
  - assert (H2 : 0 <= shr_m (SpecFloat.iter_pos shr_1 p mrs)).
    { rewrite IH by exact H. apply Z.div_pos; lia. }
    rewrite (IH _ H2), (IH _ H).
    assert (E : 2 ^ Z.pos p~0 = 2 ^ Z.pos p * 2 ^ Z.pos p).
    { rewrite <- Z.pow_add_r by lia. f_equal. lia. }
    rewrite E, !Z.div_div by lia. reflexivity.
  - rewrite shr_1_m by assumption. reflexivity.
Qed.

Lemma shr_record_of_loc_m m l : shr_m (shr_record_of_loc m l) = m.
Proof. destruct l as [|[ | | ]]; reflexivity. Qed.

(** A positive mantissa at an exponent that is not below [emin] stays
    positive when it is shifted to its format exponent. *)
Lemma shr_fexp_pos m e l :
  0 < m -> emin <= e ->
  0 < shr_m (fst (shr_fexp prec emax m e l)) /\ emin <= snd (shr_fexp prec emax m e l).
Proof.
  intros Hm He. unfold shr_fexp, shr.
  destruct m as [|pm|pm]; try lia. cbn [Zdigits2].
  pose proof (digits2_pos_bounds pm) as Hd.
  set (d := Zpos (digits2_pos pm)) in *.
  destruct (fexp (d + e) - e) as [|n|n] eqn:En; cbn [fst snd];
    rewrite ?shr_record_of_loc_m; try (split; lia).
  assert (Hn : Zpos n = d - prec).
  { unfold SpecFloat.fexp in En. lia. }
  rewrite iter_shr_1_m by (rewrite shr_record_of_loc_m; lia).
  rewrite shr_record_of_loc_m. split; [|lia].
  apply Z.div_str_pos. split; [apply Z.pow_pos_nonneg; lia|].
  apply Z.le_trans with (2 ^ (d - 1)); [|lia].
  apply Z.pow_le_mono_r; lia.
Qed.

Lemma round_nearest_even_ge m l : m <= round_nearest_even m l.
Proof. destruct l as [|[ | | ]]; simpl; try lia. destruct (Z.even m); lia. Qed.

Lemma binary_round_aux_pos m e l :
  0 < m -> emin <= e ->
  SFltb (S754_zero false) (binary_round_aux prec emax false m e l) = true.
Proof.
  intros Hm He. unfold binary_round_aux.
  pose proof (shr_fexp_pos m e l Hm He) as [H1 H2].
  destruct (shr_fexp prec emax m e l) as [mrs' e']. cbn [fst snd] in H1, H2.
  pose proof (round_nearest_even_ge (shr_m mrs') (loc_of_shr_record mrs')) as Hr.
  set (m1 := round_nearest_even (shr_m mrs') (loc_of_shr_record mrs')) in *.
  assert (Hm1 : 0 < m1) by lia.
  pose proof (shr_fexp_pos m1 e' loc_Exact Hm1 H2) as [H3 H4].
  destruct (shr_fexp prec emax m1 e' loc_Exact) as [mrs'' e'']. cbn [fst snd] in H3, H4.
  destruct (shr_m mrs'') as [|p|p]; try lia.
  destruct (e'' <=? emax - prec); reflexivity.
Qed.

Lemma binary_round_aux_neg m e l :
  SFltb (S754_zero false) (binary_round_aux prec emax true m e l) = false.
Proof.
  unfold binary_round_aux.
  destruct (shr_fexp prec emax m e l) as [mrs' e'].
  destruct (shr_fexp prec emax _ e' loc_Exact) as [mrs'' e''].
  destruct (shr_m mrs'') as [|p|p]; try reflexivity.
  destruct (e'' <=? emax - prec); reflexivity.
Qed.

Lemma shl_align_exponent mx ex ex' : snd (shl_align mx ex ex') = Z.min ex ex'.
Proof.
  unfold shl_align. destruct (ex' - ex) as [|d|d] eqn:E; cbn [snd]; lia.
Qed.

Lemma binary_normalize_sign m e :
  emin <= e ->
  SFltb (S754_zero false) (binary_normalize prec emax m e false) = (0 <? m).
Proof.
  intros He. destruct m as [|p|p]; cbn [binary_normalize]; try reflexivity.
  - unfold binary_round.
    pose proof (shl_align_exponent p e (fexp (Z.pos (digits2_pos p) + e))) as Hs.
    destruct (shl_align p e (fexp (Z.pos (digits2_pos p) + e))) as [mz ez].
    cbn [snd] in Hs. apply binary_round_aux_pos; [lia|].
    pose proof (fexp_ge_emin (Z.pos (digits2_pos p) + e)). lia.
  - unfold binary_round.
    destruct (shl_align p e (fexp (Z.pos (digits2_pos p) + e))) as [mz ez].
    apply binary_round_aux_neg.
Qed.

Lemma iter_xO_value m d : Zpos (Pos.iter xO m d) = Zpos m * 2 ^ Zpos d.
Proof.
  induction d as [|d IH] using Pos.peano_ind.
  - simpl. lia.
  - rewrite Pos.iter_succ, Pos2Z.inj_xO, IH, Pos2Z.inj_succ, Z.pow_succ_r by lia. lia.
Qed.

Lemma shl_align_value mx ex ez :
  ez <= ex -> Zpos (fst (shl_align mx ex ez)) = Zpos mx * 2 ^ (ex - ez).
Proof.
  intros H. unfold shl_align. destruct (ez - ex) as [|d|d] eqn:E; cbn [fst]; try lia.
  - replace (ex - ez) with 0 by lia. lia.
  - rewrite iter_xO_value. f_equal. f_equal. lia.
Qed.

(** The integer a finite value stands for, in units of [2 ^ ez]. *)
Definition aligned (s : bool) (m : positive) (e ez : Z) : Z :=
  cond_Zopp s (Zpos m * 2 ^ (e - ez)).

Lemma canonical_bounds m e :
  canonical_mantissa prec emax m e = true ->
  emin <= e /\ Zpos (digits2_pos m) <= prec
  /\ (Zpos (digits2_pos m) = prec \/ e = emin).
Proof.
  unfold canonical_mantissa, SpecFloat.fexp. intros H. apply Z.eqb_eq in H. lia.
Qed.

Lemma canonical_lt m1 e1 m2 e2 :
  canonical_mantissa prec emax m1 e1 = true ->
  canonical_mantissa prec emax m2 e2 = true ->
  e1 < e2 -> Zpos m1 < Zpos m2 * 2 ^ (e2 - e1).
Proof.
  intros H1 H2 Hlt.
  apply canonical_bounds in H1. apply canonical_bounds in H2.
  destruct H1 as [He1 [Hd1 _]]. destruct H2 as [He2 [_ Hd2]].
  destruct Hd2 as [Hd2|Hd2]; [|lia].
  pose proof (digits2_pos_bounds m1) as B1. pose proof (digits2_pos_bounds m2) as B2.
  rewrite Hd2 in B2.
  assert (P1 : 2 ^ Zpos (digits2_pos m1) <= 2 ^ prec) by (apply Z.pow_le_mono_r; lia).
  assert (P2 : 2 ^ prec = 2 * 2 ^ (prec - 1)).
  { rewrite <- Z.pow_succ_r by lia. f_equal. lia. }
  assert (P3 : 2 ^ 1 <= 2 ^ (e2 - e1)) by (apply Z.pow_le_mono_r; lia).
  rewrite Z.pow_1_r in P3.
  assert (P4 : Zpos m2 * 2 <= Zpos m2 * 2 ^ (e2 - e1)) by (apply Z.mul_le_mono_nonneg_l; lia).
  lia.
Qed.

Lemma SFcompare_aligned s1 m1 e1 s2 m2 e2 :
  canonical_mantissa prec emax m1 e1 = true ->
  canonical_mantissa prec emax m2 e2 = true ->
  SFcompare (S754_finite s1 m1 e1) (S754_finite s2 m2 e2)
  = Some (Z.compare (aligned s1 m1 e1 (Z.min e1 e2)) (aligned s2 m2 e2 (Z.min e1 e2))).
Proof.
  intros H1 H2. unfold aligned. cbn [SFcompare]. f_equal.
  assert (Q1 : 0 < Zpos m1 * 2 ^ (e1 - Z.min e1 e2)) by (apply Z.mul_pos_pos; [lia|apply Z.pow_pos_nonneg; lia]).
  assert (Q2 : 0 < Zpos m2 * 2 ^ (e2 - Z.min e1 e2)) by (apply Z.mul_pos_pos; [lia|apply Z.pow_pos_nonneg; lia]).
  destruct s1, s2; cbn [cond_Zopp].
  - destruct (Z.compare_spec e1 e2) as [E|E|E].
    + subst e2. rewrite Z.min_id, Z.sub_diag, !Z.mul_1_r.
      change (Pos.compare_cont Eq m1 m2) with (Pos.compare m1 m2).
      rewrite Z.compare_opp. simpl. symmetry. apply Pos.compare_antisym.
    + symmetry. apply Z.compare_gt_iff.
      pose proof (canonical_lt m1 e1 m2 e2 H1 H2 E).
      rewrite Z.min_l, Z.sub_diag, Z.mul_1_r by lia. lia.
    + symmetry. apply Z.compare_lt_iff.
      pose proof (canonical_lt m2 e2 m1 e1 H2 H1 E).
      rewrite Z.min_r, Z.sub_diag, Z.mul_1_r by lia. lia.
  - symmetry. apply Z.compare_lt_iff. lia.
  - symmetry. apply Z.compare_gt_iff. lia.
  - destruct (Z.compare_spec e1 e2) as [E|E|E].
    + subst e2. rewrite Z.min_id, Z.sub_diag, !Z.mul_1_r. reflexivity.
    + symmetry. apply Z.compare_lt_iff.
      pose proof (canonical_lt m1 e1 m2 e2 H1 H2 E).
      rewrite Z.min_l, Z.sub_diag, Z.mul_1_r by lia. lia.
    + symmetry. apply Z.compare_gt_iff.
      pose proof (canonical_lt m2 e2 m1 e1 H2 H1 E).
      rewrite Z.min_r, Z.sub_diag, Z.mul_1_r by lia. lia.
Qed.

(** The difference of two values that are not NaN is above zero exactly when
    the first is above the second. *)
Lemma SFsub_positive x y :
  SpecFloat.valid_binary prec emax x = true ->
  SpecFloat.valid_binary prec emax y = true ->
  x <> S754_nan -> y <> S754_nan ->
  SFltb (S754_zero false) (SFsub prec emax x y) = SFltb y x.
Proof.
  intros Vx Vy Nx Ny.
  destruct x as [sx|sx| |sx mx ex], y as [sy|sy| |sy my ey]; try congruence;
    try (destruct sx, sy; reflexivity); try (destruct sx; reflexivity);
    try (destruct sy; reflexivity).
  cbn [SpecFloat.valid_binary] in Vx, Vy. unfold bounded in Vx, Vy.
  apply andb_prop in Vx. destruct Vx as [Cx _].
  apply andb_prop in Vy. destruct Vy as [Cy _].
  cbn [SFsub].
  rewrite !shl_align_value by lia.
  rewrite binary_normalize_sign.
  2:{ apply canonical_bounds in Cx. apply canonical_bounds in Cy. lia. }
  unfold SFltb. rewrite (SFcompare_aligned sy my ey sx mx ex Cy Cx).
  unfold aligned. rewrite (Z.min_comm ey ex).
  set (X := cond_Zopp sx (Z.pos mx * 2 ^ (ex - Z.min ex ey))).
  set (Y := cond_Zopp sy (Z.pos my * 2 ^ (ey - Z.min ex ey))).
  destruct (Z.compare_spec Y X); destruct (Z.ltb_spec 0 (X - Y)); try reflexivity; lia.
Qed.

Lemma shr_1_r mrs : 0 <= shr_m mrs -> shr_r (shr_1 mrs) = Z.odd (shr_m mrs).
Proof.
  destruct mrs as [m r s]. simpl. intros H.
  destruct m as [|[p|p|]|p]; simpl; try reflexivity; lia.
Qed.

Lemma iter_shr_1_r p mrs :
  0 <= shr_m mrs ->
  shr_r (SpecFloat.iter_pos shr_1 p mrs) = Z.testbit (shr_m mrs) (Zpos p - 1).
Proof.
  revert mrs. induction p as [p IH|p IH|]; intros mrs H; cbn [SpecFloat.iter_pos].
  - assert (H1 : 0 <= shr_m (shr_1 mrs)) by (apply shr_1_nonneg; exact H).
    assert (H2 : 0 <= shr_m (SpecFloat.iter_pos shr_1 p (shr_1 mrs))).
    { rewrite iter_shr_1_m by exact H1. apply Z.div_pos; lia. }
    rewrite (IH _ H2), iter_shr_1_m, shr_1_m by assumption.
    rewrite Z.div_pow2_bits by lia.
    change 2 with (2 ^ 1) at 1. rewrite Z.div_pow2_bits by lia.
    f_equal. lia.
  - assert (H2 : 0 <= shr_m (SpecFloat.iter_pos shr_1 p mrs)).
    { rewrite iter_shr_1_m by exact H. apply Z.div_pos; lia. }
    rewrite (IH _ H2), iter_shr_1_m by assumption.
    rewrite Z.div_pow2_bits by lia. f_equal. lia.
  - rewrite shr_1_r by assumption. symmetry. apply Z.bit0_odd.
Qed.

(** A set bit [k - 1] puts the number at least half a unit above the
    multiple of [2 ^ k] below it. *)
Lemma testbit_half M k :
  0 <= M -> 0 < k -> Z.testbit M (k - 1) = true ->
  (M / 2 ^ k) * 2 ^ k + 2 ^ (k - 1) <= M.
Proof.
  intros HM Hk Hb. apply Z.testbit_true in Hb; [|lia].
  assert (E : 2 ^ k = 2 ^ (k - 1) * 2).
  { replace k with (Z.succ (k - 1)) at 1 by lia. rewrite Z.pow_succ_r by lia. lia. }
  assert (Hq : M / 2 ^ k = M / 2 ^ (k - 1) / 2).
  { rewrite Z.div_div by (try apply Z.pow_pos_nonneg; lia). rewrite E. reflexivity. }
  pose proof (Z.div_mod (M / 2 ^ (k - 1)) 2 ltac:(lia)) as D1.
  pose proof (Z.div_mod M (2 ^ (k - 1)) ltac:(apply Z.pow_nonzero; lia)) as D2.
  pose proof (Z.mod_pos_bound M (2 ^ (k - 1)) ltac:(apply Z.pow_pos_nonneg; lia)) as D3.
  rewrite Hq, E. rewrite Hb in D1.
  set (q := M / 2 ^ (k - 1)) in *. set (h := 2 ^ (k - 1)) in *. set (q2 := q / 2) in *.
  nia.
Qed.

(** Rounding to nearest after a shift by [p] bits adds at most half a unit. *)
Lemma shift_round_bound M p l :
  0 < M ->
  let mrs := SpecFloat.iter_pos shr_1 p (shr_record_of_loc M l) in
  let m1 := round_nearest_even (shr_m mrs) (loc_of_shr_record mrs) in
  0 <= m1 /\ 2 * (m1 * 2 ^ Zpos p) <= 2 * M + 2 ^ Zpos p.
Proof.
  intros HM mrs m1.
  assert (H0 : 0 <= shr_m (shr_record_of_loc M l)) by (rewrite shr_record_of_loc_m; lia).
  assert (Hm : shr_m mrs = M / 2 ^ Zpos p).
  { unfold mrs. rewrite iter_shr_1_m by exact H0. rewrite shr_record_of_loc_m. reflexivity. }
  assert (Hr : shr_r mrs = Z.testbit M (Zpos p - 1)).
  { unfold mrs. rewrite iter_shr_1_r by exact H0. rewrite shr_record_of_loc_m. reflexivity. }
  assert (Hpow : 0 < 2 ^ Zpos p) by (apply Z.pow_pos_nonneg; lia).
  assert (Hdiv : 0 <= M / 2 ^ Zpos p) by (apply Z.div_pos; lia).
  assert (Hfloor : M / 2 ^ Zpos p * 2 ^ Zpos p <= M).
  { rewrite Z.mul_comm. apply Z.mul_div_le. exact Hpow. }
  unfold m1. destruct mrs as [m r s]. cbn [shr_m shr_r] in *. subst m.
  destruct r; cbn [loc_of_shr_record].
  - symmetry in Hr. apply testbit_half in Hr; try lia.
    assert (E : 2 ^ Zpos p = 2 ^ (Zpos p - 1) * 2).
    { replace (Zpos p) with (Z.succ (Zpos p - 1)) at 1 by lia.
      rewrite Z.pow_succ_r by lia. lia. }
    destruct s; cbn [round_nearest_even]; [|destruct (Z.even _)]; split; nia.
  - destruct s; cbn [round_nearest_even]; split; lia.
Qed.

(** The second shift of [binary_round_aux] only drops bits. *)
Lemma shr_fexp_exact_bound m e :
  0 <= m ->
  0 <= shr_m (fst (shr_fexp prec emax m e loc_Exact))
  /\ e <= snd (shr_fexp prec emax m e loc_Exact)
  /\ shr_m (fst (shr_fexp prec emax m e loc_Exact))
     * 2 ^ (snd (shr_fexp prec emax m e loc_Exact) - e) <= m.
Proof.
  intros Hm. unfold shr_fexp, shr.
  destruct (fexp (Zdigits2 m + e) - e) as [|p|p]; cbn [fst snd shr_record_of_loc shr_m].
  - rewrite Z.sub_diag. simpl. lia.
  - rewrite iter_shr_1_m by (simpl; lia). cbn [shr_m].
    assert (Hpow : 0 < 2 ^ Zpos p) by (apply Z.pow_pos_nonneg; lia).
    replace (e + Zpos p - e) with (Zpos p) by lia.
    split; [apply Z.div_pos; lia|]. split; [lia|].
    rewrite Z.mul_comm. apply Z.mul_div_le. exact Hpow.
  - rewrite Z.sub_diag. simpl. lia.
Qed.

(** The result of rounding the positive value [M * 2 ^ e]: a mantissa and an
    exponent that stand for at most half a unit more than the value. *)
Lemma binary_round_aux_value M e :
  0 < M ->
  exists m2 e2,
    binary_round_aux prec emax false M e loc_Exact =
      match m2 with
      | Z0 => S754_zero false
      | Zpos m => if e2 <=? emax - prec then S754_finite false m e2 else S754_infinity false
      | Zneg _ => S754_nan
      end
    /\ 0 <= m2 /\ e <= e2
    /\ (fexp (Zdigits2 M + e) - e <= 0 -> m2 * 2 ^ (e2 - e) <= M)
    /\ (0 < fexp (Zdigits2 M + e) - e ->
        2 * (m2 * 2 ^ (e2 - e)) <= 2 * M + 2 ^ (fexp (Zdigits2 M + e) - e)).
Proof.
  intros HM. unfold binary_round_aux.
  unfold shr_fexp at 1. unfold shr at 1.
  destruct (fexp (Zdigits2 M + e) - e) as [|p|p] eqn:Ek.
  - cbn [shr_record_of_loc shr_m loc_of_shr_record round_nearest_even].
    pose proof (shr_fexp_exact_bound M e ltac:(lia)) as [B1 [B2 B3]].
    destruct (shr_fexp prec emax M e loc_Exact) as [mrs2 e2]. cbn [fst snd] in *.
    exists (shr_m mrs2), e2. split; [reflexivity|]. repeat split; try lia.
  - pose proof (shift_round_bound M p loc_Exact HM) as [R1 R2]. cbv zeta in R1, R2.
    set (m1 := round_nearest_even _ _) in *.
    pose proof (shr_fexp_exact_bound m1 (e + Zpos p) R1) as [B1 [B2 B3]].
    destruct (shr_fexp prec emax m1 (e + Zpos p) loc_Exact) as [mrs2 e2].
    cbn [fst snd] in *.
    exists (shr_m mrs2), e2. split; [reflexivity|]. repeat split; try lia.
    intros _.
    assert (E : 2 ^ (e2 - e) = 2 ^ (e2 - (e + Zpos p)) * 2 ^ Zpos p).
    { rewrite <- Z.pow_add_r by lia. f_equal. lia. }
    rewrite E.
    assert (Hpow : 0 < 2 ^ Zpos p) by (apply Z.pow_pos_nonneg; lia).
    nia.
  - cbn [shr_record_of_loc shr_m loc_of_shr_record round_nearest_even].
    pose proof (shr_fexp_exact_bound M e ltac:(lia)) as [B1 [B2 B3]].
    destruct (shr_fexp prec emax M e loc_Exact) as [mrs2 e2]. cbn [fst snd] in *.
    exists (shr_m mrs2), e2. split; [reflexivity|]. repeat split; try lia.
Qed.

(** A canonical mantissa is left as it is. *)
Lemma binary_round_aux_canonical s m e :
  canonical_mantissa prec emax m e = true -> e <= emax - prec ->
  binary_round_aux prec emax s (Zpos m) e loc_Exact = S754_finite s m e.
Proof.
  intros Hc He. unfold canonical_mantissa in Hc. apply Z.eqb_eq in Hc.
  unfold binary_round_aux, shr_fexp. cbn [Zdigits2]. rewrite Hc, Z.sub_diag.
  cbn [shr shr_record_of_loc shr_m loc_of_shr_record round_nearest_even Zdigits2].
  rewrite Hc, Z.sub_diag. cbn [shr shr_m].
  apply Z.leb_le in He. rewrite He. reflexivity.
Qed.

End Format.

Lemma sub_positive (a b : number) :
  is_nan a = false -> is_nan b = false ->
  (0 <? b - a)%float = (a <? b)%float.
Proof.
  intros Ha Hb. rewrite !FloatAxioms.ltb_spec, FloatAxioms.sub_spec.
  change (Prim2SF 0) with (S754_zero false).
  apply SFsub_positive.
  - reflexivity.
  - apply Prim2SF_valid.
  - apply Prim2SF_valid.
  - intros E. apply NumberOrder.is_nan_Prim2SF in E. congruence.
  - intros E. apply NumberOrder.is_nan_Prim2SF in E. congruence.
Qed.

Lemma digits_of_bounds m d :
  2 ^ (d - 1) <= Zpos m < 2 ^ d -> 0 < d -> Zpos (digits2_pos m) = d.
Proof.
  intros [H1 H2] Hd. pose proof (digits2_pos_bounds m) as [B1 B2].
  set (d' := Zpos (digits2_pos m)) in *.
  assert (d' - 1 < d).
  { apply (Z.pow_lt_mono_r_iff 2); lia. }
  assert (d - 1 < d').
  { apply (Z.pow_lt_mono_r_iff 2); lia. }
  lia.
Qed.

(** A positive length below [2 ^ 53] is a number with the same value. *)
Lemma of_nat_spec (len : nat) :
  (0 < len)%nat -> Z.of_nat len < 2 ^ 53 ->
  exists mz ez,
    Prim2SF (of_nat len) = S754_finite false mz ez
    /\ -52 <= ez <= 0
    /\ Zpos mz = Z.of_nat len * 2 ^ (- ez).
Proof.
  intros Hpos Hlt. unfold of_nat. rewrite of_uint63_spec, Uint63.of_Z_spec.
  rewrite Z.mod_small by (split; [lia|]; eapply Z.lt_trans; [exact Hlt|reflexivity]).
  destruct (Z.of_nat len) as [|p|p] eqn:Ep; try lia.
  cbn [binary_normalize]. unfold binary_round.
  pose proof (digits2_pos_bounds p) as [B1 B2].
  set (d := Zpos (digits2_pos p)) in *.
  assert (Hd : 1 <= d <= 53).
  { split; [unfold d; lia|].
    assert (d - 1 < 53) by (apply (Z.pow_lt_mono_r_iff 2); lia). lia. }
  assert (HF : SpecFloat.fexp prec emax (d + 0) = d - 53).
  { unfold SpecFloat.fexp, SpecFloat.emin, prec, emax. lia. }
  rewrite HF.
  pose proof (shl_align_value p 0 (d - 53) ltac:(lia)) as Hv.
  pose proof (shl_align_exponent p 0 (d - 53)) as He.
  destruct (shl_align p 0 (d - 53)) as [mz ez]. cbn [fst snd] in Hv, He.
  rewrite Z.min_r in He by lia. subst ez.
  replace (0 - (d - 53)) with (53 - d) in Hv by lia.
  assert (Hmz : 2 ^ 52 <= Zpos mz < 2 ^ 53).
  { rewrite Hv. split.
    - replace 52 with ((d - 1) + (53 - d)) by lia. rewrite Z.pow_add_r by lia.
      apply Z.mul_le_mono_nonneg_r; [apply Z.pow_nonneg|]; lia.
    - replace 53 with (d + (53 - d)) at 2 by lia. rewrite Z.pow_add_r by lia.
      apply Z.mul_lt_mono_pos_r; [apply Z.pow_pos_nonneg|]; lia. }
  assert (Hdz : Zpos (digits2_pos mz) = 53) by (apply digits_of_bounds; lia).
  rewrite (binary_round_aux_canonical prec emax false mz (d - 53)).
  - exists mz, (d - 53). split; [reflexivity|]. split; [lia|].
    rewrite Hv. f_equal. f_equal. lia.
  - unfold canonical_mantissa. rewrite Hdz. apply Z.eqb_eq.
    unfold SpecFloat.fexp, SpecFloat.emin, prec, emax. lia.
  - unfold prec, emax. lia.
Qed.

(** A number from 0 (included) to 1 (excluded) is a zero, or a positive
    value whose exponent is at most -53. *)
Lemma unit_number_spec (r : number) :
  (0 <=? r)%float = true -> (r <? 1)%float = true ->
  (exists s, Prim2SF r = S754_zero s)
  \/ (exists mr er,
        Prim2SF r = S754_finite false mr er
        /\ -1074 <= er <= -53 /\ Zpos mr < 2 ^ 53).
Proof.
  rewrite FloatAxioms.leb_spec, FloatAxioms.ltb_spec.
  change (Prim2SF 0) with (S754_zero false).
  replace (Prim2SF 1) with (S754_finite false 4503599627370496 (-52))
    by (vm_compute; reflexivity).
  pose proof (Prim2SF_valid r) as V.
  destruct (Prim2SF r) as [s|s| |s m e]; intros H0 H1.
  - left. eauto.
  - destruct s; discriminate.
  - discriminate.
  - right. destruct s; [discriminate|].
    cbn [SpecFloat.valid_binary] in V. unfold bounded in V.
    apply andb_prop in V. destruct V as [C _].
    apply (canonical_bounds prec emax) in C.
    change (SpecFloat.emin prec emax) with (-1074) in C. change prec with 53 in C.
    pose proof (digits2_pos_bounds m) as [B1 B2].
    assert (Hm : Zpos m < 2 ^ 53).
    { eapply Z.lt_le_trans; [exact B2|]. apply Z.pow_le_mono_r; lia. }
    exists m, e. split; [reflexivity|]. split; [|exact Hm].
    unfold SFltb in H1. cbn [SFcompare] in H1.
    destruct (Z.compare_spec e (-52)) as [E|E|E]; try discriminate; [|lia].
    exfalso. subst e.
    rewrite Pos.compare_cont_spec in H1.
    match type of H1 with context [Pos.compare m ?c] =>
      destruct (Pos.compare_spec m c) as [E|E|E]; try discriminate H1
    end.
    apply Pos2Z.pos_lt_pos in E.
    destruct C as [_ [_ [C|C]]]; [|discriminate C]. rewrite C in B1.
    replace (2 ^ (53 - 1)) with 4503599627370496 in B1 by (vm_compute; reflexivity).
    clear - B1 E. lia.
Qed.

(** The product of a number from 0 to 1 (excluded) and a length is below
    the length. *)
Lemma product_below_length mr er mz ez (len : Z) m2 e2 :
  0 < Zpos mr < 2 ^ 53 -> -1074 <= er <= -53 ->
  -52 <= ez <= 0 -> 0 < len -> Zpos mz = len * 2 ^ (- ez) ->
  0 <= m2 -> er + ez <= e2 ->
  (SpecFloat.fexp prec emax (Zdigits2 (Zpos (mr * mz)) + (er + ez)) - (er + ez) <= 0 ->
   m2 * 2 ^ (e2 - (er + ez)) <= Zpos (mr * mz)) ->
  (0 < SpecFloat.fexp prec emax (Zdigits2 (Zpos (mr * mz)) + (er + ez)) - (er + ez) ->
   2 * (m2 * 2 ^ (e2 - (er + ez)))
   <= 2 * Zpos (mr * mz)
      + 2 ^ (SpecFloat.fexp prec emax (Zdigits2 (Zpos (mr * mz)) + (er + ez)) - (er + ez))) ->
  m2 * 2 ^ (e2 - (er + ez)) < len * 2 ^ (- (er + ez)).
Proof.
  intros Hmr Her Hez Hlen Hmz Hm2 He2 HA HB.
  set (e := er + ez) in *. set (V := m2 * 2 ^ (e2 - e)) in *.
  assert (HN : len * 2 ^ (- e) = Zpos mz * 2 ^ (- er)).
  { rewrite Hmz. unfold e. replace (- (er + ez)) with (- ez + - er) by lia.
    rewrite Z.pow_add_r by lia. lia. }
  rewrite HN.
  assert (Hmz1 : 1 <= Zpos mz) by lia.
  assert (P53 : 2 ^ 53 <= 2 ^ (- er)) by (apply Z.pow_le_mono_r; lia).
  assert (HV : 0 <= V).
  { unfold V. apply Z.mul_nonneg_nonneg; [lia|apply Z.pow_nonneg; lia]. }
  cbn [Zdigits2] in HA, HB.
  pose proof (digits2_pos_bounds (mr * mz)) as [D1 D2].
  set (d := Zpos (digits2_pos (mr * mz))) in *.
  rewrite Pos2Z.inj_mul in *.
  set (M := Zpos mr * Zpos mz) in *.
  set (A := 2 ^ (- er)) in *. set (B := 2 ^ 53) in *.
  assert (HB0 : 0 < B) by (unfold B; apply Z.pow_pos_nonneg; lia).
  destruct (Z_le_gt_dec (SpecFloat.fexp prec emax (d + e) - e) 0) as [Hk|Hk].
  - specialize (HA Hk).
    assert (M < B * Zpos mz) by (unfold M; apply Z.mul_lt_mono_pos_r; lia).
    assert (B * Zpos mz <= A * Zpos mz) by (apply Z.mul_le_mono_nonneg_r; lia).
    lia.
  - specialize (HB ltac:(lia)).
    unfold SpecFloat.fexp, SpecFloat.emin in Hk, HB.
    change (3 - emax - prec) with (-1074) in Hk, HB. change prec with 53 in Hk, HB.
    destruct (Z_le_gt_dec (-1074) (d + e - 53)) as [Hn|Hs].
    + rewrite Z.max_l in Hk, HB by lia.
      replace (d + e - 53 - e) with (d - 53) in Hk, HB by lia.
      assert (E1 : 2 ^ (d - 53) * 2 ^ 52 = 2 ^ (d - 1)).
      { rewrite <- Z.pow_add_r by lia. f_equal. lia. }
      assert (E2 : B = 2 * 2 ^ 52) by (unfold B; reflexivity).
      set (K := 2 ^ (d - 53)) in *. set (H52 := 2 ^ 52) in *.
      assert (K1 : K * B <= 2 * M) by nia.
      assert (S1 : 2 * V * B <= 2 * M * (B + 1)) by nia.
      assert (S2 : M * (B + 1) <= (B - 1) * (B + 1) * Zpos mz).
      { unfold M. assert (Zpos mr <= B - 1) by lia.
        assert (Zpos mr * Zpos mz <= (B - 1) * Zpos mz)
          by (apply Z.mul_le_mono_nonneg_r; lia).
        nia. }
      assert (S3 : (B - 1) * (B + 1) * Zpos mz < B * (A * Zpos mz)).
      { assert (B * B * Zpos mz <= B * (A * Zpos mz)).
        { rewrite <- Z.mul_assoc. apply Z.mul_le_mono_nonneg_l; [lia|].
          apply Z.mul_le_mono_nonneg_r; lia. }
        nia. }
      assert (S4 : V * B < (A * Zpos mz) * B) by nia.
      apply Z.mul_lt_mono_pos_r in S4; lia.
    + rewrite Z.max_r in Hk, HB by lia.
      set (k := -1074 - e) in *.
      assert (Hd : 2 ^ d <= 2 ^ (k + 52)) by (apply Z.pow_le_mono_r; unfold k; lia).
      assert (E3 : 2 ^ (k + 54) = 4 * 2 ^ (k + 52)).
      { replace (k + 54) with (2 + (k + 52)) by lia. rewrite Z.pow_add_r by lia.
        reflexivity. }
      assert (E4 : 2 ^ k <= 2 ^ (k + 52)) by (apply Z.pow_le_mono_r; lia).
      assert (E5 : 2 ^ (k + 54) <= A).
      { unfold A. apply Z.pow_le_mono_r; unfold k, e; lia. }
      assert (E6 : A <= A * Zpos mz).
      { rewrite <- (Z.mul_1_r A) at 1. apply Z.mul_le_mono_nonneg_l; [|lia].
        unfold A. apply Z.pow_nonneg. lia. }
      lia.
Qed.

(** [Math.floor(r * len)] is an index below [len]. *)
Lemma floor_of_product (len : nat) (r : number) :
  (0 < len)%nat -> Z.of_nat len < 2 ^ 53 ->
  (0 <=? r)%float = true -> (r <? 1)%float = true ->
  exists z, Math_floor (r * of_nat len)%float = Some z /\ 0 <= z < Z.of_nat len.
Proof.
  intros Hpos Hlen H0 H1. unfold Math_floor.
  rewrite FloatAxioms.mul_spec.
  destruct (of_nat_spec len Hpos Hlen) as [mz [ez [Hn [Hez Hmz]]]]. rewrite Hn.
  destruct (unit_number_spec r H0 H1) as [[s Hr]|[mr [er [Hr [Her Hmr]]]]]; rewrite Hr.
  - cbn [SF64mul SFmul]. exists 0. split; [reflexivity|lia].
  - unfold SF64mul. cbn [SFmul xorb].
    destruct (binary_round_aux_value prec emax (Zpos (mr * mz)) (er + ez) ltac:(lia))
      as [m2 [e2 [Hres [Hm2 [He2 [HA HB]]]]]].
    rewrite Hres.
    pose proof (product_below_length mr er mz ez (Z.of_nat len) m2 e2
                  ltac:(lia) Her Hez ltac:(lia) Hmz Hm2 He2 HA HB) as Hlt.
    destruct m2 as [|m|m]; [exists 0; split; [reflexivity|lia]| |lia].
    set (e := er + ez) in *.
    assert (Hpe : 0 < 2 ^ (e2 - e)) by (apply Z.pow_pos_nonneg; lia).
    assert (Hsmall : e2 <= 52).
    { destruct (Z_le_gt_dec e2 0) as [|Hgt]; [lia|].
      assert (E : 2 ^ (e2 - e) = 2 ^ e2 * 2 ^ (- e)).
      { rewrite <- Z.pow_add_r by (unfold e; lia). f_equal; lia. }
      rewrite E in Hlt.
      assert (Hp : 0 < 2 ^ (- e)) by (apply Z.pow_pos_nonneg; unfold e; lia).
      assert (Hq : 0 < 2 ^ e2) by (apply Z.pow_pos_nonneg; lia).
      assert (Hx : Zpos m * 2 ^ e2 < Z.of_nat len) by nia.
      assert (Hy : 2 ^ e2 < 2 ^ 53) by nia.
      apply Z.pow_lt_mono_r_iff in Hy; lia. }
    assert (Hok : (e2 <=? emax - prec) = true).
    { apply Z.leb_le. change (emax - prec) with 971. lia. }
    rewrite Hok. cbn [cond_Zopp].
    eexists. split; [reflexivity|]. split.
    + apply Z.shiftl_nonneg. lia.
    + destruct (Z_le_gt_dec 0 e2) as [Hge|Hneg].
      * rewrite Z.shiftl_mul_pow2 by lia.
        assert (E : 2 ^ (e2 - e) = 2 ^ e2 * 2 ^ (- e)).
        { rewrite <- Z.pow_add_r by (unfold e; lia). f_equal; lia. }
        rewrite E in Hlt.
        assert (Hp : 0 < 2 ^ (- e)) by (apply Z.pow_pos_nonneg; unfold e; lia).
        nia.
      * rewrite Z.shiftl_div_pow2 by lia.
        apply Z.div_lt_upper_bound; [apply Z.pow_pos_nonneg; lia|].
        assert (E : 2 ^ (- e) = 2 ^ (- e2) * 2 ^ (e2 - e)).
        { rewrite <- Z.pow_add_r by lia. f_equal; lia. }
        rewrite E in Hlt. nia.
Qed.

End Rounding.

(** ** calculateMetrics on degenerate inputs *)

Section MetricsProperties.

Local Open Scope float_scope.

(** A sequence of zero returns has zero variance and zero drawdown; the
    guards [=== 0] make every ratio 0. *)
Example calculateMetrics_all_zero :
  calculateMetrics [0; 0; 0] =
    {| m_sharpeRatio := 0; m_sortinoRatio := 0; m_calmarRatio := 0;
       m_maxDrawdown := 0; m_totalReturn := 0; m_winRate := 0 |}.
Proof. vm_compute. reflexivity. Qed.

(** A return of -100% leaves the compounded value at 0 while [peak] still
    holds its initial 0: the drawdown is 0/0. *)
Example calculateMetrics_total_loss :
  is_nan (m_maxDrawdown (calculateMetrics [-1])) = true
  /\ is_nan (m_calmarRatio (calculateMetrics [-1])) = true.
Proof. vm_compute. split; reflexivity. Qed.

(** C1: on the empty sequence of returns [calculateMetrics] divides 0 by the
    length 0: the average is NaN, so are both deviations, and the guards
    [stdDev === 0] and [downsideStdDev === 0] do not hold for NaN.  The Sharpe
    ratio, the Sortino ratio and the win rate are NaN; only the total return,
    the maximal drawdown and the Calmar ratio are 0.  The six outputs are not
    all finite. *)
Theorem calculateMetrics_empty_is_NaN :
  is_nan (m_sharpeRatio (calculateMetrics [])) = true
  /\ is_nan (m_sortinoRatio (calculateMetrics [])) = true
  /\ is_nan (m_winRate (calculateMetrics [])) = true
  /\ m_totalReturn (calculateMetrics []) = 0
  /\ m_maxDrawdown (calculateMetrics []) = 0
  /\ m_calmarRatio (calculateMetrics []) = 0
  /\ allFinite (calculateMetrics []) = false.
Proof. vm_compute. repeat split. Qed.

End MetricsProperties.

(** ** The backtest *)

Section BacktestProperties.

Local Open Scope float_scope.

Lemma simulateFrom_app strategy historicalData n m i st :
  simulateFrom strategy historicalData (n + m) i st =
    match simulateFrom strategy historicalData n i st with
    | Ok st' => simulateFrom strategy historicalData m (i + n) st'
    | Throw e => Throw e
    end.
Proof.
  revert i st. induction n as [|n IH]; intros i st; simpl.
  - rewrite Nat.add_0_r. reflexivity.
  - destruct (nth_error historicalData i); [|reflexivity].
    rewrite IH. replace (S i + n)%nat with (i + S n)%nat by lia. reflexivity.
Qed.

(** The loop only reads elements of the array: it never raises. *)
Lemma simulateFrom_returns strategy historicalData n i st :
  (i + n <= List.length historicalData)%nat ->
  exists st', simulateFrom strategy historicalData n i st = Ok st'.
Proof.
  revert i st. induction n as [|n IH]; intros i st Hlen; simpl.
  - eauto.
  - destruct (nth_error historicalData i) as [d|] eqn:E.
    + apply IH. lia.
    + apply nth_error_None in E. lia.
Qed.

Lemma simulate_returns strategy historicalData :
  exists st, simulate strategy historicalData = Ok st.
Proof.
  unfold simulate. destruct historicalData as [|d0 rest]; [simpl; eauto|].
  apply simulateFrom_returns. simpl. lia.
Qed.

Lemma evaluateStrategy_returns strategy historicalData :
  exists result, evaluateStrategy strategy historicalData = Ok result
                 /\ parameters result = strategy.
Proof.
  unfold evaluateStrategy.
  destruct (simulate_returns strategy historicalData) as [st ->]. eauto.
Qed.

(** Up to index 20 the two windows are the same slice, so the two averages
    are the same number and neither is above the other. *)
Lemma simulateBar_flat_early strategy historicalData i currentData st :
  (i <= 20)%nat -> position st = 0 ->
  simulateBar strategy historicalData i currentData st = st.
Proof.
  intros Hi Hflat. unfold simulateBar. rewrite Hflat.
  replace (i - 20)%nat with 0%nat by lia. replace (i - 50)%nat with 0%nat by lia.
  change (strict_eq 0 0) with true. cbv iota. unfold gt.
  rewrite NumberOrder.ltb_irrefl. reflexivity.
Qed.

(** A bar seen while flat closes no trade. *)
Lemma simulateBar_flat_returns strategy historicalData i currentData st :
  position st = 0 ->
  returns (simulateBar strategy historicalData i currentData st) = returns st.
Proof.
  intros Hflat. unfold simulateBar. rewrite Hflat.
  change (strict_eq 0 0) with true. cbv iota.
  destruct (gt _ _); [reflexivity|]. destruct (_ <? _); reflexivity.
Qed.

Lemma simulateFrom_flat_early strategy historicalData n i st :
  (i + n <= 21)%nat -> (i + n <= List.length historicalData)%nat ->
  position st = 0 ->
  simulateFrom strategy historicalData n i st = Ok st.
Proof.
  revert i st. induction n as [|n IH]; intros i st Hi Hlen Hflat; simpl.
  - reflexivity.
  - destruct (nth_error historicalData i) as [d|] eqn:E.
    + rewrite simulateBar_flat_early by (assumption || lia). apply IH; (assumption || lia).
    + apply nth_error_None in E. lia.
Qed.

(** C10: a history of at most 22 bars closes no trade, and the simulation
    returns (it does not raise), whatever the strategy; the empty history is
    one such input.  No position can be opened before index 21, and a
    position opened at index 21 cannot be closed before index 22. *)
Theorem short_history_no_trades strategy historicalData :
  (List.length historicalData <= 22)%nat ->
  exists st,
    simulate strategy historicalData = Ok st
    /\ returns st = []
    /\ evaluateStrategy strategy historicalData =
         Ok {| parameters := strategy; metrics := calculateMetrics [] |}.
Proof.
  intros Hlen.
  assert (H : exists st, simulate strategy historicalData = Ok st /\ returns st = []).
  { unfold simulate.
    destruct historicalData as [|d0 rest]; [exists initialSimState; split; reflexivity|].
    remember (d0 :: rest) as historicalData eqn:Hdata.
    assert (Hpos : (1 <= List.length historicalData)%nat) by (subst; simpl; lia).
    clear Hdata.
    destruct (Nat.le_gt_cases (List.length historicalData) 21) as [Hs|Hs].
    - exists initialSimState. split; [|reflexivity].
      apply simulateFrom_flat_early; [lia|lia|reflexivity].
    - replace (List.length historicalData - 1)%nat with (20 + 1)%nat by lia.
      rewrite simulateFrom_app.
      rewrite simulateFrom_flat_early by (reflexivity || lia).
      cbn [simulateFrom Nat.add]. destruct (nth_error historicalData 21) as [d|] eqn:E.
      + eexists. split; [reflexivity|].
        rewrite simulateBar_flat_returns; reflexivity.
      + apply nth_error_None in E. lia. }
  destruct H as [st [Hst Hret]]. exists st. repeat split; try assumption.
  unfold evaluateStrategy. rewrite Hst, Hret. reflexivity.
Qed.

Lemma short_history_no_trades_witness :
  exists st,
    simulate
      {| name := Text "Strategy_0"; description := "Optimized strategy";
         riskLevel := risk_medium; maxPositionSize := 0.5;
         stopLossPercentage := 5; takeProfitPercentage := 10; maxDrawdown := 20;
         rebalanceFrequency := daily; indicators := ["sma"%string] |} [] = Ok st
    /\ returns st = []
    /\ evaluateStrategy
         {| name := Text "Strategy_0"; description := "Optimized strategy";
            riskLevel := risk_medium; maxPositionSize := 0.5;
            stopLossPercentage := 5; takeProfitPercentage := 10; maxDrawdown := 20;
            rebalanceFrequency := daily; indicators := ["sma"%string] |} [] =
         Ok {| parameters :=
                 {| name := Text "Strategy_0"; description := "Optimized strategy";
                    riskLevel := risk_medium; maxPositionSize := 0.5;
                    stopLossPercentage := 5; takeProfitPercentage := 10; maxDrawdown := 20;
                    rebalanceFrequency := daily; indicators := ["sma"%string] |};
               metrics := calculateMetrics [] |}.
Proof.
  apply (short_history_no_trades _ []). simpl. lia.
Defined.

(** The exit of a long position when the bar touches both thresholds. *)
Lemma simulateBar_long_both strategy historicalData i currentData st :
  position st = 1 ->
  (low currentData <=? stopLossPrice strategy 1 (entryPrice st)) = true ->
  ge (high currentData) (takeProfitPrice strategy 1 (entryPrice st)) = true ->
  simulateBar strategy historicalData i currentData st =
    {| position := 0;
       entryPrice := entryPrice st;
       returns :=
         returns st ++
           [tradeReturn 1
              (Math_min (stopLossPrice strategy 1 (entryPrice st))
                        (takeProfitPrice strategy 1 (entryPrice st)))
              (entryPrice st)] |}.
Proof.
  intros Hpos Hstop Htake. unfold simulateBar, exitTouched, exitPrice. rewrite Hpos.
  change (strict_eq 1 0) with false. change (strict_eq 1 1) with true.
  cbv iota. rewrite Hstop. reflexivity.
Qed.

Lemma simulateBar_short_both strategy historicalData i currentData st :
  position st = -1 ->
  ge (high currentData) (stopLossPrice strategy (-1) (entryPrice st)) = true ->
  (low currentData <=? takeProfitPrice strategy (-1) (entryPrice st)) = true ->
  simulateBar strategy historicalData i currentData st =
    {| position := 0;
       entryPrice := entryPrice st;
       returns :=
         returns st ++
           [tradeReturn (-1)
              (Math_max (stopLossPrice strategy (-1) (entryPrice st))
                        (takeProfitPrice strategy (-1) (entryPrice st)))
              (entryPrice st)] |}.
Proof.
  intros Hpos Hstop Htake. unfold simulateBar, exitTouched, exitPrice. rewrite Hpos.
  change (strict_eq (-1) 0) with false. change (strict_eq (-1) 1) with false.
  change (strict_eq (-1) (-1)) with true.
  cbv iota. rewrite Hstop. reflexivity.
Qed.

(** C2: when the bar touches both the stop and the target, a long position
    is closed at [Math.min(stopLoss, takeProfit)] and a short position at
    [Math.max(stopLoss, takeProfit)], and the trade return is computed from
    that price.  For a long position entered at 100 with a stop at 5% and a
    target at 10%, a bar with low 94 and high 111 closes the trade at 95. *)
Theorem both_touched_exit_is_conservative :
  (forall strategy historicalData i currentData st,
      position st = 1 ->
      (low currentData <=? stopLossPrice strategy 1 (entryPrice st)) = true ->
      ge (high currentData) (takeProfitPrice strategy 1 (entryPrice st)) = true ->
      exitPrice (position st)
        (stopLossPrice strategy (position st) (entryPrice st))
        (takeProfitPrice strategy (position st) (entryPrice st))
      = Math_min (stopLossPrice strategy 1 (entryPrice st))
                 (takeProfitPrice strategy 1 (entryPrice st))
      /\ simulateBar strategy historicalData i currentData st =
           {| position := 0;
              entryPrice := entryPrice st;
              returns :=
                returns st ++
                  [tradeReturn 1
                     (Math_min (stopLossPrice strategy 1 (entryPrice st))
                               (takeProfitPrice strategy 1 (entryPrice st)))
                     (entryPrice st)] |})
  /\ (forall strategy historicalData i currentData st,
      position st = -1 ->
      ge (high currentData) (stopLossPrice strategy (-1) (entryPrice st)) = true ->
      (low currentData <=? takeProfitPrice strategy (-1) (entryPrice st)) = true ->
      exitPrice (position st)
        (stopLossPrice strategy (position st) (entryPrice st))
        (takeProfitPrice strategy (position st) (entryPrice st))
      = Math_max (stopLossPrice strategy (-1) (entryPrice st))
                 (takeProfitPrice strategy (-1) (entryPrice st))
      /\ simulateBar strategy historicalData i currentData st =
           {| position := 0;
              entryPrice := entryPrice st;
              returns :=
                returns st ++
                  [tradeReturn (-1)
                     (Math_max (stopLossPrice strategy (-1) (entryPrice st))
                               (takeProfitPrice strategy (-1) (entryPrice st)))
                     (entryPrice st)] |})
  /\ (forall strategy historicalData i currentData st,
      stopLossPercentage strategy = 5 ->
      takeProfitPercentage strategy = 10 ->
      position st = 1 ->
      entryPrice st = 100 ->
      low currentData = 94 ->
      high currentData = 111 ->
      exitPrice (position st)
        (stopLossPrice strategy (position st) (entryPrice st))
        (takeProfitPrice strategy (position st) (entryPrice st)) = 95
      /\ simulateBar strategy historicalData i currentData st =
           {| position := 0; entryPrice := 100;
              returns := returns st ++ [tradeReturn 1 95 100] |}).
Proof.
  split; [|split].
  - intros strategy historicalData i currentData st Hpos Hstop Htake. split.
    + rewrite Hpos. reflexivity.
    + apply simulateBar_long_both; assumption.
  - intros strategy historicalData i currentData st Hpos Hstop Htake. split.
    + rewrite Hpos. reflexivity.
    + apply simulateBar_short_both; assumption.
  - intros strategy historicalData i currentData st Hsl Htp Hpos Hentry Hlow Hhigh.
    assert (Hs : stopLossPrice strategy 1 100 = 95).
    { unfold stopLossPrice. rewrite Hsl. vm_compute. reflexivity. }
    assert (Ht : takeProfitPrice strategy 1 100 = 100 * (1 + 10 / 100)).
    { unfold takeProfitPrice. rewrite Htp. reflexivity. }
    split.
    + rewrite Hpos, Hentry, Hs, Ht. vm_compute. reflexivity.
    + rewrite simulateBar_long_both; rewrite ?Hentry, ?Hs, ?Ht, ?Hlow, ?Hhigh;
        try assumption; try (vm_compute; reflexivity).
Qed.

(** The scenario on a whole history: bar 0 closes at 50 and bars 1 to 21 at
    100, so that at index 21 the short average is above the long one and a
    long position is opened at 100; bar 22 has low 94 and high 111. *)
Definition flatBar (c : number) : MarketData :=
  {| symbol := "SYM"; timestamp := "t"; open := c; high := c; low := c; close := c;
     volume := 0; vwap := c; trades := 0 |}.

Definition wideBar (c h l : number) : MarketData :=
  {| symbol := "SYM"; timestamp := "t"; open := c; high := h; low := l; close := c;
     volume := 0; vwap := c; trades := 0 |}.

Definition scenarioStrategy : StrategyConfig :=
  {| name := Text "Strategy_0"; description := "Optimized strategy";
     riskLevel := risk_medium; maxPositionSize := 0.5;
     stopLossPercentage := 5; takeProfitPercentage := 10; maxDrawdown := 20;
     rebalanceFrequency := daily;
     indicators := ["sma"; "ema"; "rsi"; "macd"]%string |}.

Definition scenarioBars : list MarketData :=
  flatBar 50 :: repeat (flatBar 100) 21%nat ++ [wideBar 100 111 94].

Example scenario_closes_at_stop :
  simulate scenarioStrategy scenarioBars =
    Ok {| position := 0; entryPrice := 100; returns := [-0.05] |}.
Proof. vm_compute. reflexivity. Qed.

Lemma both_touched_exit_is_conservative_witness :
  exitPrice 1 (stopLossPrice scenarioStrategy 1 100) (takeProfitPrice scenarioStrategy 1 100)
  = 95
  /\ simulateBar scenarioStrategy scenarioBars 22%nat (wideBar 100 111 94)
       {| position := 1; entryPrice := 100; returns := [] |}
     = {| position := 0; entryPrice := 100; returns := [] ++ [tradeReturn 1 95 100] |}.
Proof.
  apply (proj2 (proj2 both_touched_exit_is_conservative) scenarioStrategy scenarioBars 22%nat
           (wideBar 100 111 94) {| position := 1; entryPrice := 100; returns := [] |});
    reflexivity.
Defined.

End BacktestProperties.

(** ** The genetic operators *)

Section OperatorProperties.

Local Open Scope float_scope.

Variable random : nat -> number.
Variable config : OptimizationConfig.

(** The world after [k] more calls of [Math.random()]. *)
Definition advance (w : World) (k : nat) : World :=
  {| draws := k + draws w; evaluations := evaluations w; console := console w |}.

Lemma advance_advance w a b : advance (advance w a) b = advance w (b + a).
Proof. unfold advance. simpl. f_equal. lia. Qed.

Lemma advance_0 w : advance w 0 = w.
Proof. destruct w. reflexivity. Qed.

Lemma Math_random_run w :
  Math_random random w = (Ok (random (draws w)), advance w 1).
Proof. reflexivity. Qed.

Lemma bind_run {A B : Type} (c : M A) (k : A -> M B) w a w' :
  c w = (Ok a, w') -> bind c k w = k a w'.
Proof. intros H. unfold bind. rewrite H. reflexivity. Qed.

Lemma bind_throw {A B : Type} (c : M A) (k : A -> M B) w e w' :
  c w = (Throw e, w') -> bind c k w = (Throw e, w').
Proof. intros H. unfold bind. rewrite H. reflexivity. Qed.

Lemma lift_Ok_bind {A B : Type} (a : A) (k : A -> M B) w :
  bind (lift (Ok a)) k w = k a w.
Proof. reflexivity. Qed.

Lemma bind_inv {A B : Type} (c : M A) (k : A -> M B) w b w' :
  bind c k w = (Ok b, w') ->
  exists a w1, c w = (Ok a, w1) /\ k a w1 = (Ok b, w').
Proof.
  unfold bind. destruct (c w) as [[a|e] w1]; intros H; [eauto|discriminate].
Qed.

(** The value [randomInRange] computes from the draw [r]. *)
Definition redraw (bound : number * number) (r : number) : number :=
  fst bound + r * (snd bound - fst bound).

Lemma randomInRange_run bound w :
  randomInRange random bound w = (Ok (redraw bound (random (draws w))), advance w 1).
Proof. destruct bound as [lo hi]. reflexivity. Qed.

(** [min <= x <= max] for the four numeric fields. *)
Definition inBound (bound : number * number) (x : number) : bool :=
  (fst bound <=? x) && (x <=? snd bound).

Definition withinBounds (c : Constraints) (s : StrategyConfig) : bool :=
  inBound (c_maxPositionSize c) (maxPositionSize s)
  && inBound (c_stopLossPercentage c) (stopLossPercentage s)
  && inBound (c_takeProfitPercentage c) (takeProfitPercentage s)
  && inBound (c_maxDrawdown c) (maxDrawdown s).

(** *** setOf *)

Lemma setOf_fold_In (arr seen : list string) x :
  In x (fold_left (fun seen x => if existsb (String.eqb x) seen then seen else seen ++ [x])
          arr seen)
  <-> In x seen \/ In x arr.
Proof.
  revert seen. induction arr as [|y arr IH]; intros seen; simpl.
  - tauto.
  - rewrite IH. destruct (existsb (String.eqb y) seen) eqn:E.
    + apply existsb_exists in E. destruct E as [z [Hz Heq]].
      apply String.eqb_eq in Heq. subst z. intuition (subst; auto).
    + rewrite in_app_iff. simpl. intuition (subst; auto).
Qed.

Lemma setOf_fold_NoDup (arr seen : list string) :
  NoDup seen ->
  NoDup (fold_left (fun seen x => if existsb (String.eqb x) seen then seen else seen ++ [x])
           arr seen).
Proof.
  revert seen. induction arr as [|y arr IH]; intros seen Hnd; simpl.
  - assumption.
  - apply IH. destruct (existsb (String.eqb y) seen) eqn:E; [assumption|].
    apply NoDup_app; [assumption|repeat constructor; auto|].
    intros z Hz [Hy|[]]. subst z.
    assert (Hex : existsb (String.eqb y) seen = true).
    { apply existsb_exists. exists y. split; [assumption|apply String.eqb_refl]. }
    congruence.
Qed.

Lemma setOf_In arr x : In x (setOf arr) <-> In x arr.
Proof. unfold setOf. rewrite setOf_fold_In. simpl. tauto. Qed.

Lemma setOf_NoDup arr : NoDup (setOf arr).
Proof. apply setOf_fold_NoDup. constructor. Qed.

(** *** crossover *)

Lemma crossover_run parent1 parent2 w :
  crossover random parent1 parent2 w =
    (Ok {| name := RandomSuffix (random (draws w));
           description := "Optimized strategy";
           riskLevel :=
             if random (1 + draws w) <? 0.5 then riskLevel parent1 else riskLevel parent2;
           maxPositionSize :=
             if random (2 + draws w) <? 0.5 then maxPositionSize parent1
             else maxPositionSize parent2;
           stopLossPercentage :=
             if random (3 + draws w) <? 0.5 then stopLossPercentage parent1
             else stopLossPercentage parent2;
           takeProfitPercentage :=
             if random (4 + draws w) <? 0.5 then takeProfitPercentage parent1
             else takeProfitPercentage parent2;
           maxDrawdown :=
             if random (5 + draws w) <? 0.5 then maxDrawdown parent1 else maxDrawdown parent2;
           rebalanceFrequency :=
             if random (6 + draws w) <? 0.5 then rebalanceFrequency parent1
             else rebalanceFrequency parent2;
           indicators := setOf (indicators parent1 ++ indicators parent2) |},
     advance w 7).
Proof. reflexivity. Qed.

(** *** mutate *)

Lemma mutateField_run bound set mutated w :
  mutateField random config bound set mutated w =
    if random (draws w) <? mutationRate config
    then (Ok (set mutated (redraw bound (random (1 + draws w)))), advance w 2)
    else (Ok mutated, advance w 1).
Proof.
  unfold mutateField. rewrite (bind_run _ _ _ _ _ (Math_random_run w)).
  destruct (random (draws w) <? mutationRate config); [|reflexivity].
  rewrite (bind_run _ _ _ _ _ (randomInRange_run bound (advance w 1))). reflexivity.
Qed.

End OperatorProperties.

(** Every draw of [Math.random()] lies in the interval from 0 (included) to 1
    (excluded). *)
Definition unitInterval (random : nat -> number) : Prop :=
  forall k, (0 <=? random k)%float = true /\ (random k <? 1)%float = true.

Section OperatorTheorems.

Local Open Scope float_scope.

(** C6: crossover of two parents that respect the bounds returns a child
    whose four numeric fields are each the field of one parent or of the
    other, whose indicators are those of the two parents together, without
    duplicates, and which respects the bounds. *)
Theorem crossover_inherits random config parent1 parent2 w :
  withinBounds (constraints config) parent1 = true ->
  withinBounds (constraints config) parent2 = true ->
  exists child w',
    crossover random parent1 parent2 w = (Ok child, w')
    /\ (maxPositionSize child = maxPositionSize parent1
        \/ maxPositionSize child = maxPositionSize parent2)
    /\ (stopLossPercentage child = stopLossPercentage parent1
        \/ stopLossPercentage child = stopLossPercentage parent2)
    /\ (takeProfitPercentage child = takeProfitPercentage parent1
        \/ takeProfitPercentage child = takeProfitPercentage parent2)
    /\ (maxDrawdown child = maxDrawdown parent1 \/ maxDrawdown child = maxDrawdown parent2)
    /\ NoDup (indicators child)
    /\ (forall x, In x (indicators child)
                  <-> In x (indicators parent1) \/ In x (indicators parent2))
    /\ withinBounds (constraints config) child = true.
Proof.
  intros H1 H2. rewrite crossover_run. eexists. eexists. split; [reflexivity|].
  unfold withinBounds in *. cbn [maxPositionSize stopLossPercentage takeProfitPercentage
                                 maxDrawdown indicators].
  apply andb_prop in H1. destruct H1 as [H1 H1d].
  apply andb_prop in H1. destruct H1 as [H1 H1c].
  apply andb_prop in H1. destruct H1 as [H1a H1b].
  apply andb_prop in H2. destruct H2 as [H2 H2d].
  apply andb_prop in H2. destruct H2 as [H2 H2c].
  apply andb_prop in H2. destruct H2 as [H2a H2b].
  repeat split.
  - destruct (_ <? _); auto.
  - destruct (_ <? _); auto.
  - destruct (_ <? _); auto.
  - destruct (_ <? _); auto.
  - apply setOf_NoDup.
  - intros Hx. apply (proj1 (setOf_In _ _)) in Hx. apply in_app_iff in Hx. exact Hx.
  - intros Hx. apply (proj2 (setOf_In _ _)). apply in_app_iff. exact Hx.
  - repeat match goal with |- context [if ?c then _ else _] => destruct c end;
      rewrite ?H1a, ?H1b, ?H1c, ?H1d, ?H2a, ?H2b, ?H2c, ?H2d; reflexivity.
Qed.

Definition exampleConstraints : Constraints :=
  {| c_maxPositionSize := (0.1, 1);
     c_stopLossPercentage := (1, 10);
     c_takeProfitPercentage := (2, 20);
     c_maxDrawdown := (5, 30) |}.

Definition exampleConfig : OptimizationConfig :=
  {| populationSize := 4; generations := 2; mutationRate := 0.1; crossoverRate := 0.7;
     objective := sharpeRatio; constraints := exampleConstraints |}.

Definition otherStrategy : StrategyConfig :=
  {| name := Text "Strategy_1"; description := "Optimized strategy";
     riskLevel := risk_high; maxPositionSize := 0.25;
     stopLossPercentage := 2; takeProfitPercentage := 4; maxDrawdown := 10;
     rebalanceFrequency := weekly;
     indicators := ["rsi"; "vwap"; "sma"]%string |}.

(** A stream of draws that alternates below and above one half. *)
Definition alternating (k : nat) : number := if Nat.even k then 0.25 else 0.75.

Example crossover_example :
  fst (crossover alternating scenarioStrategy otherStrategy initialWorld) =
    Ok {| name := RandomSuffix 0.25; description := "Optimized strategy";
          riskLevel := risk_high; maxPositionSize := 0.5;
          stopLossPercentage := 2; takeProfitPercentage := 10; maxDrawdown := 10;
          rebalanceFrequency := daily;
          indicators := ["sma"; "ema"; "rsi"; "macd"; "vwap"]%string |}.
Proof. vm_compute. reflexivity. Qed.

Lemma crossover_inherits_witness :
  exists child w',
    crossover alternating scenarioStrategy otherStrategy initialWorld = (Ok child, w')
    /\ (maxPositionSize child = maxPositionSize scenarioStrategy
        \/ maxPositionSize child = maxPositionSize otherStrategy)
    /\ (stopLossPercentage child = stopLossPercentage scenarioStrategy
        \/ stopLossPercentage child = stopLossPercentage otherStrategy)
    /\ (takeProfitPercentage child = takeProfitPercentage scenarioStrategy
        \/ takeProfitPercentage child = takeProfitPercentage otherStrategy)
    /\ (maxDrawdown child = maxDrawdown scenarioStrategy
        \/ maxDrawdown child = maxDrawdown otherStrategy)
    /\ NoDup (indicators child)
    /\ (forall x, In x (indicators child)
                  <-> In x (indicators scenarioStrategy) \/ In x (indicators otherStrategy))
    /\ withinBounds (constraints exampleConfig) child = true.
Proof.
  apply (crossover_inherits alternating exampleConfig scenarioStrategy otherStrategy
           initialWorld); vm_compute; reflexivity.
Defined.

(** The result of [mutate] when every field is redrawn. *)
Definition redrawn (random : nat -> number) (c : Constraints) (strategy : StrategyConfig)
    (d : nat) : StrategyConfig :=
  {| name := name strategy;
     description := description strategy;
     riskLevel := riskLevel strategy;
     maxPositionSize := redraw (c_maxPositionSize c) (random (1 + d)%nat);
     stopLossPercentage := redraw (c_stopLossPercentage c) (random (3 + d)%nat);
     takeProfitPercentage := redraw (c_takeProfitPercentage c) (random (5 + d)%nat);
     maxDrawdown := redraw (c_maxDrawdown c) (random (7 + d)%nat);
     rebalanceFrequency := rebalanceFrequency strategy;
     indicators := indicators strategy |}.



(** A field after [mutate]: the field before, or a redraw from its bound. *)
Definition keptOrRedrawn (random : nat -> number) (bound : number * number)
    (before after : number) : Prop :=
  after = before \/ exists k, after = redraw bound (random k).

Lemma mutate_fields random config strategy w :
  exists mutated w',
    mutate random config strategy w = (Ok mutated, w')
    /\ name mutated = name strategy
    /\ description mutated = description strategy
    /\ riskLevel mutated = riskLevel strategy
    /\ rebalanceFrequency mutated = rebalanceFrequency strategy
    /\ indicators mutated = indicators strategy
    /\ keptOrRedrawn random (c_maxPositionSize (constraints config))
         (maxPositionSize strategy) (maxPositionSize mutated)
    /\ keptOrRedrawn random (c_stopLossPercentage (constraints config))
         (stopLossPercentage strategy) (stopLossPercentage mutated)
    /\ keptOrRedrawn random (c_takeProfitPercentage (constraints config))
         (takeProfitPercentage strategy) (takeProfitPercentage mutated)
    /\ keptOrRedrawn random (c_maxDrawdown (constraints config))
         (maxDrawdown strategy) (maxDrawdown mutated).
Proof.
  unfold mutate, bind. rewrite mutateField_run.
  destruct (random (draws w) <? mutationRate config);
    rewrite mutateField_run;
    match goal with |- context [random (draws ?w1) <? _] =>
      destruct (random (draws w1) <? mutationRate config) end;
    rewrite mutateField_run;
    match goal with |- context [random (draws ?w1) <? _] =>
      destruct (random (draws w1) <? mutationRate config) end;
    rewrite mutateField_run;
    match goal with |- context [random (draws ?w1) <? _] =>
      destruct (random (draws w1) <? mutationRate config) end;
    unfold ret; eexists; eexists; (split; [reflexivity|]);
    unfold keptOrRedrawn; cbn; repeat split; eauto.
Qed.






Lemma alternating_unitInterval : unitInterval alternating.
Proof. intros k. unfold alternating. destruct (Nat.even k); split; reflexivity. Qed.


Example mutate_certain_example :
  redrawn alternating exampleConstraints scenarioStrategy 0 =
    {| name := Text "Strategy_0"; description := "Optimized strategy";
       riskLevel := risk_medium;
       maxPositionSize := 0.1 + 0.75 * (1 - 0.1);
       stopLossPercentage := 1 + 0.75 * (10 - 1);
       takeProfitPercentage := 2 + 0.75 * (20 - 2);
       maxDrawdown := 5 + 0.75 * (30 - 5);
       rebalanceFrequency := daily;
       indicators := ["sma"; "ema"; "rsi"; "macd"]%string |}.
Proof. reflexivity. Qed.

End OperatorTheorems.

(** ** The generational loop *)

Section LoopProperties.

Local Open Scope float_scope.

Variable random : nat -> number.
Variable config : OptimizationConfig.

(** *** The operations that cannot fail *)

Lemma generateFrom_run n i population w :
  exists population',
    generateFrom random config n i population w = (Ok population', advance w (4 * n))
    /\ List.length population' = (List.length population + n)%nat.
Proof.
  revert i population w. induction n as [|n IH]; intros i population w.
  - exists population. simpl. unfold ret. rewrite advance_0. split; [reflexivity|lia].
  - cbn [generateFrom].
    repeat (erewrite bind_run; [|apply randomInRange_run]).
    edestruct IH as [population' [Hrun Hlen]]. rewrite Hrun.
    exists population'. split.
    + rewrite !advance_advance. do 2 f_equal. lia.
    + rewrite Hlen, length_app. simpl. lia.
Qed.

Lemma generateInitialPopulation_run w :
  exists population,
    generateInitialPopulation random config w =
      (Ok population, advance w (4 * Z.to_nat (populationSize config)))
    /\ List.length population = Z.to_nat (populationSize config).
Proof.
  unfold generateInitialPopulation.
  destruct (generateFrom_run (Z.to_nat (populationSize config)) 0 [] w) as [p [H1 H2]].
  exists p. split; [exact H1|exact H2].
Qed.

Lemma collect_evaluate population historicalData :
  exists results,
    collect (map (fun strategy => evaluateStrategy strategy historicalData) population)
    = Ok results
    /\ map parameters results = population.
Proof.
  induction population as [|s population [results [IH1 IH2]]]; simpl.
  - exists []. split; reflexivity.
  - destruct (evaluateStrategy_returns s historicalData) as [r [Hr Hp]].
    rewrite Hr, IH1. exists (r :: results). simpl. rewrite Hp, IH2. split; reflexivity.
Qed.

Lemma evaluateAll_run population historicalData w :
  exists results,
    evaluateAll population historicalData w =
      (Ok results,
       {| draws := draws w;
          evaluations := evaluations w + List.length population;
          console := console w |})
    /\ map parameters results = population.
Proof.
  destruct (collect_evaluate population historicalData) as [results [H1 H2]].
  exists results. unfold evaluateAll. rewrite H1. split; [reflexivity|exact H2].
Qed.

Lemma mutate_returns strategy w :
  exists mutated w', mutate random config strategy w = (Ok mutated, w').
Proof.
  destruct (mutate_fields random config strategy w) as [m [w' [H _]]]. eauto.
Qed.

(** *** The failures of the loop are type errors *)

Definition isTypeError {A : Type} (o : Outcome A) : Prop :=
  exists msg, o = Throw (TypeError msg).

Lemma bind_isTypeError {A B : Type} (c : M A) (k : A -> M B) w :
  isTypeError (fst (c w)) -> isTypeError (fst (bind c k w)).
Proof.
  unfold bind. destruct (c w) as [[a|e] w1]; intros [msg H]; simpl in H;
    [discriminate|]. exists msg. simpl. congruence.
Qed.

Lemma pickParent_outcome selected w :
  (exists parent, pickParent random selected w = (Ok parent, advance w 1))
  \/ isTypeError (fst (pickParent random selected w)).
Proof.
  unfold pickParent. rewrite (bind_run _ _ _ _ _ (Math_random_run random w)).
  destruct (index selected _) as [r|].
  - left. eexists. reflexivity.
  - right. eexists. reflexivity.
Qed.

Lemma breed_outcome n selected newPopulation w :
  (exists population' w', breed random config n selected newPopulation w = (Ok population', w'))
  \/ isTypeError (fst (breed random config n selected newPopulation w)).
Proof.
  revert newPopulation w. induction n as [|n IH]; intros newPopulation w.
  - left. simpl. unfold ret. eauto.
  - cbn [breed].
    destruct (pickParent_outcome selected w) as [[p1 H1]|H1].
    2:{ right. apply bind_isTypeError. exact H1. }
    rewrite (bind_run _ _ _ _ _ H1).
    destruct (pickParent_outcome selected (advance w 1)) as [[p2 H2]|H2].
    2:{ right. apply bind_isTypeError. exact H2. }
    rewrite (bind_run _ _ _ _ _ H2).
    rewrite (bind_run _ _ _ _ _ (crossover_run random p1 p2 _)).
    edestruct mutate_returns as [m [w' Hm]]. rewrite (bind_run _ _ _ _ _ Hm).
    apply IH.
Qed.

Lemma generationStep_outcome historicalData generation population bestResult w :
  (exists population' best' w',
      generationStep random config historicalData generation population bestResult w
      = (Ok (population', best'), w'))
  \/ isTypeError
       (fst (generationStep random config historicalData generation population bestResult w)).
Proof.
  unfold generationStep.
  destruct (evaluateAll_run population historicalData w) as [results [He _]].
  rewrite (bind_run _ _ _ _ _ He).
  destruct results as [|r results].
  - right. eexists. reflexivity.
  - cbn [reduce1]. rewrite !lift_Ok_bind.
    match goal with |- context [bind (breed random config ?n ?sel ?acc) _ ?w1] =>
      destruct (breed_outcome n sel acc w1) as [[p' [w' Hb]]|Hb] end.
    + left. rewrite (bind_run _ _ _ _ _ Hb). unfold bind, console_log, ret. eauto.
    + right. apply bind_isTypeError. exact Hb.
Qed.

Lemma generationsFrom_outcome historicalData n generation population bestResult w :
  (exists best' w',
      generationsFrom random config historicalData n generation population bestResult w
      = (Ok best', w')
      /\ (n = 0%nat -> best' = bestResult)
      /\ (n <> 0%nat -> exists b, best' = Some b))
  \/ isTypeError
       (fst (generationsFrom random config historicalData n generation population
               bestResult w)).
Proof.
  revert generation population bestResult w.
  induction n as [|n IH]; intros generation population bestResult w.
  - left. simpl. unfold ret. eexists. eexists. split; [reflexivity|].
    split; [reflexivity|congruence].
  - cbn [generationsFrom].
    destruct (generationStep_outcome historicalData generation population bestResult w)
      as [[p' [b' [w' Hs]]]|Hs].
    + rewrite (bind_run _ _ _ _ _ Hs). cbn [fst snd].
      destruct (IH (S generation) p' (Some b') w') as [[best' [w'' [H1 [H2 H3]]]]|H].
      * left. exists best', w''. split; [exact H1|]. split; [discriminate|]. intros _.
        destruct n as [|n]; [rewrite H2 by reflexivity; eauto|apply H3; discriminate].
      * right. exact H.
    + right. apply bind_isTypeError. exact Hs.
Qed.

(** *** What a generation does to the best result *)

Lemma updateBest_cases incumbent currentBest :
  updateBest config (Some incumbent) currentBest = incumbent
  \/ (updateBest config (Some incumbent) currentBest = currentBest
      /\ (score (objective config) incumbent <? score (objective config) currentBest) = true).
Proof.
  unfold updateBest, gt.
  destruct (score (objective config) incumbent <? score (objective config) currentBest);
    auto.
Qed.

Lemma generationStep_inv historicalData generation population bestResult w
    population' best' w' :
  generationStep random config historicalData generation population bestResult w
  = (Ok (population', best'), w') ->
  exists results currentBest,
    collect (map (fun strategy => evaluateStrategy strategy historicalData) population)
    = Ok results
    /\ reduce1 (better config) results = Ok currentBest
    /\ best' = updateBest config bestResult currentBest.
Proof.
  unfold generationStep. intros H.
  apply bind_inv in H. destruct H as [results [w1 [He H]]].
  apply bind_inv in H. destruct H as [currentBest [w2 [Hr H]]].
  cbv zeta in H.
  apply bind_inv in H. destruct H as [newPopulation [w3 [Hb H]]].
  apply bind_inv in H. destruct H as [u [w4 [Hl H]]].
  unfold ret in H. injection H as H1 H2 H3.
  exists results, currentBest. repeat split.
  - unfold evaluateAll in He. injection He as He _. exact He.
  - unfold lift in Hr. injection Hr as Hr _. exact Hr.
  - symmetry. exact H2.
Qed.

Lemma generationStep_best historicalData generation population incumbent w
    population' best' w' :
  generationStep random config historicalData generation population (Some incumbent) w
  = (Ok (population', best'), w') ->
  best' = incumbent
  \/ (score (objective config) incumbent <? score (objective config) best') = true.
Proof.
  intros H. apply generationStep_inv in H.
  destruct H as [results [currentBest [_ [_ Hb]]]]. subst best'.
  destruct (updateBest_cases incumbent currentBest) as [->|[-> Hlt]]; auto.
Qed.

Lemma generationsFrom_best historicalData n generation population incumbent w best' w' :
  generationsFrom random config historicalData n generation population (Some incumbent) w
  = (Ok best', w') ->
  exists b,
    best' = Some b
    /\ (b = incumbent
        \/ (score (objective config) incumbent <? score (objective config) b) = true).
Proof.
  revert generation population incumbent w.
  induction n as [|n IH]; intros generation population incumbent w H.
  - simpl in H. unfold ret in H. injection H as H _. subst best'. eauto.
  - cbn [generationsFrom] in H. apply bind_inv in H.
    destruct H as [[p1 b1] [w1 [Hs H]]]. cbn [fst snd] in H.
    apply IH in H. destruct H as [b [-> Hb]]. exists b. split; [reflexivity|].
    apply generationStep_best in Hs.
    destruct Hs as [->|Hlt1]; [exact Hb|].
    destruct Hb as [->|Hlt2]; [auto|].
    right. eapply NumberOrder.ltb_trans; eassumption.
Qed.

(** *** Runs that complete *)

(** The draw [r] gives an index of an array of length [len] in
    [Math.floor(r * len)]. *)
Definition validDraw (len : nat) (r : number) : bool :=
  match Math_floor (r * of_nat len) with
  | Some z => (0 <=? z)%Z && (z <? Z.of_nat len)%Z
  | None => false
  end.

Lemma pickParent_run selected w :
  validDraw (List.length selected) (random (draws w)) = true ->
  exists parent, pickParent random selected w = (Ok parent, advance w 1).
Proof.
  unfold validDraw, pickParent. intros H.
  rewrite (bind_run _ _ _ _ _ (Math_random_run random w)).
  destruct (Math_floor (random (draws w) * of_nat (List.length selected))) as [z|];
    [|discriminate].
  apply andb_prop in H. destruct H as [H0 H1].
  apply Z.leb_le in H0. apply Z.ltb_lt in H1.
  unfold index. destruct (z <? 0)%Z eqn:E; [apply Z.ltb_lt in E; lia|].
  destruct (nth_error selected (Z.to_nat z)) as [r|] eqn:En.
  - eexists. reflexivity.
  - apply nth_error_None in En. lia.
Qed.

Lemma breed_run n selected newPopulation w :
  (forall k, validDraw (List.length selected) (random k) = true) ->
  exists population' w',
    breed random config n selected newPopulation w = (Ok population', w')
    /\ List.length population' = (List.length newPopulation + n)%nat.
Proof.
  intros Hvalid. revert newPopulation w.
  induction n as [|n IH]; intros newPopulation w.
  - simpl. unfold ret. exists newPopulation, w. split; [reflexivity|lia].
  - cbn [breed].
    destruct (pickParent_run selected w (Hvalid _)) as [p1 H1].
    rewrite (bind_run _ _ _ _ _ H1).
    destruct (pickParent_run selected (advance w 1) (Hvalid _)) as [p2 H2].
    rewrite (bind_run _ _ _ _ _ H2).
    rewrite (bind_run _ _ _ _ _ (crossover_run random p1 p2 _)).
    edestruct mutate_returns as [m [w' Hm]]. rewrite (bind_run _ _ _ _ _ Hm).
    destruct (IH (newPopulation ++ [m]) w') as [p' [w'' [Hb Hlen]]].
    exists p', w''. split; [exact Hb|]. rewrite Hlen, length_app. simpl. lia.
Qed.

Lemma sortInsert_length {A : Type} (cmp : A -> A -> number) x sorted :
  List.length (sortInsert cmp x sorted) = S (List.length sorted).
Proof.
  induction sorted as [|y rest IH]; simpl; [reflexivity|].
  destruct (gt (cmp y x) 0); simpl; [reflexivity|]. rewrite IH. reflexivity.
Qed.

Lemma sort_fold_length {A : Type} (cmp : A -> A -> number) arr sorted :
  List.length (fold_left (fun sorted x => sortInsert cmp x sorted) arr sorted)
  = (List.length sorted + List.length arr)%nat.
Proof.
  revert sorted. induction arr as [|x arr IH]; intros sorted; simpl; [lia|].
  rewrite IH, sortInsert_length. lia.
Qed.

Lemma sort_length {A : Type} (cmp : A -> A -> number) arr :
  List.length (sort cmp arr) = List.length arr.
Proof. unfold sort. rewrite sort_fold_length. reflexivity. Qed.

Lemma select_length results n :
  (n <= List.length results)%nat ->
  List.length (select config results n) = (n / 2)%nat.
Proof.
  intros H. unfold select. rewrite length_firstn, sort_length.
  assert (n / 2 <= n)%nat by (apply Nat.Div0.div_le_upper_bound; lia). lia.
Qed.

Lemma generationStep_run historicalData generation population bestResult w :
  List.length population = Z.to_nat (populationSize config) ->
  (2 <= populationSize config)%Z ->
  (forall k, validDraw (Z.to_nat (populationSize config) / 2) (random k) = true) ->
  exists population' best' w',
    generationStep random config historicalData generation population bestResult w
    = (Ok (population', best'), w')
    /\ List.length population' = Z.to_nat (populationSize config).
Proof.
  intros Hlen Hsize Hvalid. unfold generationStep.
  destruct (evaluateAll_run population historicalData w) as [results [He Hp]].
  rewrite (bind_run _ _ _ _ _ He).
  assert (Hres : List.length results = List.length population).
  { rewrite <- Hp, length_map. reflexivity. }
  destruct results as [|r results]; [simpl in Hres; lia|].
  cbn [reduce1]. rewrite lift_Ok_bind. cbv zeta.
  match goal with |- context [bind (breed random config ?n ?sel ?acc) _ ?w1] =>
    destruct (breed_run n sel acc w1) as [p' [w' [Hb Hl]]] end.
  { rewrite select_length by lia. rewrite Hlen. exact Hvalid. }
  rewrite (bind_run _ _ _ _ _ Hb). unfold bind, console_log, ret.
  eexists. eexists. eexists. split; [reflexivity|]. rewrite Hl. reflexivity.
Qed.

Lemma generationsFrom_run historicalData n generation population bestResult w :
  List.length population = Z.to_nat (populationSize config) ->
  (2 <= populationSize config)%Z ->
  (forall k, validDraw (Z.to_nat (populationSize config) / 2) (random k) = true) ->
  exists best' w',
    generationsFrom random config historicalData n generation population bestResult w
    = (Ok best', w')
    /\ (n <> 0%nat -> exists b, best' = Some b).
Proof.
  intros Hlen Hsize Hvalid. revert generation population bestResult w Hlen.
  induction n as [|n IH]; intros generation population bestResult w Hlen.
  - simpl. unfold ret. eexists. eexists. split; [reflexivity|congruence].
  - cbn [generationsFrom].
    destruct (generationStep_run historicalData generation population bestResult w
                Hlen Hsize Hvalid) as [p' [b' [w' [Hs Hl]]]].
    rewrite (bind_run _ _ _ _ _ Hs). cbn [fst snd].
    destruct (IH (S generation) p' (Some b') w' Hl) as [best' [w'' [H1 H2]]].
    exists best', w''. split; [exact H1|]. intros _.
    destruct n as [|n]; [|apply H2; discriminate].
    simpl in H1. unfold ret in H1. injection H1 as H1 _. subst best'. eauto.
Qed.

End LoopProperties.

(** ** optimize *)

Section OptimizeTheorems.

Local Open Scope float_scope.

Definition noSolution : Exn := Error "Optimization failed to find a solution".

(** A configuration error: a bound with [min > max], or a population or
    generation count that is not positive. *)
Definition invertedBound (bound : number * number) : bool := gt (fst bound) (snd bound).

Definition configurationError (config : OptimizationConfig) : bool :=
  invertedBound (c_maxPositionSize (constraints config))
  || invertedBound (c_stopLossPercentage (constraints config))
  || invertedBound (c_takeProfitPercentage (constraints config))
  || invertedBound (c_maxDrawdown (constraints config))
  || (populationSize config <=? 0)%Z
  || (generations config <=? 0)%Z.

Definition invertedConfig : OptimizationConfig :=
  {| populationSize := 2; generations := 1; mutationRate := 0.1; crossoverRate := 0.7;
     objective := sharpeRatio;
     constraints :=
       {| c_maxPositionSize := (0.1, 1);
          c_stopLossPercentage := (10, 1);
          c_takeProfitPercentage := (2, 20);
          c_maxDrawdown := (5, 30) |} |}.

(** The claim C3 read on the code: a configuration with a bound whose [min]
    is above its [max] would fail before any simulation.  It does not: the
    run below completes and has evaluated two candidates. *)
Lemma inverted_bound_is_simulated :
  configurationError invertedConfig = true
  /\ exists result w',
       run alternating invertedConfig scenarioBars = (Ok result, w')
       /\ evaluations w' = 2%nat.
Proof.
  split; [reflexivity|]. eexists. eexists. split; vm_compute; reflexivity.
Qed.

(** C3, as the code has it: nothing validates the configuration, but a
    population or generation count that is not positive makes [optimize]
    raise, and no candidate has been evaluated when it does.  Without a
    generation the loop body never runs and the final check raises; with an
    empty population [reduce] raises on the empty array of results. *)
Theorem nonpositive_counts_raise_unevaluated random config historicalData :
  (populationSize config <= 0 \/ generations config <= 0)%Z ->
  exists e w',
    run random config historicalData = (Throw e, w')
    /\ evaluations w' = 0%nat.
Proof.
  intros H. unfold run, optimize.
  destruct (generateInitialPopulation_run random config initialWorld)
    as [population [Hg Hlen]].
  rewrite (bind_run _ _ _ _ _ Hg).
  destruct (Z.to_nat (generations config)) as [|n] eqn:En.
  - simpl. unfold bind, ret, throw. eexists. eexists. split; reflexivity.
  - assert (Hp : (populationSize config <= 0)%Z) by lia.
    assert (Hnil : population = []).
    { destruct population; [reflexivity|]. simpl in Hlen. lia. }
    subst population. eexists. eexists.
    cbn [generationsFrom]. unfold generationStep. split.
    + unfold bind at 1. unfold bind at 1. unfold bind at 1. simpl. reflexivity.
    + reflexivity.
Qed.

Definition emptyConfig : OptimizationConfig :=
  {| populationSize := 0; generations := 3; mutationRate := 0.1; crossoverRate := 0.7;
     objective := sharpeRatio; constraints := exampleConstraints |}.

Lemma nonpositive_counts_raise_unevaluated_witness :
  exists e w',
    run alternating emptyConfig scenarioBars = (Throw e, w')
    /\ evaluations w' = 0%nat.
Proof.
  apply (nonpositive_counts_raise_unevaluated alternating emptyConfig scenarioBars).
  left. simpl. lia.
Defined.

Example empty_population_raises_in_reduce :
  fst (run alternating emptyConfig scenarioBars)
  = Throw (TypeError "Reduce of empty array with no initial value").
Proof. vm_compute. reflexivity. Qed.

Definition idleConfig : OptimizationConfig :=
  {| populationSize := 4; generations := 0; mutationRate := 0.1; crossoverRate := 0.7;
     objective := sharpeRatio; constraints := exampleConstraints |}.

(** The claim C4 read on the code: with a positive population size
    [optimize] would return a best candidate.  With four candidates and no
    generation it raises the empty-result error. *)
Lemma positive_population_without_generation_raises :
  (0 < populationSize idleConfig)%Z
  /\ fst (run alternating idleConfig scenarioBars) = Throw noSolution.
Proof. split; [reflexivity|vm_compute; reflexivity]. Qed.

(** A population of one candidate leaves the selected half empty, and the
    first parent lookup reads a property of [undefined]. *)
Definition lonelyConfig : OptimizationConfig :=
  {| populationSize := 1; generations := 1; mutationRate := 0.1; crossoverRate := 0.7;
     objective := sharpeRatio; constraints := exampleConstraints |}.

Example single_candidate_raises :
  fst (run alternating lonelyConfig scenarioBars)
  = Throw (TypeError "Cannot read properties of undefined").
Proof. vm_compute. reflexivity. Qed.

Lemma run_no_generation random config historicalData :
  (generations config <= 0)%Z ->
  fst (run random config historicalData) = Throw noSolution.
Proof.
  intros H. unfold run, optimize.
  destruct (generateInitialPopulation_run random config initialWorld)
    as [population [Hg Hlen]].
  rewrite (bind_run _ _ _ _ _ Hg).
  replace (Z.to_nat (generations config)) with 0%nat by lia. reflexivity.
Qed.

Lemma run_some_generation random config historicalData :
  (1 <= generations config)%Z ->
  fst (run random config historicalData) <> Throw noSolution.
Proof.
  intros H. unfold run, optimize.
  destruct (generateInitialPopulation_run random config initialWorld)
    as [population [Hg Hlen]].
  rewrite (bind_run _ _ _ _ _ Hg).
  match goal with |- context [bind (generationsFrom random config ?d ?n ?g ?p ?b) _ ?w] =>
    destruct (generationsFrom_outcome random config d n g p b w)
      as [[best' [w' [Hr [_ Hsome]]]]|Hr] end.
  - rewrite (bind_run _ _ _ _ _ Hr). destruct Hsome as [b ->]; [lia|]. discriminate.
  - eapply bind_isTypeError in Hr. destruct Hr as [msg Hr]. rewrite Hr. discriminate.
Qed.

(** Draws from 0 to 1 (excluded) always pick a parent in a selected half of
    at least one and fewer than [2 ^ 53] results. *)
Lemma unitInterval_validDraw random (len : nat) :
  unitInterval random -> (0 < len)%nat -> (Z.of_nat len < 2 ^ 53)%Z ->
  forall k, validDraw len (random k) = true.
Proof.
  intros Hunit Hpos Hlen k. unfold validDraw.
  destruct (Hunit k) as [H0 H1].
  destruct (Rounding.floor_of_product len (random k) Hpos Hlen H0 H1) as [z [Hz Hr]].
  rewrite Hz. apply andb_true_intro. split; [apply Z.leb_le|apply Z.ltb_lt]; lia.
Qed.

(** C4, as the code has it: [optimize] raises the empty-result error exactly
    when the generation count is not positive, whatever the population size;
    with at least one generation and at least two candidates it returns a
    best candidate, whatever the bars and the scores.  The draws are those of
    [Math.random()], from 0 (included) to 1 (excluded), and the population
    size is below [2 ^ 54], so that the length of the selected half is a
    number that stands for itself. *)
Theorem empty_result_iff_no_generation :
  (forall random config historicalData,
      fst (run random config historicalData) = Throw noSolution
      <-> (generations config <= 0)%Z)
  /\ (forall random config historicalData,
      (2 <= populationSize config < 2 ^ 54)%Z ->
      (1 <= generations config)%Z ->
      unitInterval random ->
      exists result w', run random config historicalData = (Ok result, w')).
Proof.
  split.
  - intros random config historicalData. split.
    + intros H. destruct (Z_le_gt_dec (generations config) 0) as [Hle|Hgt]; [exact Hle|].
      exfalso. apply (run_some_generation random config historicalData); [lia|exact H].
    + apply run_no_generation.
  - intros random config historicalData Hsize Hgen Hunit. unfold run, optimize.
    destruct (generateInitialPopulation_run random config initialWorld)
      as [population [Hg Hlen]].
    rewrite (bind_run _ _ _ _ _ Hg).
    assert (Hvalid : forall k,
               validDraw (Z.to_nat (populationSize config) / 2) (random k) = true).
    { apply unitInterval_validDraw; [exact Hunit| |].
      - apply Nat.div_str_pos. lia.
      - rewrite Nat2Z.inj_div, Z2Nat.id by lia.
        apply Z.div_lt_upper_bound; [lia|]. change (2 * 2 ^ 53)%Z with (2 ^ 54)%Z. lia. }
    match goal with |- context [bind (generationsFrom random config ?d ?n ?g ?p ?b) _ ?w] =>
      destruct (generationsFrom_run random config d n g p b w Hlen ltac:(lia) Hvalid)
        as [best' [w' [Hr Hsome]]] end.
    rewrite (bind_run _ _ _ _ _ Hr). destruct Hsome as [b ->]; [lia|].
    unfold ret. eauto.
Qed.

Lemma empty_result_iff_no_generation_witness :
  exists result w', run alternating exampleConfig [] = (Ok result, w').
Proof.
  apply (proj2 empty_result_iff_no_generation alternating exampleConfig []).
  - simpl. lia.
  - simpl. lia.
  - exact alternating_unitInterval.
Defined.

(** With no bar at all every candidate has the metrics of the empty return
    sequence, and the first candidate is returned. *)
Example optimize_without_bars :
  fst (run alternating exampleConfig []) =
    Ok {| parameters :=
            {| name := Text "Strategy_0"; description := "Optimized strategy";
               riskLevel := risk_medium;
               maxPositionSize := 0.1 + 0.25 * (1 - 0.1);
               stopLossPercentage := 1 + 0.75 * (10 - 1);
               takeProfitPercentage := 2 + 0.25 * (20 - 2);
               maxDrawdown := 5 + 0.75 * (30 - 5);
               rebalanceFrequency := daily;
               indicators := ["sma"; "ema"; "rsi"; "macd"]%string |};
          metrics := calculateMetrics [] |}.
Proof. vm_compute. reflexivity. Qed.

End OptimizeTheorems.

(** ** The best result across generations *)

Section BestTheorems.

Local Open Scope float_scope.

(** C9: the best result kept across generations is replaced only by a result
    whose objective value is strictly greater.  A result with the same
    objective value as the incumbent leaves the incumbent in place; after a
    generation, and after any number of generations, the best result is the
    incumbent or a result with a strictly greater objective value. *)
Theorem best_replaced_only_by_strictly_greater :
  (forall config incumbent candidate,
      (score (objective config) candidate =? score (objective config) incumbent) = true ->
      updateBest config (Some incumbent) candidate = incumbent)
  /\ (forall random config historicalData generation population incumbent w
             population' best' w',
      generationStep random config historicalData generation population (Some incumbent) w
      = (Ok (population', best'), w') ->
      (best' = incumbent
       \/ (score (objective config) incumbent <? score (objective config) best') = true)
      /\ ((score (objective config) best' =? score (objective config) incumbent) = true ->
          best' = incumbent))
  /\ (forall random config historicalData n generation population incumbent w best' w',
      generationsFrom random config historicalData n generation population
        (Some incumbent) w = (Ok best', w') ->
      exists b,
        best' = Some b
        /\ (b = incumbent
            \/ (score (objective config) incumbent <? score (objective config) b) = true)).
Proof.
  split; [|split].
  - intros config incumbent candidate Heq.
    destruct (updateBest_cases config incumbent candidate) as [H|[_ Hlt]]; [exact H|].
    apply NumberOrder.eqb_not_ltb in Heq. destruct Heq as [_ Heq]. congruence.
  - intros random config historicalData generation population incumbent w
      population' best' w' H.
    apply generationStep_best in H. split; [exact H|].
    intros Heq. destruct H as [H|Hlt]; [exact H|].
    apply NumberOrder.eqb_not_ltb in Heq. destruct Heq as [_ Heq]. congruence.
  - intros random config historicalData n generation population incumbent w best' w'.
    apply generationsFrom_best.
Qed.

Definition resultWith (n : string) (sharpe : number) : OptimizationResult :=
  {| parameters :=
       {| name := Text n; description := "Optimized strategy";
          riskLevel := risk_medium; maxPositionSize := 0.5;
          stopLossPercentage := 5; takeProfitPercentage := 10; maxDrawdown := 20;
          rebalanceFrequency := daily;
          indicators := ["sma"; "ema"; "rsi"; "macd"]%string |};
     metrics :=
       {| m_sharpeRatio := sharpe; m_sortinoRatio := 0; m_calmarRatio := 0;
          m_maxDrawdown := 0; m_totalReturn := 0; m_winRate := 0 |} |}.

Lemma best_replaced_only_by_strictly_greater_witness :
  updateBest exampleConfig (Some (resultWith "Strategy_0" 0.5)) (resultWith "Strategy_7" 0.5)
  = resultWith "Strategy_0" 0.5.
Proof.
  apply (proj1 best_replaced_only_by_strictly_greater exampleConfig
           (resultWith "Strategy_0" 0.5) (resultWith "Strategy_7" 0.5)).
  reflexivity.
Defined.

End BestTheorems.

(** ** Selection *)

(** The sort, on elements whose keys are comparable numbers and for a
    comparator that asks to move [b] in front of [a] exactly when the key of
    [b] is above the key of [a]. *)
Section StableSort.

Local Open Scope float_scope.

Variable A : Type.
Variable key : A -> number.
Variable cmp : A -> A -> number.

(** The elements that are sorted. *)
Variable pool : list A.

Hypothesis key_not_nan : forall a, In a pool -> is_nan (key a) = false.
Hypothesis cmp_key :
  forall a b, In a pool -> In b pool -> gt (cmp a b) 0 = (key a <? key b).




Lemma sortInsert_Permutation x sorted :
  Permutation (sortInsert cmp x sorted) (x :: sorted).
Proof.
  induction sorted as [|y rest IH]; simpl.
  - apply Permutation_refl.
  - destruct (gt (cmp y x) 0); [apply Permutation_refl|].
    eapply Permutation_trans; [apply perm_skip; exact IH|apply perm_swap].
Qed.


Lemma filter_none (p : A -> bool) l :
  (forall z, In z l -> p z = false) -> filter p l = [].
Proof.
  induction l as [|a l IH]; intros H; simpl; [reflexivity|].
  rewrite (H a) by (left; reflexivity). apply IH. intros z Hz. apply H. right. exact Hz.
Qed.




End StableSort.

Lemma sort_fold_Permutation {A : Type} (cmp : A -> A -> number) arr sorted :
  Permutation (fold_left (fun sorted x => sortInsert cmp x sorted) arr sorted)
    (sorted ++ arr).
Proof.
  revert sorted. induction arr as [|x arr IH]; intros sorted; simpl.
  - rewrite app_nil_r. apply Permutation_refl.
  - eapply Permutation_trans; [apply IH|].
    eapply Permutation_trans;
      [apply Permutation_app_tail; apply sortInsert_Permutation|].
    simpl. apply Permutation_middle.
Qed.

Lemma sort_Permutation {A : Type} (cmp : A -> A -> number) arr :
  Permutation (sort cmp arr) arr.
Proof. apply (sort_fold_Permutation cmp arr []). Qed.

Section SelectionTheorems.

Local Open Scope float_scope.

(** No objective value is NaN. *)
Definition comparableScores (config : OptimizationConfig)
    (results : list OptimizationResult) : bool :=
  forallb (fun r => negb (is_nan (score (objective config) r))) results.

(** On such results the comparator [b.metrics[o] - a.metrics[o]] is above 0
    exactly when [b] scores above [a]. *)
Lemma comparableScores_spec config results :
  comparableScores config results = true ->
  (forall a, In a results -> is_nan (score (objective config) a) = false)
  /\ (forall a b, In a results -> In b results ->
        gt (byObjective config a b) 0
        = (score (objective config) a <? score (objective config) b)).
Proof.
  unfold comparableScores. rewrite forallb_forall. intros H.
  assert (Hnan : forall a, In a results -> is_nan (score (objective config) a) = false).
  { intros a Ha. apply negb_true_iff. apply H. exact Ha. }
  split; [exact Hnan|].
  intros a b Ha Hb. unfold gt, byObjective.
  apply Rounding.sub_positive; apply Hnan; assumption.
Qed.

Definition scoresAtLeast (o : Objective) (a b : OptimizationResult) : Prop :=
  (score o b <=? score o a) = true.





Definition fiveResults : list OptimizationResult :=
  [ resultWith "Strategy_0" 0.1; resultWith "Strategy_1" 0.5;
    resultWith "Strategy_2" 0.3; resultWith "Strategy_3" 0.5;
    resultWith "Strategy_4" 0.2 ].

Example sort_five :
  map (fun r => (name (parameters r), score sharpeRatio r))
      (sort (byObjective exampleConfig) fiveResults)
  = [ (Text "Strategy_1", 0.5); (Text "Strategy_3", 0.5); (Text "Strategy_2", 0.3);
      (Text "Strategy_4", 0.2); (Text "Strategy_0", 0.1) ].
Proof. vm_compute. reflexivity. Qed.


End SelectionTheorems.

(** ** Randomness and reproducibility *)

(** [optimize] takes the bars and reads [this.config]; the draws come from
    [Math.random()], which takes no seed.  A run is a function of the
    configuration, the bars and the values that [Math.random()] returns. *)
Section SameDraws.

Variable random1 random2 : nat -> number.
Variable config : OptimizationConfig.

Hypothesis same_draws : forall k, random1 k = random2 k.













End SameDraws.

Section ReproducibilityTheorems.

Local Open Scope float_scope.




End ReproducibilityTheorems.

(** * The backtest as a whole *)

Section BacktestTheorems.

Local Open Scope float_scope.

Lemma simulateBar_same strategy1 strategy2 historicalData i currentData st :
  stopLossPercentage strategy1 = stopLossPercentage strategy2 ->
  takeProfitPercentage strategy1 = takeProfitPercentage strategy2 ->
  simulateBar strategy1 historicalData i currentData st
  = simulateBar strategy2 historicalData i currentData st.
Proof.
  intros H1 H2. unfold simulateBar, stopLossPrice, takeProfitPrice.
  rewrite H1, H2. reflexivity.
Qed.

Lemma simulateFrom_same strategy1 strategy2 historicalData n i st :
  stopLossPercentage strategy1 = stopLossPercentage strategy2 ->
  takeProfitPercentage strategy1 = takeProfitPercentage strategy2 ->
  simulateFrom strategy1 historicalData n i st
  = simulateFrom strategy2 historicalData n i st.
Proof.
  intros H1 H2. revert i st. induction n as [|n IH]; intros i st; [reflexivity|].
  cbn [simulateFrom]. destruct (nth_error historicalData i) as [d|]; [|reflexivity].
  rewrite (simulateBar_same strategy1 strategy2) by assumption. apply IH.
Qed.

(** X11: the metrics of a strategy depend on its stop-loss and take-profit
    percentages only.  Two strategies with the same two percentages get the
    same metrics on the same bars, whatever their position size, maximal
    drawdown, risk level, rebalance frequency and indicators: the backtest
    reads none of these. *)
Theorem metrics_depend_on_two_parameters strategy1 strategy2 historicalData :
  stopLossPercentage strategy1 = stopLossPercentage strategy2 ->
  takeProfitPercentage strategy1 = takeProfitPercentage strategy2 ->
  exists m,
    evaluateStrategy strategy1 historicalData
    = Ok {| parameters := strategy1; metrics := m |}
    /\ evaluateStrategy strategy2 historicalData
       = Ok {| parameters := strategy2; metrics := m |}.
Proof.
  intros H1 H2. unfold evaluateStrategy, simulate.
  rewrite (simulateFrom_same strategy1 strategy2) by assumption.
  destruct (simulate_returns strategy2 historicalData) as [st Hst].
  unfold simulate in Hst. rewrite Hst. eauto.
Qed.

Lemma metrics_depend_on_two_parameters_witness :
  exists m,
    evaluateStrategy scenarioStrategy scenarioBars
    = Ok {| parameters := scenarioStrategy; metrics := m |}
    /\ evaluateStrategy
         {| name := Text "Strategy_9"; description := "Another strategy";
            riskLevel := risk_high; maxPositionSize := 0.9;
            stopLossPercentage := 5; takeProfitPercentage := 10; maxDrawdown := 1;
            rebalanceFrequency := monthly; indicators := [] |} scenarioBars
       = Ok {| parameters :=
                 {| name := Text "Strategy_9"; description := "Another strategy";
                    riskLevel := risk_high; maxPositionSize := 0.9;
                    stopLossPercentage := 5; takeProfitPercentage := 10; maxDrawdown := 1;
                    rebalanceFrequency := monthly; indicators := [] |};
               metrics := m |}.
Proof.
  apply (metrics_depend_on_two_parameters scenarioStrategy _ scenarioBars); reflexivity.
Defined.

(** *** How many trades a history can hold *)

(** The position is flat, long or short. *)
Definition positionKind (st : SimState) : Prop :=
  position st = 0 \/ position st = 1 \/ position st = -1.

(** One for an open position, nothing for a flat one. *)
Definition exposure (st : SimState) : nat :=
  if strict_eq (position st) 0 then 0%nat else 1%nat.

Lemma simulateBar_count strategy historicalData i currentData st :
  positionKind st ->
  positionKind (simulateBar strategy historicalData i currentData st)
  /\ (2 * List.length (returns (simulateBar strategy historicalData i currentData st))
      + exposure (simulateBar strategy historicalData i currentData st)
      <= 2 * List.length (returns st) + exposure st + 1)%nat.
Proof.
  unfold positionKind, exposure, simulateBar.
  intros [H|[H|H]]; rewrite H.
  - change (strict_eq 0 0) with true. cbv iota.
    destruct (gt _ _); [|destruct (_ <? _)]; cbn [position returns].
    + change (strict_eq 1 0) with false. split; [auto|lia].
    + change (strict_eq (-1) 0) with false. split; [auto|lia].
    + rewrite H. change (strict_eq 0 0) with true. split; [auto|lia].
  - change (strict_eq 1 0) with false. cbv iota.
    destruct (exitTouched _ _ _ _); cbn [position returns].
    + change (strict_eq 0 0) with true. rewrite length_app. cbn [List.length]. split; [auto|lia].
    + rewrite H. change (strict_eq 1 0) with false. split; [auto|lia].
  - change (strict_eq (-1) 0) with false. cbv iota.
    destruct (exitTouched _ _ _ _); cbn [position returns].
    + change (strict_eq 0 0) with true. rewrite length_app. cbn [List.length]. split; [auto|lia].
    + rewrite H. change (strict_eq (-1) 0) with false. split; [auto|lia].
Qed.

Lemma exposure_flat st : positionKind st -> exposure st = 0%nat -> position st = 0.
Proof.
  unfold positionKind, exposure. intros [H|[H|H]]; rewrite H; [reflexivity| |].
  - change (strict_eq 1 0) with false. discriminate.
  - change (strict_eq (-1) 0) with false. discriminate.
Qed.

Lemma simulateFrom_count strategy historicalData n i st st' :
  positionKind st ->
  (2 * List.length (returns st) + exposure st <= i - 21)%nat ->
  simulateFrom strategy historicalData n i st = Ok st' ->
  positionKind st'
  /\ (2 * List.length (returns st') + exposure st' <= i + n - 21)%nat.
Proof.
  revert i st. induction n as [|n IH]; intros i st Hk Hb H.
  - simpl in H. injection H as <-. split; [exact Hk|]. lia.
  - cbn [simulateFrom] in H.
    destruct (nth_error historicalData i) as [d|]; [|discriminate].
    destruct (Nat.le_gt_cases i 20) as [Hi|Hi].
    + assert (Hflat : position st = 0) by (apply exposure_flat; [exact Hk|lia]).
      rewrite simulateBar_flat_early in H by assumption.
      apply IH in H; [|exact Hk|lia]. destruct H as [H1 H2]. split; [exact H1|lia].
    + pose proof (simulateBar_count strategy historicalData i d st Hk) as [Hk' Hb'].
      apply IH in H; [|exact Hk'|lia]. destruct H as [H1 H2]. split; [exact H1|lia].
Qed.

(** X12: a history of [n] bars closes at most [(n - 21) / 2] trades, whatever
    the strategy.  The two moving averages are the same number up to index
    20, so no position is opened before index 21; a position is opened at one
    bar and closed at a later one. *)
Theorem trade_count_bound strategy historicalData :
  exists st,
    simulate strategy historicalData = Ok st
    /\ (2 * List.length (returns st) <= List.length historicalData - 21)%nat.
Proof.
  destruct (simulate_returns strategy historicalData) as [st Hst].
  exists st. split; [exact Hst|]. unfold simulate in Hst.
  apply simulateFrom_count in Hst.
  - destruct Hst as [_ Hst]. lia.
  - left. reflexivity.
  - vm_compute. lia.
Qed.

End BacktestTheorems.

(** * The arithmetic of the metrics and of the redraws *)

(** ** Special values

    What the operations return on zeros, infinities and NaN, from their
    specification on [spec_float]. *)

Module SpecialValues.

Local Open Scope float_scope.

(** The kinds of numbers. *)
Lemma nan_unique a : is_nan a = true -> a = nan.
Proof.
  intros H. apply NumberOrder.is_nan_Prim2SF in H. apply Prim2SF_inj. rewrite H. reflexivity.
Qed.

Lemma is_finite_kind a :
  is_finite a = true ->
  (exists s, Prim2SF a = S754_zero s) \/ (exists s m e, Prim2SF a = S754_finite s m e).
Proof.
  unfold is_finite, is_infinity. intros H. apply negb_true_iff in H.
  apply orb_false_iff in H. destruct H as [Hn Hi].
  rewrite FloatAxioms.eqb_spec, abs_spec in Hi.
  destruct (Prim2SF a) as [s|s| |s m e] eqn:E; eauto.
  - discriminate Hi.
  - apply NumberOrder.is_nan_Prim2SF in E. congruence.
Qed.

(** Zero divided by a positive length is zero. *)
Lemma zero_div_length (len : nat) :
  (0 < len)%nat -> (Z.of_nat len < 2 ^ 53)%Z -> 0 / of_nat len = 0.
Proof.
  intros Hpos Hlen. apply Prim2SF_inj. rewrite div_spec.
  destruct (Rounding.of_nat_spec len Hpos Hlen) as [mz [ez [Hn _]]]. rewrite Hn.
  reflexivity.
Qed.

(** Nothing is above [Infinity], and [Math.max] does not leave it. *)
Lemma ltb_infinity b : (infinity <? b) = false.
Proof.
  rewrite FloatAxioms.ltb_spec. change (Prim2SF infinity) with (S754_infinity false).
  destruct (Prim2SF b) as [s|s| |s m e]; try reflexivity; destruct s; reflexivity.
Qed.

Lemma Math_max_nan b : Math_max nan b = nan.
Proof. reflexivity. Qed.

Lemma Math_max_infinity b : Math_max infinity b = nan \/ Math_max infinity b = infinity.
Proof.
  unfold Math_max. change (is_nan infinity) with false. cbn [orb].
  destruct (is_nan b); [left; reflexivity|]. right.
  rewrite ltb_infinity. change (get_sign infinity) with false.
  destruct (b <? infinity); reflexivity.
Qed.

(** [(0 - c) / 0] for a value [c] that is not above zero. *)
Lemma rise_over_zero c :
  (0 <? c) = false -> (0 - c) / 0 = nan \/ (0 - c) / 0 = infinity.
Proof.
  rewrite FloatAxioms.ltb_spec. change (Prim2SF 0) with (S754_zero false). intros H.
  assert (E : Prim2SF ((0 - c) / 0) = S754_nan
              \/ Prim2SF ((0 - c) / 0) = S754_infinity false).
  { rewrite div_spec, sub_spec. change (Prim2SF 0) with (S754_zero false).
    destruct (Prim2SF c) as [s|s| |s m e]; try (left; reflexivity).
    - destruct s; left; reflexivity.
    - destruct s; [right; reflexivity|discriminate H].
    - destruct s; [right; reflexivity|discriminate H]. }
  destruct E as [E|E]; [left|right]; apply Prim2SF_inj; rewrite E; reflexivity.
Qed.

End SpecialValues.

(** ** calculateMetrics on more inputs *)

Section MetricsTheorems.

Local Open Scope float_scope.

(** A return of zero: [0], or [-0] for a short position closed at its entry
    price. *)
Definition zeroReturn (r : number) : Prop := r = 0 \/ r = -0.

Lemma fold_sum_zero returns :
  Forall zeroReturn returns -> fold_left (fun a b => a + b) returns 0 = 0.
Proof.
  induction 1 as [|r returns [->| ->] _ IH]; [reflexivity| |]; exact IH.
Qed.

Lemma fold_squares_zero returns :
  Forall zeroReturn returns ->
  fold_left (fun a b => a + Math_pow2 (b - 0)) returns 0 = 0.
Proof.
  induction 1 as [|r returns [->| ->] _ IH]; [reflexivity| |]; exact IH.
Qed.

Lemma filter_negative_zero returns :
  Forall zeroReturn returns -> filter (fun r => r <? 0) returns = [].
Proof.
  induction 1 as [|r returns [->| ->] _ IH]; [reflexivity| |]; exact IH.
Qed.

Lemma filter_positive_zero returns :
  Forall zeroReturn returns -> filter (fun r => gt r 0) returns = [].
Proof.
  induction 1 as [|r returns [->| ->] _ IH]; [reflexivity| |]; exact IH.
Qed.

(** After a first zero return the compounded value and its peak are 1. *)
Lemma fold_drawdown_zero returns :
  Forall zeroReturn returns ->
  fold_left drawdownStep returns {| peak := 1; dd_max := 0; currentValue := 1 |}
  = {| peak := 1; dd_max := 0; currentValue := 1 |}.
Proof.
  induction 1 as [|r returns [->| ->] _ IH]; [reflexivity| |]; exact IH.
Qed.

(** X13: a sequence of zero returns that is not empty has six metrics that
    are all 0.  The deviations are 0 and the guards [=== 0] return 0 for the
    three ratios; the compounded value stays at 1, so that the drawdown is
    0. *)
Theorem calculateMetrics_zero_returns (returns : list number) :
  returns <> [] ->
  (Z.of_nat (List.length returns) < 2 ^ 53)%Z ->
  Forall zeroReturn returns ->
  calculateMetrics returns =
    {| m_sharpeRatio := 0; m_sortinoRatio := 0; m_calmarRatio := 0;
       m_maxDrawdown := 0; m_totalReturn := 0; m_winRate := 0 |}.
Proof.
  intros Hne Hlen Hz.
  assert (Hpos : (0 < List.length returns)%nat).
  { destruct returns; [congruence|simpl; lia]. }
  unfold calculateMetrics.
  rewrite (fold_sum_zero returns Hz), (SpecialValues.zero_div_length _ Hpos Hlen).
  rewrite (fold_squares_zero returns Hz), (SpecialValues.zero_div_length _ Hpos Hlen).
  rewrite (filter_negative_zero returns Hz), (filter_positive_zero returns Hz).
  cbn [fold_left List.length]. change (of_nat 0) with 0.
  rewrite (SpecialValues.zero_div_length _ Hpos Hlen).
  assert (Hdd : fold_left drawdownStep returns {| peak := 0; dd_max := 0; currentValue := 1 |}
                = {| peak := 1; dd_max := 0; currentValue := 1 |}).
  { destruct Hz as [|r rest [->| ->] Hz]; [congruence| |];
      cbn [fold_left]; exact (fold_drawdown_zero rest Hz). }
  rewrite Hdd. reflexivity.
Qed.

Lemma calculateMetrics_zero_returns_witness :
  calculateMetrics [0; -0; 0] =
    {| m_sharpeRatio := 0; m_sortinoRatio := 0; m_calmarRatio := 0;
       m_maxDrawdown := 0; m_totalReturn := 0; m_winRate := 0 |}.
Proof.
  apply (calculateMetrics_zero_returns [0; -0; 0]).
  - discriminate.
  - simpl. lia.
  - constructor; [left; reflexivity|]. constructor; [right; reflexivity|].
    constructor; [left; reflexivity|]. constructor.
Defined.

(** X14: without a negative return the Sortino ratio is 0, when there is a
    return at all: the downside deviation is the root of [0 / length], which
    is 0, and the guard [downsideStdDev === 0] returns 0. *)
Theorem sortino_without_loss (returns : list number) :
  returns <> [] ->
  (Z.of_nat (List.length returns) < 2 ^ 53)%Z ->
  Forall (fun r => (r <? 0) = false) returns ->
  m_sortinoRatio (calculateMetrics returns) = 0.
Proof.
  intros Hne Hlen Hz.
  assert (Hpos : (0 < List.length returns)%nat).
  { destruct returns; [congruence|simpl; lia]. }
  unfold calculateMetrics. cbv zeta. cbn [m_sortinoRatio].
  rewrite (filter_none _ (fun r => r <? 0) returns).
  2:{ rewrite Forall_forall in Hz. exact Hz. }
  cbn [fold_left]. rewrite (SpecialValues.zero_div_length _ Hpos Hlen). reflexivity.
Qed.

Lemma sortino_without_loss_witness :
  m_sortinoRatio (calculateMetrics [0.01; 0; 0.02]) = 0.
Proof.
  apply (sortino_without_loss [0.01; 0; 0.02]).
  - discriminate.
  - simpl. lia.
  - repeat constructor.
Defined.

(** The running maximum of the drawdown does not come back from NaN or
    [Infinity]. *)
Lemma fold_drawdown_unbounded returns st :
  dd_max st = nan \/ dd_max st = infinity ->
  dd_max (fold_left drawdownStep returns st) = nan
  \/ dd_max (fold_left drawdownStep returns st) = infinity.
Proof.
  revert st. induction returns as [|r returns IH]; intros st H; [exact H|].
  cbn [fold_left]. apply IH. unfold drawdownStep. cbn [dd_max].
  destruct H as [-> | ->]; [left; apply SpecialValues.Math_max_nan|].
  apply SpecialValues.Math_max_infinity.
Qed.

(** X15: when the first return leaves the compounded value at zero or below
    (a loss of the whole value or more), the maximal drawdown is NaN or
    [Infinity], whatever the returns after it.  [peak] starts at 0 and is
    only raised by a value above it, so the first drawdown divides by 0, and
    [Math.max] keeps NaN and [Infinity]. *)
Theorem drawdown_after_total_loss (r : number) (returns : list number) :
  (0 <? 1 * (1 + r)) = false ->
  (m_maxDrawdown (calculateMetrics (r :: returns)) = nan
   \/ m_maxDrawdown (calculateMetrics (r :: returns)) = infinity)
  /\ allFinite (calculateMetrics (r :: returns)) = false.
Proof.
  intros H.
  assert (Hdd : m_maxDrawdown (calculateMetrics (r :: returns)) = nan
                \/ m_maxDrawdown (calculateMetrics (r :: returns)) = infinity).
  { unfold calculateMetrics. cbn [m_maxDrawdown fold_left].
    apply fold_drawdown_unbounded. unfold drawdownStep.
    cbn [peak dd_max currentValue]. unfold gt. rewrite H.
    destruct (SpecialValues.rise_over_zero _ H) as [-> | ->]; [left|right]; reflexivity. }
  split; [exact Hdd|].
  unfold allFinite.
  destruct Hdd as [-> | ->]; change (finite nan) with false; change (finite infinity) with false;
    rewrite andb_false_r; reflexivity.
Qed.

Lemma drawdown_after_total_loss_witness :
  (m_maxDrawdown (calculateMetrics [-1; 0.5; 0.25]) = nan
   \/ m_maxDrawdown (calculateMetrics [-1; 0.5; 0.25]) = infinity)
  /\ allFinite (calculateMetrics [-1; 0.5; 0.25]) = false.
Proof.
  apply (drawdown_after_total_loss (-1) [0.5; 0.25]). reflexivity.
Defined.

End MetricsTheorems.

(** ** A bound with one value *)

Section DegenerateBound.

Local Open Scope float_scope.

Lemma sub_self c : is_finite c = true -> c - c = 0.
Proof.
  intros H. apply Prim2SF_inj. rewrite sub_spec.
  destruct (SpecialValues.is_finite_kind c H) as [[s E]|[s [m [e E]]]]; rewrite E.
  - destruct s; reflexivity.
  - unfold SF64sub, SFsub. rewrite Z.sub_diag. reflexivity.
Qed.

Lemma mul_zero_r r :
  (0 <=? r) = true -> (r <? 1) = true -> r * 0 = 0 \/ r * 0 = -0.
Proof.
  intros H0 H1.
  destruct (Rounding.unit_number_spec r H0 H1) as [[s E]|[m [e [E _]]]].
  - destruct s; [right|left]; apply Prim2SF_inj; rewrite mul_spec, E; reflexivity.
  - left. apply Prim2SF_inj. rewrite mul_spec, E. reflexivity.
Qed.

Lemma add_zero_eqb c z :
  is_finite c = true -> z = 0 \/ z = -0 -> (c + z =? c) = true.
Proof.
  intros H Hz. rewrite FloatAxioms.eqb_spec, add_spec.
  destruct (SpecialValues.is_finite_kind c H) as [[s E]|[s [m [e E]]]]; rewrite E.
  - destruct Hz as [-> | ->], s; reflexivity.
  - destruct Hz as [-> | ->]; cbn [Prim2SF];
      (change (Prim2SF 0) with (S754_zero false) || change (Prim2SF (-0)) with (S754_zero true));
      cbn [SF64add SFadd]; unfold SFeqb;
      rewrite NumberOrder.SFcompare_refl by discriminate; reflexivity.
Qed.

(** X16: a bound whose two ends are the same finite value [c] pins its
    field: every redraw [c + r * (c - c)] for a draw [r] from 0 (included) to
    1 (excluded) is [c]. *)
Theorem degenerate_bound_pins c r :
  is_finite c = true ->
  (0 <=? r) = true -> (r <? 1) = true ->
  strict_eq (redraw (c, c) r) c = true.
Proof.
  intros Hc H0 H1. unfold redraw, strict_eq. cbn [fst snd].
  rewrite (sub_self c Hc). apply add_zero_eqb; [exact Hc|].
  apply mul_zero_r; assumption.
Qed.

Lemma degenerate_bound_pins_witness :
  strict_eq (redraw (2.5, 2.5) 0.75) 2.5 = true.
Proof.
  apply (degenerate_bound_pins 2.5 0.75); reflexivity.
Defined.

End DegenerateBound.

(** * The run as a whole *)

(** ** What the operators do to the world *)

Section Worlds.

Local Open Scope float_scope.

Variable random : nat -> number.
Variable config : OptimizationConfig.

(** [mutate] makes four draws, and one more for every field it redraws. *)
Lemma mutate_world strategy w :
  exists mutated k,
    mutate random config strategy w = (Ok mutated, advance w k) /\ (4 <= k <= 8)%nat.
Proof.
  unfold mutate, bind. rewrite mutateField_run.
  destruct (random (draws w) <? mutationRate config);
    rewrite mutateField_run;
    match goal with |- context [random (draws ?w1) <? _] =>
      destruct (random (draws w1) <? mutationRate config) end;
    rewrite mutateField_run;
    match goal with |- context [random (draws ?w1) <? _] =>
      destruct (random (draws w1) <? mutationRate config) end;
    rewrite mutateField_run;
    match goal with |- context [random (draws ?w1) <? _] =>
      destruct (random (draws w1) <? mutationRate config) end;
    unfold ret; rewrite !advance_advance; eexists; eexists;
    (split; [reflexivity|simpl; lia]).
Qed.

(** A parent is the parameters of one of the selected results. *)
Lemma pickParent_inv selected w parent w' :
  pickParent random selected w = (Ok parent, w') ->
  w' = advance w 1 /\ exists result, In result selected /\ parent = parameters result.
Proof.
  unfold pickParent. rewrite (bind_run _ _ _ _ _ (Math_random_run random w)).
  destruct (index selected _) as [result|] eqn:E; [|discriminate].
  unfold ret. intros H. injection H as H1 H2. split; [auto|].
  exists result. split; [|auto].
  unfold index in E. destruct (Math_floor _) as [z|]; [|discriminate].
  destruct (z <? 0)%Z; [discriminate|]. eapply nth_error_In. exact E.
Qed.

(** [breed] makes between 13 and 17 draws for every child: two to pick the
    parents, seven in [crossover], four to eight in [mutate]. *)
Lemma breed_world n selected newPopulation w population' w' :
  breed random config n selected newPopulation w = (Ok population', w') ->
  exists k,
    w' = advance w k /\ (13 * n <= k <= 17 * n)%nat
    /\ List.length population' = (List.length newPopulation + n)%nat.
Proof.
  revert newPopulation w. induction n as [|n IH]; intros newPopulation w H.
  - simpl in H. unfold ret in H. injection H as H1 H2. subst.
    exists 0%nat. rewrite advance_0. repeat split; lia.
  - cbn [breed] in H.
    apply bind_inv in H. destruct H as [p1 [w1 [H1 H]]].
    apply bind_inv in H. destruct H as [p2 [w2 [H2 H]]].
    apply bind_inv in H. destruct H as [c [w3 [H3 H]]].
    apply bind_inv in H. destruct H as [m [w4 [H4 H]]].
    apply pickParent_inv in H1. destruct H1 as [-> _].
    apply pickParent_inv in H2. destruct H2 as [-> _].
    rewrite crossover_run in H3. injection H3 as _ <-.
    destruct (mutate_world c (advance (advance (advance w 1) 1) 7)) as [m' [k [Hm Hk]]].
    rewrite Hm in H4. injection H4 as _ <-.
    apply IH in H. destruct H as [k' [-> [Hk' Hlen]]].
    rewrite !advance_advance. eexists. split; [reflexivity|].
    rewrite Hlen, length_app. simpl. lia.
Qed.

(** The body of the generation loop, taken apart. *)
Lemma generationStep_unfold historicalData generation population bestResult w
    population' best' w' :
  generationStep random config historicalData generation population bestResult w
  = (Ok (population', best'), w') ->
  exists results currentBest wb,
    collect (map (fun strategy => evaluateStrategy strategy historicalData) population)
    = Ok results
    /\ map parameters results = population
    /\ reduce1 (better config) results = Ok currentBest
    /\ best' = updateBest config bestResult currentBest
    /\ breed random config (Z.to_nat (populationSize config))
         (select config results (List.length population)) []
         {| draws := draws w;
            evaluations := evaluations w + List.length population;
            console := console w |}
       = (Ok population', wb)
    /\ w' = {| draws := draws wb;
               evaluations := evaluations wb;
               console :=
                 console wb ++
                   [ {| log_generation := generation + 1;
                        log_objective := objective config;
                        log_value := score (objective config) best' |} ] |}.
Proof.
  unfold generationStep. intros H.
  destruct (evaluateAll_run population historicalData w) as [results [He Hp]].
  rewrite (bind_run _ _ _ _ _ He) in H.
  apply bind_inv in H. destruct H as [currentBest [w2 [Hr H]]].
  unfold lift in Hr. injection Hr as Hr <-. cbv zeta in H.
  apply bind_inv in H. destruct H as [newPopulation [wb [Hb H]]].
  apply bind_inv in H. destruct H as [u [w4 [Hl H]]].
  unfold console_log in Hl. injection Hl as <-.
  unfold ret in H. injection H as <- <- <-.
  exists results, currentBest, wb. repeat split; try assumption; try (symmetry; assumption).
  unfold evaluateAll in He. injection He as He. exact He.
Qed.

End Worlds.

(** ** The initial population in closed form *)

Section InitialPopulation.

Local Open Scope float_scope.

Variable random : nat -> number.
Variable config : OptimizationConfig.

(** The candidate that [generateInitialPopulation] pushes at counter [i],
    when [d] draws were made before: its four numbers are drawn in the order
    of the object literal. *)
Definition initialCandidate (i d : nat) : StrategyConfig :=
  {| name := strategyName i;
     description := "Optimized strategy";
     riskLevel := risk_medium;
     maxPositionSize := redraw (c_maxPositionSize (constraints config)) (random d);
     stopLossPercentage :=
       redraw (c_stopLossPercentage (constraints config)) (random (1 + d));
     takeProfitPercentage :=
       redraw (c_takeProfitPercentage (constraints config)) (random (2 + d));
     maxDrawdown := redraw (c_maxDrawdown (constraints config)) (random (3 + d));
     rebalanceFrequency := daily;
     indicators := ["sma"; "ema"; "rsi"; "macd"]%string |}.

Lemma generateFrom_spec n i population w :
  generateFrom random config n i population w =
    (Ok (population
         ++ map (fun j => initialCandidate (i + j) (draws w + 4 * j)) (seq 0 n)),
     advance w (4 * n)).
Proof.
  revert i population w. induction n as [|n IH]; intros i population w.
  - simpl. unfold ret. rewrite app_nil_r, advance_0. reflexivity.
  - cbn [generateFrom].
    repeat (erewrite bind_run; [|apply randomInRange_run]).
    rewrite IH, !advance_advance. f_equal; [|f_equal; lia].
    f_equal. rewrite <- app_assoc. f_equal.
    change (seq 0 (S n)) with (0%nat :: seq 1 n). rewrite <- seq_shift.
    cbn [map app]. rewrite map_map. f_equal.
    + replace (draws w + 4 * 0)%nat with (draws w) by lia.
      replace (i + 0)%nat with i by lia. reflexivity.
    + apply map_ext. intros j. cbn [draws advance]. f_equal; lia.
Qed.

Lemma strategyName_inj i j : strategyName i = strategyName j -> i = j.
Proof.
  unfold strategyName. intros H. injection H as H.
  apply DecimalNat.Unsigned.to_uint_inj.
  pose proof (NilEmpty.usu (Nat.to_uint i)) as Hi.
  pose proof (NilEmpty.usu (Nat.to_uint j)) as Hj.
  rewrite H in Hi. congruence.
Qed.

End InitialPopulation.

(** ** Where the results of a generation come from *)

Lemma firstn_incl {A : Type} n (l : list A) x : In x (firstn n l) -> In x l.
Proof.
  intros H. rewrite <- (firstn_skipn n l). apply in_or_app. left. exact H.
Qed.

Lemma select_In config results n r : In r (select config results n) -> In r results.
Proof.
  unfold select. intros H. apply firstn_incl in H.
  eapply Permutation_in; [apply sort_Permutation|exact H].
Qed.

Lemma fold_better_In config rest x :
  In (fold_left (better config) rest x) (x :: rest).
Proof.
  revert x. induction rest as [|r rest IH]; intros x; simpl; [auto|].
  destruct (IH (better config x r)) as [H|H]; [|auto].
  rewrite <- H. unfold better. destruct (gt _ _); auto.
Qed.

Lemma reduce1_better_In config results b :
  reduce1 (better config) results = Ok b -> In b results.
Proof.
  destruct results as [|x rest]; [discriminate|]. simpl. intros H. injection H as <-.
  apply fold_better_In.
Qed.

Lemma updateBest_In config bestResult currentBest :
  updateBest config bestResult currentBest = currentBest
  \/ bestResult = Some (updateBest config bestResult currentBest).
Proof.
  unfold updateBest. destruct bestResult as [b|]; [|auto]. destruct (gt _ _); auto.
Qed.

Lemma collect_In {A : Type} (l : list (Outcome A)) results :
  collect l = Ok results -> forall r, In r results -> In (Ok r) l.
Proof.
  revert results. induction l as [|[a|e] l IH]; intros results H r Hr; simpl in H.
  - injection H as <-. destruct Hr.
  - destruct (collect l) as [l'|e]; [|discriminate]. injection H as <-.
    destruct Hr as [->|Hr]; [left; reflexivity|right; eapply IH; eauto].
  - discriminate.
Qed.

(** Every result of a generation is the evaluation of a candidate. *)
Lemma collect_evaluated population historicalData results :
  collect (map (fun strategy => evaluateStrategy strategy historicalData) population)
  = Ok results ->
  forall r, In r results ->
    exists strategy, In strategy population /\ evaluateStrategy strategy historicalData = Ok r.
Proof.
  intros H r Hr. apply (collect_In _ _ H) in Hr. apply in_map_iff in Hr.
  destruct Hr as [s [Hs Hin]]. eauto.
Qed.

(** ** What every candidate of a run has in common *)

Section CandidateInvariant.

Variable random : nat -> number.
Variable config : OptimizationConfig.

(** A property of candidates that the initial candidates have, that
    [crossover] hands from the parents to the child and that [mutate]
    keeps. *)
Variable Q : StrategyConfig -> Prop.

Hypothesis Q_initial : forall i d, Q (initialCandidate random config i d).
Hypothesis Q_crossover :
  forall parent1 parent2 w child w',
    crossover random parent1 parent2 w = (Ok child, w') ->
    Q parent1 -> Q parent2 -> Q child.
Hypothesis Q_mutate :
  forall strategy w mutated w',
    mutate random config strategy w = (Ok mutated, w') -> Q strategy -> Q mutated.

Lemma breed_keeps n selected newPopulation w population' w' :
  (forall result, In result selected -> Q (parameters result)) ->
  Forall Q newPopulation ->
  breed random config n selected newPopulation w = (Ok population', w') ->
  Forall Q population'.
Proof.
  intros Hsel. revert newPopulation w.
  induction n as [|n IH]; intros newPopulation w Hnew H.
  - simpl in H. unfold ret in H. injection H as <- _. exact Hnew.
  - cbn [breed] in H.
    apply bind_inv in H. destruct H as [p1 [w1 [H1 H]]].
    apply bind_inv in H. destruct H as [p2 [w2 [H2 H]]].
    apply bind_inv in H. destruct H as [c [w3 [H3 H]]].
    apply bind_inv in H. destruct H as [m [w4 [H4 H]]].
    apply pickParent_inv in H1. destruct H1 as [_ [r1 [Hr1 ->]]].
    apply pickParent_inv in H2. destruct H2 as [_ [r2 [Hr2 ->]]].
    eapply IH; [|exact H].
    apply Forall_app. split; [exact Hnew|]. constructor; [|constructor].
    eapply Q_mutate; [exact H4|].
    eapply Q_crossover; [exact H3| |]; apply Hsel; assumption.
Qed.

Lemma generationStep_keeps historicalData generation population bestResult w
    population' best' w' :
  Forall Q population ->
  (forall b, bestResult = Some b -> Q (parameters b)) ->
  generationStep random config historicalData generation population bestResult w
  = (Ok (population', best'), w') ->
  Forall Q population' /\ Q (parameters best').
Proof.
  intros Hpop Hbest H. apply generationStep_unfold in H.
  destruct H as [results [currentBest [wb [Hc [Hp [Hr [-> [Hb _]]]]]]]].
  assert (Hres : forall r, In r results -> Q (parameters r)).
  { intros r Hin. rewrite Forall_forall in Hpop. apply Hpop. rewrite <- Hp.
    apply in_map. exact Hin. }
  split.
  - eapply breed_keeps; [|constructor|exact Hb].
    intros r Hin. apply Hres. eapply select_In. exact Hin.
  - destruct (updateBest_In config bestResult currentBest) as [->|E].
    + apply Hres. eapply reduce1_better_In. exact Hr.
    + apply Hbest. exact E.
Qed.

Lemma generationsFrom_keeps historicalData n generation population bestResult w best' w' :
  Forall Q population ->
  (forall b, bestResult = Some b -> Q (parameters b)) ->
  generationsFrom random config historicalData n generation population bestResult w
  = (Ok best', w') ->
  forall b, best' = Some b -> Q (parameters b).
Proof.
  revert generation population bestResult w.
  induction n as [|n IH]; intros generation population bestResult w Hpop Hbest H.
  - simpl in H. unfold ret in H. injection H as <- _. exact Hbest.
  - cbn [generationsFrom] in H. apply bind_inv in H.
    destruct H as [[p1 b1] [w1 [Hs H]]]. cbn [fst snd] in H.
    apply generationStep_keeps in Hs; [|assumption|assumption].
    destruct Hs as [Hp1 Hb1].
    eapply IH; [exact Hp1| |exact H]. intros b E. injection E as <-. exact Hb1.
Qed.

Lemma run_keeps historicalData result w' :
  run random config historicalData = (Ok result, w') -> Q (parameters result).
Proof.
  unfold run, optimize, generateInitialPopulation. intros H.
  rewrite (bind_run _ _ _ _ _ (generateFrom_spec random config _ 0 [] initialWorld)) in H.
  apply bind_inv in H. destruct H as [best [w1 [Hg H]]].
  destruct best as [b|]; [|discriminate]. unfold ret in H. injection H as <- _.
  eapply generationsFrom_keeps; [| |exact Hg|reflexivity].
  - apply Forall_forall. intros s Hs. cbn [app] in Hs. apply in_map_iff in Hs.
    destruct Hs as [j [<- _]]. apply Q_initial.
  - discriminate.
Qed.

End CandidateInvariant.

Section CandidateTheorems.

Local Open Scope float_scope.

(** The fields that [generateInitialPopulation] writes as constants. *)
Definition fixedFields (s : StrategyConfig) : Prop :=
  description s = "Optimized strategy"%string
  /\ riskLevel s = risk_medium
  /\ rebalanceFrequency s = daily
  /\ indicators s = ["sma"; "ema"; "rsi"; "macd"]%string.

(** X1: [optimize] never varies the risk level, the rebalance frequency, the
    indicators or the description.  Every initial candidate is ['medium'],
    ['daily'] and has the four indicators; [crossover] takes the risk level
    and the frequency from a parent and the indicators from both, and
    [mutate] redraws numbers only: the strategy that a run returns has the
    constants of the initial population. *)
Theorem optimize_never_varies_categories random config historicalData result w' :
  run random config historicalData = (Ok result, w') ->
  fixedFields (parameters result).
Proof.
  apply (run_keeps random config fixedFields).
  - intros i d. repeat split.
  - intros parent1 parent2 w child w0 H [D1 [R1 [F1 I1]]] [D2 [R2 [F2 I2]]].
    rewrite crossover_run in H. injection H as <- _.
    unfold fixedFields. cbn [description riskLevel rebalanceFrequency indicators].
    rewrite R1, R2, F1, F2, I1, I2.
    repeat split; try (destruct (_ <? _); reflexivity); try reflexivity.
  - intros strategy w mutated w0 H [D [R [F I]]].
    destruct (mutate_fields random config strategy w)
      as [m [w1 [Hm [_ [Hd [Hr [Hf [Hi _]]]]]]]].
    rewrite Hm in H. injection H as <- _.
    unfold fixedFields. repeat split; congruence.
Qed.

Lemma optimize_never_varies_categories_witness :
  exists result w',
    run alternating exampleConfig scenarioBars = (Ok result, w')
    /\ fixedFields (parameters result).
Proof.
  eexists. eexists. split; [vm_compute; reflexivity|].
  eapply (optimize_never_varies_categories alternating exampleConfig scenarioBars).
  vm_compute. reflexivity.
Defined.




End CandidateTheorems.

(** ** What a run costs and what it prints *)

Section Accounting.

Local Open Scope float_scope.

(** The best values printed by successive generations: each is the value
    before it, or a value strictly above it. *)
Fixpoint rising (previous : option number) (values : list number) : Prop :=
  match values with
  | [] => True
  | v :: rest =>
      match previous with
      | None => True
      | Some p => v = p \/ (p <? v) = true
      end
      /\ rising (Some v) rest
  end.

Variable random : nat -> number.
Variable config : OptimizationConfig.

Lemma generationsFrom_account historicalData n generation population bestResult w
    best' w' :
  List.length population = Z.to_nat (populationSize config) ->
  generationsFrom random config historicalData n generation population bestResult w
  = (Ok best', w') ->
  exists k lines,
    draws w' = (k + draws w)%nat
    /\ (13 * (n * Z.to_nat (populationSize config)) <= k
        <= 17 * (n * Z.to_nat (populationSize config)))%nat
    /\ evaluations w' = (evaluations w + n * Z.to_nat (populationSize config))%nat
    /\ console w' = console w ++ lines
    /\ map log_generation lines = seq (generation + 1) n
    /\ Forall (fun l => log_objective l = objective config) lines
    /\ rising (option_map (score (objective config)) bestResult) (map log_value lines)
    /\ ((lines = [] /\ best' = bestResult)
        \/ exists front l b,
             lines = front ++ [l] /\ best' = Some b
             /\ log_value l = score (objective config) b).
Proof.
  revert generation population bestResult w.
  induction n as [|n IH]; intros generation population bestResult w Hlen H.
  - simpl in H. unfold ret in H. injection H as <- <-.
    exists 0%nat, []. rewrite app_nil_r.
    split; [simpl; lia|]. split; [simpl; lia|]. split; [simpl; lia|].
    split; [reflexivity|]. split; [reflexivity|]. split; [constructor|].
    split; [exact I|]. left. split; reflexivity.
  - cbn [generationsFrom] in H. apply bind_inv in H.
    destruct H as [[p1 b1] [w1 [Hs H]]]. cbn [fst snd] in H.
    apply generationStep_unfold in Hs.
    destruct Hs as [results [currentBest [wb [Hc [Hp [Hr [Hb1 [Hb Hw1]]]]]]]].
    apply breed_world in Hb. destruct Hb as [k1 [Hwb [Hk1 Hl1]]].
    simpl in Hl1.
    apply IH in H; [|exact Hl1].
    destruct H as [k [lines [Hd [Hk [He [Hcon [Hgen [Hobj [Hrise Hlast]]]]]]]]].
    subst w1 wb. cbn [draws evaluations console advance] in *.
    exists (k + k1)%nat. eexists (_ :: lines).
    split; [lia|]. split; [lia|]. split; [lia|].
    split; [rewrite Hcon, <- app_assoc; reflexivity|].
    split; [cbn [map seq log_generation]; rewrite Hgen; f_equal; f_equal; lia|].
    split; [constructor; [reflexivity|exact Hobj]|].
    split.
    + cbn [map rising log_value]. split; [|exact Hrise].
      destruct bestResult as [b0|]; [|exact I]. cbn [option_map].
      subst b1. destruct (updateBest_cases config b0 currentBest) as [->|[-> Hlt]]; auto.
    + right. destruct Hlast as [[-> ->]|[front [l [b [-> [-> Hl]]]]]].
      * eexists [], _, b1. repeat split.
      * eexists (_ :: front), l, b. repeat split. exact Hl.
Qed.

End Accounting.

Section AccountingTheorems.

Local Open Scope float_scope.

(** X3: a run of [optimize] that returns has evaluated
    [generations * populationSize] candidates, the whole population once in
    every generation, and has called [Math.random()] four times for every
    initial candidate and 13 to 17 times for every child: twice to pick the
    parents, seven times in [crossover], four to eight times in [mutate]. *)
Theorem run_cost random config historicalData result w' :
  run random config historicalData = (Ok result, w') ->
  evaluations w'
  = (Z.to_nat (generations config) * Z.to_nat (populationSize config))%nat
  /\ (4 * Z.to_nat (populationSize config)
      + 13 * (Z.to_nat (generations config) * Z.to_nat (populationSize config))
      <= draws w'
      <= 4 * Z.to_nat (populationSize config)
         + 17 * (Z.to_nat (generations config) * Z.to_nat (populationSize config)))%nat.
Proof.
  unfold run, optimize. intros H.
  destruct (generateInitialPopulation_run random config initialWorld)
    as [population [Hg Hlen]].
  rewrite (bind_run _ _ _ _ _ Hg) in H.
  apply bind_inv in H. destruct H as [best [w1 [Hr H]]].
  destruct best as [b|]; [|discriminate]. unfold ret in H. injection H as _ <-.
  apply generationsFrom_account in Hr; [|exact Hlen].
  destruct Hr as [k [lines [Hd [Hk [He _]]]]].
  cbn [draws evaluations advance initialWorld] in *. lia.
Qed.

Lemma run_cost_witness :
  exists result w',
    run alternating exampleConfig scenarioBars = (Ok result, w')
    /\ evaluations w' = 8%nat /\ (120 <= draws w' <= 152)%nat.
Proof.
  eexists. eexists. split; [vm_compute; reflexivity|].
  eapply (run_cost alternating exampleConfig scenarioBars). vm_compute. reflexivity.
Defined.

(** X4: a run of [optimize] that returns has printed one line for every
    generation, numbered from 1, each for the configured objective.  The
    value of a line is the value of the line before it or a value strictly
    above it, and the value of the last line is the objective value of the
    result that is returned. *)
Theorem run_log random config historicalData result w' :
  run random config historicalData = (Ok result, w') ->
  map log_generation (console w') = seq 1 (Z.to_nat (generations config))
  /\ Forall (fun l => log_objective l = objective config) (console w')
  /\ rising None (map log_value (console w'))
  /\ exists front l,
       console w' = front ++ [l]
       /\ log_value l = score (objective config) result.
Proof.
  unfold run, optimize. intros H.
  destruct (generateInitialPopulation_run random config initialWorld)
    as [population [Hg Hlen]].
  rewrite (bind_run _ _ _ _ _ Hg) in H.
  apply bind_inv in H. destruct H as [best [w1 [Hr H]]].
  destruct best as [b|]; [|discriminate]. unfold ret in H. injection H as <- <-.
  apply generationsFrom_account in Hr; [|exact Hlen].
  destruct Hr as [k [lines [_ [_ [_ [Hc [Hgen [Hobj [Hrise Hlast]]]]]]]]].
  cbn [console advance initialWorld app] in Hc. rewrite Hc.
  split; [exact Hgen|]. split; [exact Hobj|]. split; [exact Hrise|].
  destruct Hlast as [[_ E]|[front [l [b' [-> [E Hl]]]]]]; [discriminate|].
  injection E as <-. eauto.
Qed.

Lemma run_log_witness :
  exists result w',
    run alternating exampleConfig scenarioBars = (Ok result, w')
    /\ map log_generation (console w') = [1; 2]%nat
    /\ Forall (fun l => log_objective l = sharpeRatio) (console w')
    /\ rising None (map log_value (console w'))
    /\ exists front l,
         console w' = front ++ [l]
         /\ log_value l = score sharpeRatio result.
Proof.
  eexists. eexists. split; [vm_compute; reflexivity|].
  eapply (run_log alternating exampleConfig scenarioBars). vm_compute. reflexivity.
Defined.

End AccountingTheorems.

(** ** Populations that are too small *)

Section SmallPopulations.

Local Open Scope float_scope.

Lemma index_nil {A : Type} x : index (@nil A) x = None.
Proof.
  destruct x as [z|]; [|reflexivity]. unfold index.
  destruct (z <? 0)%Z; [reflexivity|]. destruct (Z.to_nat z); reflexivity.
Qed.

(** Nothing can be picked from an empty selection. *)
Lemma pickParent_nil random w :
  pickParent random [] w
  = (Throw (TypeError "Cannot read properties of undefined"), advance w 1).
Proof.
  unfold pickParent. rewrite (bind_run _ _ _ _ _ (Math_random_run random w)).
  rewrite index_nil. reflexivity.
Qed.

Lemma run_empty_population random config historicalData :
  (populationSize config <= 0)%Z -> (1 <= generations config)%Z ->
  run random config historicalData
  = (Throw (TypeError "Reduce of empty array with no initial value"), initialWorld).
Proof.
  intros Hp Hg. unfold run, optimize, generateInitialPopulation.
  replace (Z.to_nat (populationSize config)) with 0%nat by lia.
  destruct (Z.to_nat (generations config)) as [|n] eqn:En; [lia|].
  reflexivity.
Qed.

Lemma run_single_candidate random config historicalData :
  populationSize config = 1%Z -> (1 <= generations config)%Z ->
  run random config historicalData
  = (Throw (TypeError "Cannot read properties of undefined"),
     {| draws := 5; evaluations := 1; console := [] |}).
Proof.
  intros Hp Hg. unfold run, optimize, generateInitialPopulation.
  rewrite Hp. change (Z.to_nat 1) with 1%nat.
  rewrite (bind_run _ _ _ _ _ (generateFrom_spec random config 1 0 [] initialWorld)).
  destruct (Z.to_nat (generations config)) as [|n] eqn:En; [lia|].
  cbn [generationsFrom seq map app]. unfold generationStep, evaluateAll.
  cbn [map collect].
  destruct (evaluateStrategy_returns
              (initialCandidate random config (0 + 0) (draws initialWorld + 4 * 0))
              historicalData) as [r [Hr _]].
  unfold bind at 1. unfold bind at 1. unfold bind at 1. rewrite Hr.
  cbn [collect reduce1 fold_left lift List.length].
  rewrite Hp. change (Z.to_nat 1) with 1%nat.
  unfold select. change (1 / 2)%nat with 0%nat. cbn [firstn breed].
  rewrite lift_Ok_bind. unfold bind. rewrite pickParent_nil. reflexivity.
Qed.

(** X5: with at least one generation, a population size below one ends a run
    in the type error of [reduce] on an empty array, before any draw; a
    population size of one ends it in the type error of reading a property of
    [undefined], after the only candidate was evaluated: the selected half of
    one result is empty.  Nothing is printed in either case. *)
Theorem small_population_raises :
  (forall random config historicalData,
      (populationSize config <= 0)%Z -> (1 <= generations config)%Z ->
      run random config historicalData
      = (Throw (TypeError "Reduce of empty array with no initial value"), initialWorld))
  /\ (forall random config historicalData,
      populationSize config = 1%Z -> (1 <= generations config)%Z ->
      run random config historicalData
      = (Throw (TypeError "Cannot read properties of undefined"),
         {| draws := 5; evaluations := 1; console := [] |})).
Proof.
  split; [apply run_empty_population|apply run_single_candidate].
Qed.

Lemma small_population_raises_witness :
  run alternating emptyConfig scenarioBars
  = (Throw (TypeError "Reduce of empty array with no initial value"), initialWorld)
  /\ run alternating lonelyConfig scenarioBars
     = (Throw (TypeError "Cannot read properties of undefined"),
        {| draws := 5; evaluations := 1; console := [] |}).
Proof.
  split.
  - apply (proj1 small_population_raises alternating emptyConfig scenarioBars);
      simpl; lia.
  - apply (proj2 small_population_raises alternating lonelyConfig scenarioBars);
      simpl; lia.
Defined.

(** X6: [optimize] returns a result only for a configuration with at least
    one generation and at least two candidates. *)
Theorem run_returns_only_if random config historicalData result w' :
  run random config historicalData = (Ok result, w') ->
  (1 <= generations config)%Z /\ (2 <= populationSize config)%Z.
Proof.
  intros H.
  assert (Hg : (1 <= generations config)%Z).
  { destruct (Z_le_gt_dec (generations config) 0) as [Hle|Hgt]; [|lia].
    pose proof (run_no_generation random config historicalData Hle) as E.
    rewrite H in E. discriminate. }
  split; [exact Hg|].
  destruct (Z_le_gt_dec (populationSize config) 0) as [H0|H0].
  { rewrite run_empty_population in H by assumption. discriminate. }
  destruct (Z.eq_dec (populationSize config) 1) as [H1|H1]; [|lia].
  rewrite run_single_candidate in H by assumption. discriminate.
Qed.

Lemma run_returns_only_if_witness :
  exists result w',
    run alternating exampleConfig scenarioBars = (Ok result, w')
    /\ (1 <= generations exampleConfig)%Z /\ (2 <= populationSize exampleConfig)%Z.
Proof.
  eexists. eexists. split; [vm_compute; reflexivity|].
  eapply (run_returns_only_if alternating exampleConfig scenarioBars).
  vm_compute. reflexivity.
Defined.

End SmallPopulations.

(** ** The best result of a generation *)

Section GenerationBest.

Local Open Scope float_scope.

Variable config : OptimizationConfig.

Definition scoresBelow (o : Objective) (a b : OptimizationResult) : Prop :=
  (score o b <? score o a) = true.

(** [reduce] keeps the first of the results that no other result beats:
    [front], [best] and [back] are the results seen so far. *)
Lemma fold_better_first rest front best back :
  (forall r, In r (front ++ best :: back ++ rest) ->
             is_nan (score (objective config) r) = false) ->
  Forall (scoresBelow (objective config) best) front ->
  Forall (scoresAtLeast (objective config) best) back ->
  exists front' back',
    front ++ best :: back ++ rest
    = front' ++ fold_left (better config) rest best :: back'
    /\ Forall (scoresBelow (objective config) (fold_left (better config) rest best)) front'
    /\ Forall (scoresAtLeast (objective config) (fold_left (better config) rest best)) back'.
Proof.
  revert front best back. induction rest as [|r rest IH]; intros front best back Hnan Hf Hb.
  - exists front, back. rewrite app_nil_r. auto.
  - cbn [fold_left].
    assert (Hbetter : better config best r
                      = if score (objective config) best <? score (objective config) r
                        then r else best) by reflexivity.
    rewrite Hbetter. clear Hbetter.
    assert (Hr : is_nan (score (objective config) r) = false).
    { apply Hnan. apply in_or_app. right. right. apply in_or_app. right. left. reflexivity. }
    assert (Hbest : is_nan (score (objective config) best) = false).
    { apply Hnan. apply in_or_app. right. left. reflexivity. }
    destruct (score (objective config) best <? score (objective config) r) eqn:E.
    + destruct (IH (front ++ best :: back) r []) as [front' [back' [H1 [H2 H3]]]].
      * intros x Hx. apply Hnan. rewrite <- app_assoc in Hx. exact Hx.
      * apply Forall_app. split; [|constructor].
        -- rewrite Forall_forall in *. intros x Hx. unfold scoresBelow.
           eapply NumberOrder.ltb_trans; [apply Hf; exact Hx|exact E].
        -- exact E.
        -- rewrite Forall_forall in *. intros x Hx. unfold scoresBelow.
           eapply NumberOrder.leb_ltb_trans; [apply Hb; exact Hx|exact E].
      * constructor.
      * exists front', back'. split; [|split; assumption].
        rewrite <- H1, <- !app_assoc. reflexivity.
    + destruct (IH front best (back ++ [r])) as [front' [back' [H1 [H2 H3]]]].
      * intros x Hx. apply Hnan. rewrite <- app_assoc in Hx. exact Hx.
      * exact Hf.
      * apply Forall_app. split; [exact Hb|]. constructor; [|constructor].
        unfold scoresAtLeast. apply NumberOrder.not_ltb_leb; assumption.
      * exists front', back'. split; [|split; assumption].
        rewrite <- H1, <- !app_assoc. reflexivity.
Qed.

(** X7: the best result of a generation is the first of the results with
    the highest objective value: among results whose objective values are
    numbers (none is NaN), [reduce] returns a result that every result before
    it scores strictly below, and that no result after it scores above. *)
Theorem generation_best_is_first_maximum results :
  results <> [] ->
  comparableScores config results = true ->
  exists front best back,
    reduce1 (better config) results = Ok best
    /\ results = front ++ best :: back
    /\ Forall (scoresBelow (objective config) best) front
    /\ Forall (scoresAtLeast (objective config) best) back.
Proof.
  intros Hne Hok. destruct results as [|x rest]; [congruence|].
  destruct (comparableScores_spec config _ Hok) as [Hnan _].
  destruct (fold_better_first rest [] x []) as [front [back [H1 [H2 H3]]]].
  - intros r Hr. apply Hnan. exact Hr.
  - constructor.
  - constructor.
  - exists front, (fold_left (better config) rest x), back.
    split; [reflexivity|]. split; [exact H1|]. split; assumption.
Qed.

End GenerationBest.

Lemma generation_best_is_first_maximum_witness :
  exists front best back,
    reduce1 (better exampleConfig) fiveResults = Ok best
    /\ fiveResults = front ++ best :: back
    /\ Forall (scoresBelow (objective exampleConfig) best) front
    /\ Forall (scoresAtLeast (objective exampleConfig) best) back.
Proof.
  apply (generation_best_is_first_maximum exampleConfig fiveResults).
  - discriminate.
  - vm_compute. reflexivity.
Defined.

Section GenerationDominance.

Local Open Scope float_scope.

Lemma collect_map_In {A B : Type} (f : A -> Outcome B) l results a b :
  collect (map f l) = Ok results -> In a l -> f a = Ok b -> In b results.
Proof.
  revert results. induction l as [|x l IH]; intros results H Ha Hb; [destruct Ha|].
  cbn [map collect] in H. destruct (f x) as [y|e] eqn:Ex; [|discriminate].
  destruct (collect (map f l)) as [l'|e]; [|discriminate]. injection H as <-.
  destruct Ha as [->|Ha].
  - left. congruence.
  - right. eapply IH; eauto.
Qed.

Lemma leb_refl a : is_nan a = false -> (a <=? a) = true.
Proof.
  intros H. apply NumberOrder.not_ltb_leb; [exact H|exact H|].
  apply NumberOrder.ltb_irrefl.
Qed.

(** X8: after a generation the best result scores at least as much as every
    candidate of that generation and as the best result before it, when
    these objective values are numbers (none is NaN). *)
Theorem generation_best_dominates random config historicalData generation population
    bestResult w population' best' w' :
  generationStep random config historicalData generation population bestResult w
  = (Ok (population', best'), w') ->
  (forall strategy r,
      In strategy population -> evaluateStrategy strategy historicalData = Ok r ->
      is_nan (score (objective config) r) = false) ->
  (forall b, bestResult = Some b -> is_nan (score (objective config) b) = false) ->
  (forall strategy r,
      In strategy population -> evaluateStrategy strategy historicalData = Ok r ->
      (score (objective config) r <=? score (objective config) best') = true)
  /\ (forall b, bestResult = Some b ->
        (score (objective config) b <=? score (objective config) best') = true).
Proof.
  intros H Hnan Hinc. apply generationStep_unfold in H.
  destruct H as [results [currentBest [wb [Hc [Hp [Hr [-> _]]]]]]].
  assert (Hres : forall r, In r results -> is_nan (score (objective config) r) = false).
  { intros r Hin. destruct (collect_evaluated _ _ _ Hc r Hin) as [s [Hs He]]. eauto. }
  assert (Hok : comparableScores config results = true).
  { unfold comparableScores. apply forallb_forall. intros r Hin.
    rewrite (Hres r Hin). reflexivity. }
  assert (Hfirst : exists front back,
            results = front ++ currentBest :: back
            /\ Forall (scoresBelow (objective config) currentBest) front
            /\ Forall (scoresAtLeast (objective config) currentBest) back).
  { destruct results as [|x rest]; [discriminate Hr|].
    destruct (comparableScores_spec config _ Hok) as [Hnum _].
    destruct (fold_better_first config rest [] x [])
      as [front [back [Hsplit [Hfront Hback]]]];
      [exact Hnum|constructor|constructor|].
    change (Ok (fold_left (better config) rest x) = Ok currentBest) in Hr.
    injection Hr as Hr. rewrite Hr in Hsplit, Hfront, Hback.
    exists front, back. auto. }
  destruct Hfirst as [front [back [Hsplit [Hfront Hback]]]].
  assert (Hcb : is_nan (score (objective config) currentBest) = false).
  { apply Hres. rewrite Hsplit. apply in_or_app. right. left. reflexivity. }
  assert (Hmax : forall r, In r results ->
            (score (objective config) r <=? score (objective config) currentBest) = true).
  { intros r Hin. rewrite Hsplit in Hin. apply in_app_or in Hin.
    rewrite Forall_forall in Hfront, Hback.
    destruct Hin as [Hin|[<-|Hin]].
    - apply NumberOrder.ltb_leb. apply Hfront. exact Hin.
    - apply leb_refl. exact Hcb.
    - apply Hback. exact Hin. }
  destruct bestResult as [incumbent|].
  - specialize (Hinc incumbent eq_refl).
    destruct (updateBest_cases config incumbent currentBest) as [E|[E Hlt]]; rewrite E.
    + assert (Hle : (score (objective config) currentBest
                     <=? score (objective config) incumbent) = true).
      { apply NumberOrder.not_ltb_leb; [exact Hinc|exact Hcb|].
        unfold updateBest, gt in E.
        destruct (score (objective config) incumbent
                  <? score (objective config) currentBest) eqn:El; [|reflexivity].
        rewrite <- E in Hinc. rewrite <- E in El.
        rewrite NumberOrder.ltb_irrefl in El. discriminate. }
      split.
      * intros s r Hs He. eapply NumberOrder.leb_trans; [|exact Hle].
        apply Hmax. eapply collect_map_In; eauto.
      * intros b Eb. injection Eb as <-. apply leb_refl. exact Hinc.
    + split.
      * intros s r Hs He. apply Hmax. eapply collect_map_In; eauto.
      * intros b Eb. injection Eb as <-. apply NumberOrder.ltb_leb. exact Hlt.
  - cbn [updateBest]. split; [|discriminate].
    intros s r Hs He. apply Hmax. eapply collect_map_In; eauto.
Qed.

End GenerationDominance.

Lemma generation_best_dominates_witness :
  exists population' best' w',
    generationStep alternating exampleConfig scenarioBars 0
      [scenarioStrategy; otherStrategy] None initialWorld
    = (Ok (population', best'), w')
    /\ (forall strategy r,
          In strategy [scenarioStrategy; otherStrategy] ->
          evaluateStrategy strategy scenarioBars = Ok r ->
          (score (objective exampleConfig) r <=? score (objective exampleConfig) best')%float
          = true)
    /\ (forall b, None = Some b ->
          (score (objective exampleConfig) b <=? score (objective exampleConfig) best')%float
          = true).
Proof.
  eexists. eexists. eexists. split; [vm_compute; reflexivity|].
  eapply (generation_best_dominates alternating exampleConfig scenarioBars 0
            [scenarioStrategy; otherStrategy] None initialWorld).
  - vm_compute. reflexivity.
  - intros strategy r [<-|[<-|[]]] He; vm_compute in He; injection He as <-;
      vm_compute; reflexivity.
  - discriminate.
Defined.

(** ** A first candidate that nothing beats *)

Section Unbeaten.

Local Open Scope float_scope.

Variable random : nat -> number.
Variable config : OptimizationConfig.
Variable historicalData : list MarketData.

(** The result that no evaluation on these bars scores above. *)
Variable r0 : OptimizationResult.

Hypothesis unbeaten :
  forall strategy r,
    evaluateStrategy strategy historicalData = Ok r ->
    gt (score (objective config) r) (score (objective config) r0) = false.

Lemma fold_better_unbeaten rest :
  (forall r, In r rest ->
             gt (score (objective config) r) (score (objective config) r0) = false) ->
  fold_left (better config) rest r0 = r0.
Proof.
  induction rest as [|r rest IH]; intros H; [reflexivity|].
  cbn [fold_left]. unfold better at 2. rewrite (H r) by (left; reflexivity).
  apply IH. intros x Hx. apply H. right. exact Hx.
Qed.

Lemma generationsFrom_unbeaten n generation population w best' w' :
  generationsFrom random config historicalData n generation population (Some r0) w
  = (Ok best', w') ->
  best' = Some r0.
Proof.
  revert generation population w. induction n as [|n IH]; intros generation population w H.
  - simpl in H. unfold ret in H. injection H as <- _. reflexivity.
  - cbn [generationsFrom] in H. apply bind_inv in H.
    destruct H as [[p1 b1] [w1 [Hs H]]]. cbn [fst snd] in H.
    apply generationStep_unfold in Hs.
    destruct Hs as [results [currentBest [wb [Hc [_ [Hr [Hb1 _]]]]]]].
    assert (E : b1 = r0).
    { subst b1. unfold updateBest.
      destruct (collect_evaluated _ _ _ Hc currentBest (reduce1_better_In _ _ _ Hr))
        as [s [_ He]].
      rewrite (unbeaten s currentBest He). reflexivity. }
    rewrite E in H. eapply IH. exact H.
Qed.

Lemma run_unbeaten result w' :
  evaluateStrategy (initialCandidate random config 0 0) historicalData = Ok r0 ->
  run random config historicalData = (Ok result, w') ->
  result = r0.
Proof.
  intros Hfirst H. unfold run, optimize, generateInitialPopulation in H.
  rewrite (bind_run _ _ _ _ _ (generateFrom_spec random config _ 0 [] initialWorld)) in H.
  apply bind_inv in H. destruct H as [best [w1 [Hg H]]].
  destruct best as [b|]; [|discriminate]. unfold ret in H. injection H as <- _.
  destruct (Z.to_nat (generations config)) as [|n]; [discriminate|].
  cbn [generationsFrom] in Hg. apply bind_inv in Hg.
  destruct Hg as [[p1 b1] [w2 [Hs Hg]]]. cbn [fst snd] in Hg.
  apply generationStep_unfold in Hs.
  destruct Hs as [results [currentBest [wb [Hc [Hp [Hr [Hb1 _]]]]]]].
  cbn [updateBest] in Hb1. subst b1.
  assert (E : currentBest = r0).
  { destruct (Z.to_nat (populationSize config)) as [|p].
    - cbn [seq map app collect] in Hc. injection Hc as <-. discriminate.
    - cbn [seq map app collect] in Hc.
      replace (draws initialWorld + 4 * 0)%nat with 0%nat in Hc by reflexivity.
      cbn [Nat.add] in Hc. rewrite Hfirst in Hc.
      destruct (collect _) as [rest|e] eqn:Erest in Hc; [|discriminate].
      injection Hc as <-. cbn [reduce1] in Hr. injection Hr as <-.
      apply fold_better_unbeaten. intros r Hin.
      destruct (collect_evaluated _ _ _ Erest r Hin) as [s [_ He]].
      eapply unbeaten. exact He. }
  subst currentBest. apply generationsFrom_unbeaten in Hg. congruence.
Qed.

End Unbeaten.

Section FirstCandidate.

Local Open Scope float_scope.

(** A run with at least one generation, at least two candidates and draws
    from 0 (included) to 1 (excluded) returns. *)
Lemma run_returns random config historicalData :
  (2 <= populationSize config < 2 ^ 54)%Z ->
  (1 <= generations config)%Z ->
  unitInterval random ->
  exists result w', run random config historicalData = (Ok result, w').
Proof.
  intros Hsize Hgen Hunit. unfold run, optimize.
  destruct (generateInitialPopulation_run random config initialWorld)
    as [population [Hg Hlen]].
  rewrite (bind_run _ _ _ _ _ Hg).
  assert (Hvalid : forall k,
             validDraw (Z.to_nat (populationSize config) / 2) (random k) = true).
  { apply unitInterval_validDraw; [exact Hunit| |].
    - apply Nat.div_str_pos. lia.
    - rewrite Nat2Z.inj_div, Z2Nat.id by lia.
      apply Z.div_lt_upper_bound; [lia|]. change (2 * 2 ^ 53)%Z with (2 ^ 54)%Z. lia. }
  match goal with |- context [bind (generationsFrom random config ?d ?n ?g ?p ?b) _ ?w] =>
    destruct (generationsFrom_run random config d n g p b w Hlen ltac:(lia) Hvalid)
      as [best' [w' [Hr Hsome]]] end.
  rewrite (bind_run _ _ _ _ _ Hr). destruct Hsome as [b ->]; [lia|].
  unfold ret. eauto.
Qed.

Lemma ltb_nan_l a b : is_nan a = true -> (a <? b) = false.
Proof.
  intros H. apply NumberOrder.is_nan_Prim2SF in H.
  rewrite NumberOrder.ltb_cmp. unfold NumberOrder.cmp. rewrite H. reflexivity.
Qed.

(** X9: a first candidate whose objective value is NaN is the result of the
    run.  No value compares above NaN, so [reduce] keeps the first result of
    the first generation and no later generation replaces it, whatever the
    other candidates score. *)
Theorem nan_first_candidate_is_returned random config historicalData r0 :
  (2 <= populationSize config < 2 ^ 54)%Z ->
  (1 <= generations config)%Z ->
  unitInterval random ->
  evaluateStrategy (initialCandidate random config 0 0) historicalData = Ok r0 ->
  is_nan (score (objective config) r0) = true ->
  exists w', run random config historicalData = (Ok r0, w').
Proof.
  intros Hsize Hgen Hunit Hfirst Hnan.
  destruct (run_returns random config historicalData Hsize Hgen Hunit) as [result [w' H]].
  exists w'. rewrite H. f_equal. f_equal.
  eapply (run_unbeaten random config historicalData r0); [|exact Hfirst|exact H].
  intros strategy r _. unfold gt. apply ltb_nan_l. exact Hnan.
Qed.

Lemma nan_first_candidate_is_returned_witness :
  exists w',
    run alternating exampleConfig []
    = (Ok {| parameters := initialCandidate alternating exampleConfig 0 0;
             metrics := calculateMetrics [] |}, w').
Proof.
  apply (nan_first_candidate_is_returned alternating exampleConfig []).
  - simpl. lia.
  - simpl. lia.
  - exact alternating_unitInterval.
  - reflexivity.
  - reflexivity.
Defined.

Lemma evaluateStrategy_short_history strategy historicalData :
  (List.length historicalData <= 22)%nat ->
  evaluateStrategy strategy historicalData
  = Ok {| parameters := strategy; metrics := calculateMetrics [] |}.
Proof.
  intros Hlen.
  assert (H : exists st, simulate strategy historicalData = Ok st /\ returns st = []).
  { unfold simulate.
    destruct historicalData as [|d0 rest]; [exists initialSimState; split; reflexivity|].
    remember (d0 :: rest) as bars eqn:Hbars.
    assert (Hpos : (1 <= List.length bars)%nat) by (subst; simpl; lia).
    clear Hbars.
    destruct (Nat.le_gt_cases (List.length bars) 21) as [Hs|Hs].
    - exists initialSimState. split; [|reflexivity].
      apply simulateFrom_flat_early; [lia|lia|reflexivity].
    - replace (List.length bars - 1)%nat with (20 + 1)%nat by lia.
      rewrite simulateFrom_app.
      rewrite simulateFrom_flat_early by (reflexivity || lia).
      cbn [simulateFrom Nat.add]. destruct (nth_error bars 21) as [d|] eqn:E.
      + eexists. split; [reflexivity|].
        rewrite simulateBar_flat_returns; reflexivity.
      + apply nth_error_None in E. lia. }
  destruct H as [st [Hst Hret]]. unfold evaluateStrategy. rewrite Hst, Hret. reflexivity.
Qed.

(** X10: on a history of at most 22 bars a run returns the first candidate of
    the initial population, with the metrics of the empty return sequence,
    whatever the objective.  No candidate closes a trade on such a history, so
    all candidates of all generations have the same objective value, and a
    result is replaced only by a value strictly above its own. *)
Theorem short_history_returns_first_candidate random config historicalData :
  (List.length historicalData <= 22)%nat ->
  (2 <= populationSize config < 2 ^ 54)%Z ->
  (1 <= generations config)%Z ->
  unitInterval random ->
  exists w',
    run random config historicalData
    = (Ok {| parameters := initialCandidate random config 0 0;
             metrics := calculateMetrics [] |}, w').
Proof.
  intros Hlen Hsize Hgen Hunit.
  destruct (run_returns random config historicalData Hsize Hgen Hunit) as [result [w' H]].
  exists w'. rewrite H. f_equal. f_equal.
  eapply (run_unbeaten random config historicalData); [| |exact H].
  - intros strategy r He.
    rewrite (evaluateStrategy_short_history strategy historicalData Hlen) in He.
    injection He as <-. unfold gt, score. cbn [metrics].
    apply NumberOrder.ltb_irrefl.
  - apply evaluateStrategy_short_history. exact Hlen.
Qed.

Lemma short_history_returns_first_candidate_witness :
  exists w',
    run alternating
      {| populationSize := 4; generations := 2; mutationRate := 0.1; crossoverRate := 0.7;
         objective := calmarRatio; constraints := exampleConstraints |}
      (repeat (flatBar 100) 22)
    = (Ok {| parameters :=
               initialCandidate alternating
                 {| populationSize := 4; generations := 2; mutationRate := 0.1;
                    crossoverRate := 0.7; objective := calmarRatio;
                    constraints := exampleConstraints |} 0 0;
             metrics := calculateMetrics [] |}, w').
Proof.
  apply (short_history_returns_first_candidate alternating _ (repeat (flatBar 100) 22)).
  - simpl. lia.
  - simpl. lia.
  - simpl. lia.
  - exact alternating_unitInterval.
Defined.

End FirstCandidate.

(** * Rounding keeps the order

    The result of an operation is the exact result rounded to the nearest
    number of the format.  A number of the format that is at most (at least)
    the exact result is at most (at least) the rounded result: rounding does
    not step over a number of the format. *)

Module RoundingOrder.

Local Open Scope Z_scope.

Section Format.

Variable prec emax : Z.
Hypothesis prec_pos : 0 < prec.

Abbreviation emin := (SpecFloat.emin prec emax).
Abbreviation fexp := (SpecFloat.fexp prec emax).

(** The value that [binary_round_aux] returns for a final mantissa and
    exponent. *)
Definition finish (s : bool) (m2 e2 : Z) : spec_float :=
  match m2 with
  | Z0 => S754_zero s
  | Zpos m => if e2 <=? emax - prec then S754_finite s m e2 else S754_infinity s
  | Zneg _ => S754_nan
  end.

Lemma Zdigits2_bounds M : 0 < M -> 2 ^ (Zdigits2 M - 1) <= M < 2 ^ Zdigits2 M.
Proof.
  destruct M as [|p|p]; try lia. intros _. apply Rounding.digits2_pos_bounds.
Qed.

Lemma Zdigits2_pos M : 0 < M -> 0 < Zdigits2 M.
Proof. destruct M as [|p|p]; simpl; lia. Qed.

Lemma Zdigits2_le M n : 0 < M -> M < 2 ^ n -> Zdigits2 M <= n.
Proof.
  intros HM Hlt. pose proof (Zdigits2_bounds M HM) as [B1 _].
  pose proof (Zdigits2_pos M HM) as Hd.
  destruct (Z_le_gt_dec (Zdigits2 M) n) as [H|H]; [exact H|exfalso].
  assert (2 ^ n <= 2 ^ (Zdigits2 M - 1)) by (apply Z.pow_le_mono_r; lia). lia.
Qed.

Lemma Zdigits2_gt M n : 0 <= n -> 2 ^ n <= M -> n < Zdigits2 M.
Proof.
  intros Hn Hle. assert (HM : 0 < M).
  { pose proof (Z.pow_pos_nonneg 2 n ltac:(lia) Hn). lia. }
  pose proof (Zdigits2_bounds M HM) as [_ B2].
  apply (Z.pow_lt_mono_r_iff 2); [lia|pose proof (Zdigits2_pos M HM); lia|lia].
Qed.

Lemma fexp_mono a b : a <= b -> fexp a <= fexp b.
Proof. unfold SpecFloat.fexp. lia. Qed.

Lemma round_nearest_even_le m l : round_nearest_even m l <= m + 1.
Proof. destruct l as [|[ | | ]]; simpl; try lia. destruct (Z.even m); lia. Qed.

Lemma shr_fexp_keep m e l :
  fexp (Zdigits2 m + e) <= e ->
  shr_fexp prec emax m e l = (shr_record_of_loc m l, e).
Proof.
  intros H. unfold shr_fexp, shr.
  destruct (fexp (Zdigits2 m + e) - e) as [|p|p] eqn:E; try reflexivity. lia.
Qed.

(** The mantissa after the first shift, by [k] bits. *)
Lemma quotient_bounds M e :
  0 < M -> 0 < fexp (Zdigits2 M + e) - e ->
  0 <= M / 2 ^ (fexp (Zdigits2 M + e) - e) < 2 ^ prec
  /\ (emin < fexp (Zdigits2 M + e) ->
      2 ^ (prec - 1) <= M / 2 ^ (fexp (Zdigits2 M + e) - e)).
Proof.
  intros HM Hk. pose proof (Zdigits2_bounds M HM) as [B1 B2].
  pose proof (Zdigits2_pos M HM) as Hd.
  set (d := Zdigits2 M) in *. set (k := fexp (d + e) - e) in *.
  assert (Hpk : 0 < 2 ^ k) by (apply Z.pow_pos_nonneg; lia).
  assert (Hkd : d - prec <= k) by (unfold k, SpecFloat.fexp; lia).
  split; [split|].
  - apply Z.div_pos; lia.
  - apply Z.div_lt_upper_bound; [exact Hpk|].
    rewrite <- Z.pow_add_r by lia.
    assert (2 ^ d <= 2 ^ (k + prec)) by (apply Z.pow_le_mono_r; lia). lia.
  - intros Hn. assert (Ek : k = d - prec) by (unfold k, SpecFloat.fexp in *; lia).
    apply Z.div_le_lower_bound; [exact Hpk|].
    rewrite <- Z.pow_add_r by lia. replace (k + (prec - 1)) with (d - 1) by lia. exact B1.
Qed.

(** The result of rounding the value [M * 2 ^ e].  With [k] the number of
    bits that the format cannot hold: nothing is dropped when [k <= 0];
    otherwise the mantissa [m1] after rounding is the quotient of [M] by
    [2 ^ k] or the next integer, at most half a unit above the value, and the
    final mantissa and exponent stand for [m1] at the exponent [e + k]. *)
Lemma round_aux_spec s M e :
  0 < M ->
  exists m2 e2,
    binary_round_aux prec emax s M e loc_Exact = finish s m2 e2
    /\ 0 <= m2
    /\ (fexp (Zdigits2 M + e) - e <= 0 -> m2 = M /\ e2 = e)
    /\ (0 < fexp (Zdigits2 M + e) - e ->
        exists m1,
          M / 2 ^ (fexp (Zdigits2 M + e) - e) <= m1
          /\ 2 * (m1 * 2 ^ (fexp (Zdigits2 M + e) - e))
             <= 2 * M + 2 ^ (fexp (Zdigits2 M + e) - e)
          /\ fexp (Zdigits2 M + e) <= e2
          /\ m2 * 2 ^ (e2 - fexp (Zdigits2 M + e)) = m1
          /\ m2 < 2 ^ prec
          /\ (e2 = emin \/ 2 ^ (prec - 1) <= m2)).
Proof.
  intros HM. unfold binary_round_aux.
  destruct (Z_le_gt_dec (fexp (Zdigits2 M + e) - e) 0) as [Hk|Hk].
  - rewrite shr_fexp_keep by lia.
    cbn [shr_record_of_loc shr_m loc_of_shr_record round_nearest_even].
    rewrite shr_fexp_keep by lia. cbn [shr_record_of_loc shr_m].
    exists M, e. split; [reflexivity|]. split; [lia|]. split; [auto|lia].
  - pose proof (quotient_bounds M e HM ltac:(lia)) as [[Q0 Q1] Q2].
    unfold shr_fexp at 1. unfold shr at 1.
    destruct (fexp (Zdigits2 M + e) - e) as [|p|p] eqn:Ek; try lia.
    pose proof (Rounding.shift_round_bound M p loc_Exact HM) as [R1 R2].
    cbv zeta in R1, R2.
    assert (Hq : shr_m (SpecFloat.iter_pos shr_1 p (shr_record_of_loc M loc_Exact))
                 = M / 2 ^ Zpos p).
    { rewrite Rounding.iter_shr_1_m by (simpl; lia). reflexivity. }
    pose proof (Rounding.round_nearest_even_ge
                  (shr_m (SpecFloat.iter_pos shr_1 p (shr_record_of_loc M loc_Exact)))
                  (loc_of_shr_record
                     (SpecFloat.iter_pos shr_1 p (shr_record_of_loc M loc_Exact)))) as G.
    pose proof (round_nearest_even_le
                  (shr_m (SpecFloat.iter_pos shr_1 p (shr_record_of_loc M loc_Exact)))
                  (loc_of_shr_record
                     (SpecFloat.iter_pos shr_1 p (shr_record_of_loc M loc_Exact)))) as L.
    set (m1 := round_nearest_even _ _) in *. rewrite Hq in G, L.
    assert (He' : e + Zpos p = fexp (Zdigits2 M + e)) by lia.
    assert (Hemin : emin <= e + Zpos p) by (rewrite He'; apply Rounding.fexp_ge_emin).
    destruct (Z_lt_le_dec m1 (2 ^ prec)) as [Hsmall|Hbig].
    + assert (Hd1 : Zdigits2 m1 <= prec).
      { destruct (Z.eq_dec m1 0) as [->|Hnz]; [simpl; lia|].
        apply Zdigits2_le; lia. }
      rewrite shr_fexp_keep by (unfold SpecFloat.fexp; lia).
      cbn [shr_record_of_loc shr_m].
      exists m1, (e + Zpos p). split; [reflexivity|]. split; [lia|]. split; [lia|].
      intros _. exists m1. split; [lia|]. split; [exact R2|]. split; [lia|].
      split; [rewrite He', Z.sub_diag; simpl; lia|]. split; [exact Hsmall|].
      destruct (Z_le_gt_dec (fexp (Zdigits2 M + e)) emin) as [Hs|Hn]; [left; lia|].
      right. specialize (Q2 ltac:(lia)). lia.
    + assert (E1 : m1 = 2 ^ prec) by lia.
      assert (Hd1 : Zdigits2 m1 = prec + 1).
      { rewrite E1. destruct (2 ^ prec) as [|q|q] eqn:Eq;
          try (pose proof (Z.pow_pos_nonneg 2 prec ltac:(lia) ltac:(lia)); lia).
        cbn [Zdigits2]. apply Rounding.digits_of_bounds; [|lia].
        replace (prec + 1 - 1) with prec by lia. rewrite <- Eq.
        split; [lia|]. rewrite Z.pow_add_r by lia. lia. }
      unfold shr_fexp, shr. rewrite Hd1.
      replace (fexp (prec + 1 + (e + Zpos p)) - (e + Zpos p)) with 1
        by (unfold SpecFloat.fexp; lia).
      cbn [SpecFloat.iter_pos shr_record_of_loc].
      assert (Hm2 : shr_m (shr_1 {| shr_m := m1; shr_r := false; shr_s := false |})
                    = 2 ^ (prec - 1)).
      { rewrite Rounding.shr_1_m by (simpl; lia). cbn [shr_m]. rewrite E1.
        replace prec with (Z.succ (prec - 1)) at 1 by lia.
        rewrite Z.pow_succ_r by lia. rewrite Z.mul_comm, Z.div_mul by lia. reflexivity. }
      rewrite Hm2.
      exists (2 ^ (prec - 1)), (e + Zpos p + 1).
      split; [reflexivity|]. split; [apply Z.pow_nonneg; lia|]. split; [lia|].
      intros _. exists m1. split; [lia|]. split; [exact R2|]. split; [lia|].
      split; [|split; [apply Z.pow_lt_mono_r; lia|right; lia]].
      rewrite E1. replace (e + Zpos p + 1 - fexp (Zdigits2 M + e)) with 1 by lia.
      replace prec with (Z.succ (prec - 1)) at 2 by lia.
      rewrite Z.pow_succ_r by lia. lia.
Qed.

(** The same for a value whose exponent is not above the exponent of its
    format, in one statement. *)
Lemma round_aux_uniform s M e :
  0 < M -> e <= fexp (Zdigits2 M + e) ->
  exists m1 m2 e2,
    binary_round_aux prec emax s M e loc_Exact = finish s m2 e2
    /\ 0 <= m2 < 2 ^ prec
    /\ fexp (Zdigits2 M + e) <= e2
    /\ m2 * 2 ^ (e2 - fexp (Zdigits2 M + e)) = m1
    /\ M / 2 ^ (fexp (Zdigits2 M + e) - e) <= m1
    /\ 2 * (m1 * 2 ^ (fexp (Zdigits2 M + e) - e))
       <= 2 * M + 2 ^ (fexp (Zdigits2 M + e) - e)
    /\ (e2 = emin \/ 2 ^ (prec - 1) <= m2).
Proof.
  intros HM Hk.
  destruct (round_aux_spec s M e HM) as [m2 [e2 [Hres [Hm2 [H0 H1]]]]].
  destruct (Z_le_gt_dec (fexp (Zdigits2 M + e) - e) 0) as [Hz|Hp].
  - destruct (H0 Hz) as [-> ->]. clear H0 H1.
    assert (Ef : fexp (Zdigits2 M + e) = e) by lia.
    pose proof (Zdigits2_bounds M HM) as [B1 B2].
    pose proof (Zdigits2_pos M HM) as Hd.
    exists M, M, e. split; [exact Hres|]. rewrite Ef, Z.sub_diag.
    change (2 ^ 0) with 1. rewrite Z.div_1_r.
    assert (Hdp : Zdigits2 M <= prec) by (unfold SpecFloat.fexp in Ef; lia).
    assert (P : 2 ^ Zdigits2 M <= 2 ^ prec) by (apply Z.pow_le_mono_r; lia).
    split; [lia|]. split; [lia|]. split; [lia|]. split; [lia|]. split; [lia|].
    destruct (Z.eq_dec e emin) as [He|He]; [left; exact He|right].
    assert (Zdigits2 M = prec) by (unfold SpecFloat.fexp in Ef; lia).
    replace (prec - 1) with (Zdigits2 M - 1) by lia. exact B1.
  - destruct (H1 ltac:(lia)) as [m1 [A1 [A2 [A3 [A4 [A5 A6]]]]]].
    exists m1, m2, e2. repeat split; try assumption; lia.
Qed.

Lemma canonical_of_bounds (m : positive) e :
  Zpos m < 2 ^ prec -> emin <= e -> (e = emin \/ 2 ^ (prec - 1) <= Zpos m) ->
  canonical_mantissa prec emax m e = true.
Proof.
  intros Hlt He H. unfold canonical_mantissa. apply Z.eqb_eq.
  pose proof (Zdigits2_le (Zpos m) prec ltac:(lia) Hlt) as Hd. cbn [Zdigits2] in Hd.
  destruct H as [->|H].
  - unfold SpecFloat.fexp. lia.
  - pose proof (Zdigits2_gt (Zpos m) (prec - 1) ltac:(lia) H) as Hg. cbn [Zdigits2] in Hg.
    unfold SpecFloat.fexp. lia.
Qed.

(** Two positive numbers of the format compare as the integers they stand
    for in a common unit. *)
Lemma SFcompare_scaled m1 e1 m2 e2 c :
  canonical_mantissa prec emax m1 e1 = true ->
  canonical_mantissa prec emax m2 e2 = true ->
  c <= e1 -> c <= e2 ->
  SFcompare (S754_finite false m1 e1) (S754_finite false m2 e2)
  = Some (Zpos m1 * 2 ^ (e1 - c) ?= Zpos m2 * 2 ^ (e2 - c)).
Proof.
  intros H1 H2 Hc1 Hc2.
  rewrite (Rounding.SFcompare_aligned prec emax prec_pos false m1 e1 false m2 e2 H1 H2).
  unfold Rounding.aligned. cbn [cond_Zopp]. f_equal.
  set (ez := Z.min e1 e2).
  assert (E1 : 2 ^ (e1 - c) = 2 ^ (e1 - ez) * 2 ^ (ez - c)).
  { rewrite <- Z.pow_add_r by lia. f_equal. lia. }
  assert (E2 : 2 ^ (e2 - c) = 2 ^ (e2 - ez) * 2 ^ (ez - c)).
  { rewrite <- Z.pow_add_r by lia. f_equal. lia. }
  rewrite E1, E2, !Z.mul_assoc. apply Zmult_compare_compat_r.
  apply Z.lt_gt. apply Z.pow_pos_nonneg; lia.
Qed.

(** The value and the bound in the unit [2 ^ c], and the binade of the
    value. *)
Lemma binade_le M e mb eb c :
  0 < M -> c <= e -> c <= eb ->
  M * 2 ^ (e - c) <= Zpos mb * 2 ^ (eb - c) ->
  Zdigits2 M + e <= Zpos (digits2_pos mb) + eb.
Proof.
  intros HM Hc1 Hc2 Hle.
  pose proof (Zdigits2_bounds M HM) as [B1 _]. pose proof (Zdigits2_pos M HM) as Hd.
  pose proof (Rounding.digits2_pos_bounds mb) as [_ B2].
  set (d := Zdigits2 M) in *. set (db := Zpos (digits2_pos mb)) in *.
  assert (P1 : 0 < 2 ^ (e - c)) by (apply Z.pow_pos_nonneg; lia).
  assert (P2 : 0 < 2 ^ (eb - c)) by (apply Z.pow_pos_nonneg; lia).
  assert (L : 2 ^ (d - 1 + (e - c)) < 2 ^ (db + (eb - c))).
  { rewrite !Z.pow_add_r by (unfold db; lia).
    apply Z.le_lt_trans with (M * 2 ^ (e - c)); [apply Z.mul_le_mono_nonneg_r; lia|].
    apply Z.le_lt_trans with (Zpos mb * 2 ^ (eb - c)); [exact Hle|].
    apply Z.mul_lt_mono_pos_r; lia. }
  apply Z.pow_lt_mono_r_iff in L; unfold db in *; lia.
Qed.

(** A number of the format that is at least the value is at least the
    rounded value. *)
Lemma round_aux_le M e mb eb c :
  0 < M -> e <= fexp (Zdigits2 M + e) ->
  canonical_mantissa prec emax mb eb = true -> eb <= emax - prec ->
  c <= e -> c <= eb ->
  M * 2 ^ (e - c) <= Zpos mb * 2 ^ (eb - c) ->
  SFleb (binary_round_aux prec emax false M e loc_Exact) (S754_finite false mb eb) = true.
Proof.
  intros HM Hk Hcb Heb Hc1 Hc2 Hle.
  destruct (round_aux_uniform false M e HM Hk)
    as [m1 [m2 [e2 [Hres [[Hm2a Hm2b] [He2 [Hv [Hq [Hr Hc]]]]]]]]].
  rewrite Hres. clear Hres.
  pose proof (binade_le M e mb eb c HM Hc1 Hc2 Hle) as Hbin.
  pose proof (Rounding.canonical_bounds prec emax mb eb Hcb) as [Hemin [Hdb _]].
  pose proof (Rounding.digits2_pos_bounds mb) as [_ Bmb].
  assert (Hfe : fexp (Zdigits2 M + e) <= eb).
  { unfold canonical_mantissa in Hcb. apply Z.eqb_eq in Hcb. rewrite <- Hcb.
    apply fexp_mono. exact Hbin. }
  set (fe := fexp (Zdigits2 M + e)) in *.
  assert (EP : 2 ^ (fe - c) = 2 ^ (fe - e) * 2 ^ (e - c)).
  { rewrite <- Z.pow_add_r by lia. f_equal. lia. }
  assert (EB : 2 ^ (eb - c) = 2 ^ (eb - fe) * 2 ^ (fe - c)).
  { rewrite <- Z.pow_add_r by lia. f_equal. lia. }
  assert (EV : 2 ^ (e2 - c) = 2 ^ (e2 - fe) * 2 ^ (fe - c)).
  { rewrite <- Z.pow_add_r by lia. f_equal. lia. }
  assert (PK : 0 < 2 ^ (fe - e)) by (apply Z.pow_pos_nonneg; lia).
  assert (PP : 0 < 2 ^ (e - c)) by (apply Z.pow_pos_nonneg; lia).
  assert (PT : 0 < 2 ^ (eb - fe)) by (apply Z.pow_pos_nonneg; lia).
  assert (PS : 0 < 2 ^ (e2 - fe)) by (apply Z.pow_pos_nonneg; lia).
  set (K := 2 ^ (fe - e)) in *. set (P := 2 ^ (e - c)) in *.
  set (T := 2 ^ (eb - fe)) in *. set (S := 2 ^ (e2 - fe)) in *.
  assert (H1 : M <= Zpos mb * T * K).
  { rewrite EB, EP in Hle.
    apply (Z.mul_le_mono_pos_r _ _ P PP). lia. }
  assert (H2 : m1 <= Zpos mb * T).
  { assert (2 * m1 * K <= (2 * (Zpos mb * T) + 1) * K) by lia.
    apply Z.mul_le_mono_pos_r in H; lia. }
  assert (HV : m2 * 2 ^ (e2 - c) <= Zpos mb * 2 ^ (eb - c)).
  { rewrite EV, EB, !Z.mul_assoc. apply Z.mul_le_mono_nonneg_r; [|lia].
    apply Z.lt_le_incl. apply Z.pow_pos_nonneg; lia. }
  destruct m2 as [|p|p]; [reflexivity| |lia].
  assert (He2b : e2 <= eb).
  { destruct Hc as [->|Hc]; [exact Hemin|].
    assert (L : 2 ^ (prec - 1 + (e2 - c)) < 2 ^ (prec + (eb - c))).
    { rewrite !Z.pow_add_r by lia.
      apply Z.le_lt_trans with (Zpos p * 2 ^ (e2 - c)).
      - apply Z.mul_le_mono_nonneg_r; [apply Z.pow_nonneg|]; lia.
      - apply Z.le_lt_trans with (Zpos mb * 2 ^ (eb - c)); [exact HV|].
        apply Z.mul_lt_mono_pos_r; [apply Z.pow_pos_nonneg; lia|].
        apply Z.lt_le_trans with (2 ^ Zpos (digits2_pos mb)); [lia|].
        apply Z.pow_le_mono_r; lia. }
    apply Z.pow_lt_mono_r_iff in L; lia. }
  unfold finish. replace (e2 <=? emax - prec) with true by (symmetry; apply Z.leb_le; lia).
  assert (Hcp : canonical_mantissa prec emax p e2 = true).
  { apply canonical_of_bounds; [lia| |exact Hc].
    pose proof (Rounding.fexp_ge_emin prec emax (Zdigits2 M + e)). unfold fe in He2. lia. }
  unfold SFleb. rewrite (SFcompare_scaled p e2 mb eb c Hcp Hcb) by lia.
  destruct (Z.compare_spec (Zpos p * 2 ^ (e2 - c)) (Zpos mb * 2 ^ (eb - c)));
    try reflexivity. lia.
Qed.

(** A number of the format that is at most the value is at most the rounded
    value. *)
Lemma round_aux_ge M e mb eb c :
  0 < M -> e <= fexp (Zdigits2 M + e) ->
  canonical_mantissa prec emax mb eb = true ->
  c <= e -> c <= eb ->
  Zpos mb * 2 ^ (eb - c) <= M * 2 ^ (e - c) ->
  SFleb (S754_finite false mb eb) (binary_round_aux prec emax false M e loc_Exact) = true.
Proof.
  intros HM Hk Hcb Hc1 Hc2 Hle.
  destruct (round_aux_uniform false M e HM Hk)
    as [m1 [m2 [e2 [Hres [[Hm2a Hm2b] [He2 [Hv [Hq [Hr Hc]]]]]]]]].
  rewrite Hres. clear Hres.
  pose proof (Rounding.canonical_bounds prec emax mb eb Hcb) as [Hemin [Hdb _]].
  pose proof (Rounding.digits2_pos_bounds mb) as [_ Bmb].
  pose proof (Zdigits2_bounds M HM) as [BM _]. pose proof (Zdigits2_pos M HM) as Hd.
  pose proof (Rounding.fexp_ge_emin prec emax (Zdigits2 M + e)) as Hfemin.
  set (fe := fexp (Zdigits2 M + e)) in *.
  assert (EP : 2 ^ (fe - c) = 2 ^ (fe - e) * 2 ^ (e - c)).
  { rewrite <- Z.pow_add_r by lia. f_equal. lia. }
  assert (EV : 2 ^ (e2 - c) = 2 ^ (e2 - fe) * 2 ^ (fe - c)).
  { rewrite <- Z.pow_add_r by lia. f_equal. lia. }
  assert (PK : 0 < 2 ^ (fe - e)) by (apply Z.pow_pos_nonneg; lia).
  assert (PP : 0 < 2 ^ (e - c)) by (apply Z.pow_pos_nonneg; lia).
  assert (PU : 0 < 2 ^ (fe - c)) by (apply Z.pow_pos_nonneg; lia).
  assert (HV : Zpos mb * 2 ^ (eb - c) <= m2 * 2 ^ (e2 - c)).
  { rewrite EV, Z.mul_assoc, Hv.
    destruct (Z_le_gt_dec fe eb) as [Hfe|Hfe].
    - assert (EB : 2 ^ (eb - c) = 2 ^ (eb - fe) * 2 ^ (fe - c)).
      { rewrite <- Z.pow_add_r by lia. f_equal. lia. }
      assert (PT : 0 < 2 ^ (eb - fe)) by (apply Z.pow_pos_nonneg; lia).
      rewrite EB, Z.mul_assoc. apply Z.mul_le_mono_nonneg_r; [lia|].
      apply Z.le_trans with (M / 2 ^ (fe - e)); [|exact Hq].
      apply Z.div_le_lower_bound; [exact PK|].
      rewrite EB, EP in Hle.
      apply (Z.mul_le_mono_pos_r _ _ (2 ^ (e - c)) PP).
      set (K := 2 ^ (fe - e)) in *. set (P := 2 ^ (e - c)) in *.
      set (T := 2 ^ (eb - fe)) in *. lia.
    - assert (Hbin : Zpos (digits2_pos mb) + eb < Zdigits2 M + e).
      { destruct (Z_lt_le_dec (Zpos (digits2_pos mb) + eb) (Zdigits2 M + e)) as [H|H];
          [exact H|exfalso].
        apply fexp_mono in H. unfold canonical_mantissa in Hcb. apply Z.eqb_eq in Hcb.
        fold fe in H. lia. }
      assert (Efe : fe = Zdigits2 M + e - prec) by (unfold fe, SpecFloat.fexp in *; lia).
      assert (Q : 2 ^ (prec - 1) <= M / 2 ^ (fe - e)).
      { apply Z.div_le_lower_bound; [exact PK|].
        rewrite <- Z.pow_add_r by lia.
        replace (fe - e + (prec - 1)) with (Zdigits2 M - 1) by lia. exact BM. }
      apply Z.lt_le_incl.
      apply Z.lt_le_trans with (2 ^ (Zpos (digits2_pos mb) + (eb - c))).
      + rewrite Z.pow_add_r by lia.
        apply Z.mul_lt_mono_pos_r; [apply Z.pow_pos_nonneg; lia|lia].
      + apply Z.le_trans with (2 ^ (prec - 1 + (fe - c))).
        * apply Z.pow_le_mono_r; lia.
        * rewrite Z.pow_add_r by lia.
          apply Z.mul_le_mono_nonneg_r; [lia|]. lia. }
  assert (PB : 0 < Zpos mb * 2 ^ (eb - c)).
  { apply Z.mul_pos_pos; [lia|apply Z.pow_pos_nonneg; lia]. }
  destruct m2 as [|p|p]; [lia| |lia].
  unfold finish. destruct (e2 <=? emax - prec) eqn:Eo; [|reflexivity].
  assert (Hcp : canonical_mantissa prec emax p e2 = true).
  { apply canonical_of_bounds; [lia|lia|exact Hc]. }
  unfold SFleb. rewrite (SFcompare_scaled mb eb p e2 c Hcb Hcp) by lia.
  destruct (Z.compare_spec (Zpos mb * 2 ^ (eb - c)) (Zpos p * 2 ^ (e2 - c)));
    try reflexivity. lia.
Qed.

(** *** Products and sums of numbers of the format *)

Hypothesis emin_nonpos : emin <= 0.

Lemma Zdigits2_mul (m1 m2 : positive) :
  Zpos (digits2_pos m1) + Zpos (digits2_pos m2) - 1 <= Zpos (digits2_pos (m1 * m2)).
Proof.
  pose proof (Rounding.digits2_pos_bounds m1) as [A1 _].
  pose proof (Rounding.digits2_pos_bounds m2) as [A2 _].
  set (d1 := Zpos (digits2_pos m1)) in *. set (d2 := Zpos (digits2_pos m2)) in *.
  assert (H : d1 + d2 - 2 < Zdigits2 (Zpos (m1 * m2))).
  { apply Zdigits2_gt; [unfold d1, d2; lia|].
    replace (d1 + d2 - 2) with ((d1 - 1) + (d2 - 1)) by lia.
    rewrite Z.pow_add_r by (unfold d1, d2; lia). rewrite Pos2Z.inj_mul.
    apply Z.mul_le_mono_nonneg; try assumption; apply Z.pow_nonneg; lia. }
  cbn [Zdigits2] in H. lia.
Qed.

(** The exponent of an exact product is not above the exponent of its
    format: rounding a product only drops bits. *)
Lemma product_exponent m1 e1 m2 e2 :
  canonical_mantissa prec emax m1 e1 = true ->
  canonical_mantissa prec emax m2 e2 = true ->
  e1 + e2 <= fexp (Zdigits2 (Zpos (m1 * m2)) + (e1 + e2)).
Proof.
  intros C1 C2.
  apply Rounding.canonical_bounds in C1. apply Rounding.canonical_bounds in C2.
  destruct C1 as [E1 [D1 K1]]. destruct C2 as [E2 [D2 K2]].
  pose proof (Zdigits2_mul m1 m2) as Hd. cbn [Zdigits2].
  assert (1 <= Zpos (digits2_pos m1)) by lia. assert (1 <= Zpos (digits2_pos m2)) by lia.
  unfold SpecFloat.fexp. destruct K1 as [K1|K1], K2 as [K2|K2]; lia.
Qed.

Lemma Zdigits2_shift (p : positive) n :
  0 <= n -> Zdigits2 (Zpos p * 2 ^ n) = Zpos (digits2_pos p) + n.
Proof.
  intros Hn. pose proof (Rounding.digits2_pos_bounds p) as [A1 A2].
  assert (Hp : 0 < 2 ^ n) by (apply Z.pow_pos_nonneg; lia).
  destruct (Zpos p * 2 ^ n) as [|q|q] eqn:E; try lia.
  cbn [Zdigits2]. apply Rounding.digits_of_bounds; [|lia]. rewrite <- E.
  replace (Zpos (digits2_pos p) + n - 1) with ((Zpos (digits2_pos p) - 1) + n) by lia.
  rewrite !Z.pow_add_r by lia. split.
  - apply Z.mul_le_mono_nonneg_r; lia.
  - apply Z.mul_lt_mono_pos_r; lia.
Qed.

(** [binary_round] first aligns the value on the exponent of its format. *)
Lemma binary_round_unfold s (p : positive) e :
  exists (mz : positive) ez,
    binary_round prec emax s p e = binary_round_aux prec emax s (Zpos mz) ez loc_Exact
    /\ ez = Z.min e (fexp (Zpos (digits2_pos p) + e))
    /\ Zpos mz = Zpos p * 2 ^ (e - ez)
    /\ ez <= fexp (Zdigits2 (Zpos mz) + ez).
Proof.
  unfold binary_round.
  pose proof (Rounding.shl_align_exponent p e (fexp (Zpos (digits2_pos p) + e))) as He.
  pose proof (Rounding.shl_align_value p e (Z.min e (fexp (Zpos (digits2_pos p) + e)))
                ltac:(lia)) as Hv.
  assert (Hs : shl_align p e (Z.min e (fexp (Zpos (digits2_pos p) + e)))
               = shl_align p e (fexp (Zpos (digits2_pos p) + e))).
  { unfold shl_align.
    destruct (Z.min e (fexp (Zpos (digits2_pos p) + e)) - e) as [|d|d] eqn:E1;
      destruct (fexp (Zpos (digits2_pos p) + e) - e) as [|d'|d'] eqn:E2;
      try reflexivity; try lia.
    assert (d = d') by lia. subst d'. f_equal. lia. }
  rewrite Hs in Hv.
  destruct (shl_align p e (fexp (Zpos (digits2_pos p) + e))) as [mz ez].
  cbn [fst snd] in He, Hv. exists mz, ez. split; [reflexivity|]. split; [exact He|].
  rewrite <- He in Hv. split; [exact Hv|].
  rewrite Hv, Zdigits2_shift by lia.
  replace (Zpos (digits2_pos p) + (e - ez) + ez) with (Zpos (digits2_pos p) + e) by lia.
  lia.
Qed.

Lemma scale_le a b n : 0 <= n -> a <= b -> a * 2 ^ n <= b * 2 ^ n.
Proof.
  intros Hn H. apply Z.mul_le_mono_nonneg_r; [apply Z.pow_nonneg; lia|exact H].
Qed.

Lemma binary_round_le (p : positive) e mb eb c :
  canonical_mantissa prec emax mb eb = true -> eb <= emax - prec ->
  c <= e -> c <= eb ->
  Zpos p * 2 ^ (e - c) <= Zpos mb * 2 ^ (eb - c) ->
  SFleb (binary_round prec emax false p e) (S754_finite false mb eb) = true.
Proof.
  intros Hcb Heb Hc1 Hc2 Hle.
  destruct (binary_round_unfold false p e) as [mz [ez [-> [Hez [Hmz Hk]]]]].
  pose proof (Rounding.fexp_ge_emin prec emax (Zpos (digits2_pos p) + e)) as Hf.
  pose proof (Rounding.canonical_bounds prec emax mb eb Hcb) as [Hemin _].
  apply (round_aux_le (Zpos mz) ez mb eb (Z.min c emin)); try assumption; try lia.
  rewrite Hmz, <- Z.mul_assoc, <- Z.pow_add_r by lia.
  replace (e - ez + (ez - Z.min c emin)) with ((e - c) + (c - Z.min c emin)) by lia.
  replace (eb - Z.min c emin) with ((eb - c) + (c - Z.min c emin)) by lia.
  rewrite !Z.pow_add_r, !Z.mul_assoc by lia. apply scale_le; [lia|exact Hle].
Qed.

Lemma binary_round_ge (p : positive) e mb eb c :
  canonical_mantissa prec emax mb eb = true ->
  c <= e -> c <= eb ->
  Zpos mb * 2 ^ (eb - c) <= Zpos p * 2 ^ (e - c) ->
  SFleb (S754_finite false mb eb) (binary_round prec emax false p e) = true.
Proof.
  intros Hcb Hc1 Hc2 Hle.
  destruct (binary_round_unfold false p e) as [mz [ez [-> [Hez [Hmz Hk]]]]].
  pose proof (Rounding.fexp_ge_emin prec emax (Zpos (digits2_pos p) + e)) as Hf.
  pose proof (Rounding.canonical_bounds prec emax mb eb Hcb) as [Hemin _].
  apply (round_aux_ge (Zpos mz) ez mb eb (Z.min c emin)); try assumption; try lia.
  rewrite Hmz, <- Z.mul_assoc, <- Z.pow_add_r by lia.
  replace (e - ez + (ez - Z.min c emin)) with ((e - c) + (c - Z.min c emin)) by lia.
  replace (eb - Z.min c emin) with ((eb - c) + (c - Z.min c emin)) by lia.
  rewrite !Z.pow_add_r, !Z.mul_assoc by lia. apply scale_le; [lia|exact Hle].
Qed.

(** *** Signs *)

(** A result with the sign [s]: a zero, a number or an infinity of that
    sign, or NaN. *)
Definition signed (s : bool) (r : spec_float) : Prop :=
  match r with
  | S754_nan => True
  | S754_zero s' | S754_infinity s' | S754_finite s' _ _ => s' = s
  end.

Lemma round_aux_signed s M E l : signed s (binary_round_aux prec emax s M E l).
Proof.
  unfold binary_round_aux.
  destruct (shr_fexp prec emax M E l) as [mrs' e'].
  destruct (shr_fexp prec emax _ e' loc_Exact) as [mrs'' e''].
  destruct (shr_m mrs'') as [|p|p]; try reflexivity.
  destruct (e'' <=? emax - prec); reflexivity.
Qed.

Lemma round_aux_not_nan s M E l :
  0 <= M -> binary_round_aux prec emax s M E l <> S754_nan.
Proof.
  intros HM. unfold binary_round_aux.
  assert (H1 : 0 <= shr_m (fst (shr_fexp prec emax M E l))).
  { unfold shr_fexp, shr.
    destruct (fexp (Zdigits2 M + E) - E) as [|p|p]; cbn [fst];
      rewrite ?Rounding.iter_shr_1_m, ?Rounding.shr_record_of_loc_m;
      rewrite ?Rounding.shr_record_of_loc_m; try lia.
    apply Z.div_pos; [lia|apply Z.pow_pos_nonneg; lia]. }
  destruct (shr_fexp prec emax M E l) as [mrs' e']. cbn [fst] in H1.
  pose proof (Rounding.round_nearest_even_ge (shr_m mrs') (loc_of_shr_record mrs')) as G.
  pose proof (Rounding.shr_fexp_exact_bound prec emax
                (round_nearest_even (shr_m mrs') (loc_of_shr_record mrs')) e'
                ltac:(lia)) as [B _].
  destruct (shr_fexp prec emax _ e' loc_Exact) as [mrs'' e'']. cbn [fst] in B.
  destruct (shr_m mrs'') as [|p|p]; try discriminate; [|lia].
  destruct (e'' <=? emax - prec); discriminate.
Qed.

(** The rounded value of a negative value at an exponent of the format is
    below zero. *)
Lemma round_aux_below_zero m e l :
  0 < m -> emin <= e ->
  SFltb (binary_round_aux prec emax true m e l) (S754_zero false) = true.
Proof.
  intros Hm He. unfold binary_round_aux.
  pose proof (Rounding.shr_fexp_pos prec emax prec_pos m e l Hm He) as [H1 H2].
  destruct (shr_fexp prec emax m e l) as [mrs' e']. cbn [fst snd] in H1, H2.
  pose proof (Rounding.round_nearest_even_ge (shr_m mrs') (loc_of_shr_record mrs')) as Hr.
  set (m1 := round_nearest_even (shr_m mrs') (loc_of_shr_record mrs')) in *.
  assert (Hm1 : 0 < m1) by lia.
  pose proof (Rounding.shr_fexp_pos prec emax prec_pos m1 e' loc_Exact Hm1 H2) as [H3 H4].
  destruct (shr_fexp prec emax m1 e' loc_Exact) as [mrs'' e'']. cbn [fst snd] in H3, H4.
  destruct (shr_m mrs'') as [|p|p]; try lia.
  destruct (e'' <=? emax - prec); reflexivity.
Qed.

Lemma binary_normalize_below_zero m e :
  emin <= e ->
  SFltb (binary_normalize prec emax m e false) (S754_zero false) = (m <? 0).
Proof.
  intros He. destruct m as [|p|p]; cbn [binary_normalize]; try reflexivity.
  - unfold binary_round.
    destruct (shl_align p e (fexp (Zpos (digits2_pos p) + e))) as [mz ez].
    pose proof (round_aux_signed false (Zpos mz) ez loc_Exact) as Hs.
    destruct (binary_round_aux prec emax false (Zpos mz) ez loc_Exact) as [s|s| |s m' e'];
      cbn [signed] in Hs; subst; reflexivity.
  - unfold binary_round.
    pose proof (Rounding.shl_align_exponent p e (fexp (Zpos (digits2_pos p) + e))) as Hs.
    destruct (shl_align p e (fexp (Zpos (digits2_pos p) + e))) as [mz ez].
    cbn [snd] in Hs. apply round_aux_below_zero; [lia|].
    pose proof (Rounding.fexp_ge_emin prec emax (Zpos (digits2_pos p) + e)). lia.
Qed.

(** The difference of two values that are not NaN is below zero exactly
    when the first is below the second. *)
Lemma SFsub_negative x y :
  SpecFloat.valid_binary prec emax x = true ->
  SpecFloat.valid_binary prec emax y = true ->
  x <> S754_nan -> y <> S754_nan ->
  SFltb (SFsub prec emax x y) (S754_zero false) = SFltb x y.
Proof.
  intros Vx Vy Nx Ny.
  destruct x as [sx|sx| |sx mx ex], y as [sy|sy| |sy my ey]; try congruence;
    try (destruct sx, sy; reflexivity); try (destruct sx; reflexivity);
    try (destruct sy; reflexivity).
  cbn [SpecFloat.valid_binary] in Vx, Vy. unfold bounded in Vx, Vy.
  apply andb_prop in Vx. destruct Vx as [Cx _].
  apply andb_prop in Vy. destruct Vy as [Cy _].
  cbn [SFsub].
  rewrite !Rounding.shl_align_value by lia.
  rewrite binary_normalize_below_zero.
  2:{ apply Rounding.canonical_bounds in Cx. apply Rounding.canonical_bounds in Cy. lia. }
  unfold SFltb. rewrite (Rounding.SFcompare_aligned prec emax prec_pos sx mx ex sy my ey Cx Cy).
  unfold Rounding.aligned.
  set (X := cond_Zopp sx (Z.pos mx * 2 ^ (ex - Z.min ex ey))).
  set (Y := cond_Zopp sy (Z.pos my * 2 ^ (ey - Z.min ex ey))).
  destruct (Z.compare_spec X Y); destruct (Z.ltb_spec (X - Y) 0); try reflexivity; lia.
Qed.

End Format.

(** *** Binary64 *)

Lemma prec_pos : 0 < prec.
Proof. reflexivity. Qed.

Lemma emin_nonpos : SpecFloat.emin prec emax <= 0.
Proof. discriminate. Qed.

Lemma valid_canonical (a : float) s m e :
  Prim2SF a = S754_finite s m e ->
  canonical_mantissa prec emax m e = true /\ e <= emax - prec.
Proof.
  intros E. pose proof (Prim2SF_valid a) as V. rewrite E in V.
  cbn [SpecFloat.valid_binary] in V. unfold bounded in V.
  apply andb_prop in V. destruct V as [C B]. apply Z.leb_le in B. auto.
Qed.

(** The number 1. *)
Definition one : spec_float := S754_finite false 4503599627370496 (-52).

Lemma Prim2SF_one : Prim2SF 1 = one.
Proof. vm_compute. reflexivity. Qed.

Lemma one_canonical : canonical_mantissa prec emax 4503599627370496 (-52) = true.
Proof. reflexivity. Qed.

Lemma one_mantissa : Zpos 4503599627370496 = 2 ^ 52.
Proof. reflexivity. Qed.

(** A positive number at most 1, as a mantissa and an exponent. *)
Lemma at_most_one m e :
  canonical_mantissa prec emax m e = true ->
  SFleb (S754_finite false m e) one = true ->
  e <= -52 /\ Zpos m <= 2 ^ (- e).
Proof.
  intros C H. unfold SFleb, one in H.
  rewrite (SFcompare_scaled prec emax prec_pos m e _ (-52) (Z.min e (-52)) C one_canonical)
    in H by lia.
  rewrite one_mantissa in H.
  pose proof (Rounding.canonical_bounds prec emax m e C) as [E1 [D1 K]].
  change (SpecFloat.emin prec emax) with (-1074) in *. change prec with 53 in *.
  pose proof (Rounding.digits2_pos_bounds m) as [B1 B2].
  destruct (Z.compare_spec (Zpos m * 2 ^ (e - Z.min e (-52)))
              (2 ^ 52 * 2 ^ (-52 - Z.min e (-52)))) as [Hc|Hc|Hc]; try discriminate H.
  - destruct (Z_le_gt_dec e (-52)) as [He|He].
    + split; [exact He|]. rewrite Z.min_l, Z.sub_diag in Hc by lia.
      rewrite <- Z.pow_add_r in Hc by lia.
      replace (52 + (-52 - e)) with (- e) in Hc by lia. change (2 ^ 0) with 1 in Hc. lia.
    + exfalso. rewrite Z.min_r, Z.sub_diag in Hc by lia. change (2 ^ 0) with 1 in Hc.
      assert (Zpos (digits2_pos m) = 53) by lia.
      replace (Zpos (digits2_pos m) - 1) with 52 in B1 by lia.
      assert (2 ^ 1 <= 2 ^ (e - -52)) by (apply Z.pow_le_mono_r; lia).
      change (2 ^ 1) with 2 in *. nia.
  - destruct (Z_le_gt_dec e (-52)) as [He|He].
    + split; [exact He|]. rewrite Z.min_l, Z.sub_diag in Hc by lia.
      rewrite <- Z.pow_add_r in Hc by lia.
      replace (52 + (-52 - e)) with (- e) in Hc by lia. change (2 ^ 0) with 1 in Hc. lia.
    + exfalso. rewrite Z.min_r, Z.sub_diag in Hc by lia. change (2 ^ 0) with 1 in Hc.
      assert (Zpos (digits2_pos m) = 53) by lia.
      replace (Zpos (digits2_pos m) - 1) with 52 in B1 by lia.
      assert (2 ^ 1 <= 2 ^ (e - -52)) by (apply Z.pow_le_mono_r; lia).
      change (2 ^ 1) with 2 in *. nia.
Qed.

(** A number at least 1, as a mantissa and an exponent. *)
Lemma at_least_one m e :
  canonical_mantissa prec emax m e = true ->
  SFleb one (S754_finite false m e) = true ->
  -52 <= e /\ 2 ^ 52 <= Zpos m * 2 ^ (e + 52).
Proof.
  intros C H. unfold SFleb, one in H.
  rewrite (SFcompare_scaled prec emax prec_pos _ (-52) m e (Z.min e (-52)) one_canonical C)
    in H by lia.
  rewrite one_mantissa in H.
  pose proof (Rounding.canonical_bounds prec emax m e C) as [E1 [D1 K]].
  change (SpecFloat.emin prec emax) with (-1074) in *. change prec with 53 in *.
  pose proof (Rounding.digits2_pos_bounds m) as [B1 B2].
  assert (B3 : Zpos m < 2 ^ 53).
  { eapply Z.lt_le_trans; [exact B2|]. apply Z.pow_le_mono_r; lia. }
  assert (He : -52 <= e).
  { destruct (Z_le_gt_dec (-52) e) as [He|He]; [exact He|exfalso].
    rewrite Z.min_l, Z.sub_diag in H by lia. change (2 ^ 0) with 1 in H.
    rewrite <- Z.pow_add_r in H by lia. replace (52 + (-52 - e)) with (- e) in H by lia.
    assert (2 ^ 53 <= 2 ^ (- e)) by (apply Z.pow_le_mono_r; lia).
    destruct (Z.compare_spec (2 ^ (- e)) (Zpos m * 1)); try discriminate H; lia. }
  split; [exact He|].
  rewrite Z.min_r, Z.sub_diag in H by lia. change (2 ^ 0) with 1 in H.
  replace (e - -52) with (e + 52) in H by lia.
  destruct (Z.compare_spec (2 ^ 52 * 1) (Zpos m * 2 ^ (e + 52))); try discriminate H; lia.
Qed.

(** *** The facts that the exit of a trade rests on *)

Lemma positive_kind (a : float) :
  (0 <? a)%float = true ->
  Prim2SF a = S754_infinity false
  \/ exists m e, Prim2SF a = S754_finite false m e.
Proof.
  rewrite FloatAxioms.ltb_spec. change (Prim2SF 0) with (S754_zero false).
  destruct (Prim2SF a) as [s|s| |s m e]; try discriminate;
    destruct s; try discriminate; eauto.
Qed.

Lemma nonneg_kind (q : float) :
  (0 <=? q)%float = true ->
  (exists s, Prim2SF q = S754_zero s)
  \/ Prim2SF q = S754_infinity false
  \/ exists m e, Prim2SF q = S754_finite false m e.
Proof.
  rewrite FloatAxioms.leb_spec. change (Prim2SF 0) with (S754_zero false).
  destruct (Prim2SF q) as [s|s| |s m e]; try discriminate;
    try (destruct s; try discriminate); eauto.
Qed.

Lemma SFleb_not_ltb x y : SFleb x y = true -> SFltb y x = false.
Proof.
  unfold SFleb, SFltb. rewrite (NumberOrder.SFcompare_swap x y).
  destruct (SFcompare x y) as [[ | | ]|]; simpl; congruence.
Qed.

(** [a * f] is not above [a] for a positive [a] and a factor [f] that is at
    most 1. *)
Lemma mul_le_self (a f : float) :
  (0 <? a)%float = true -> (f <=? 1)%float = true -> (a <? a * f)%float = false.
Proof.
  intros Ha Hf. rewrite FloatAxioms.ltb_spec, mul_spec.
  rewrite FloatAxioms.leb_spec, Prim2SF_one in Hf.
  pose proof (valid_canonical f) as Vf.
  destruct (positive_kind a Ha) as [Ea|[ma [ea Ea]]]; rewrite Ea.
  - destruct (Prim2SF f) as [s|s| |s m e]; try reflexivity; destruct s; reflexivity.
  - destruct (valid_canonical a _ _ _ Ea) as [Ca Ba].
    destruct (Prim2SF f) as [s|s| |s mf ef];
      [destruct s; reflexivity|destruct s; [reflexivity|discriminate Hf]
      |discriminate Hf|].
    destruct (Vf _ _ _ eq_refl) as [Cf Bf]. unfold SF64mul. cbn [SFmul].
    destruct s; cbn [xorb].
    + pose proof (round_aux_signed prec emax true (Zpos (ma * mf)) (ea + ef) loc_Exact) as Hs.
      destruct (binary_round_aux prec emax true (Zpos (ma * mf)) (ea + ef) loc_Exact)
        as [s|s| |s m' e']; cbn [signed] in Hs; subst; reflexivity.
    + destruct (at_most_one mf ef Cf Hf) as [He Hm].
      apply SFleb_not_ltb.
      apply (round_aux_le prec emax prec_pos (Zpos (ma * mf)) (ea + ef) ma ea (ea + ef));
        try assumption; try lia.
      * apply product_exponent; [exact emin_nonpos|exact Ca|exact Cf].
      * rewrite Z.sub_diag. change (2 ^ 0) with 1.
        replace (ea - (ea + ef)) with (- ef) by lia. rewrite Pos2Z.inj_mul, Z.mul_1_r.
        apply Z.mul_le_mono_nonneg_l; lia.
Qed.

(** [a * f] is not below [a] for a positive [a] and a factor [f] that is at
    least 1. *)
Lemma mul_ge_self (a f : float) :
  (0 <? a)%float = true -> (1 <=? f)%float = true -> (a * f <? a)%float = false.
Proof.
  intros Ha Hf. rewrite FloatAxioms.ltb_spec, mul_spec.
  rewrite FloatAxioms.leb_spec, Prim2SF_one in Hf.
  pose proof (valid_canonical f) as Vf.
  destruct (positive_kind a Ha) as [Ea|[ma [ea Ea]]]; rewrite Ea.
  - destruct (Prim2SF f) as [s|s| |s m e]; try reflexivity; destruct s; try reflexivity;
      discriminate Hf.
  - destruct (valid_canonical a _ _ _ Ea) as [Ca Ba].
    destruct (Prim2SF f) as [s|s| |s mf ef];
      [destruct s; discriminate Hf|destruct s; [discriminate Hf|reflexivity]
      |discriminate Hf|].
    destruct s; [discriminate Hf|].
    destruct (Vf _ _ _ eq_refl) as [Cf Bf]. unfold SF64mul. cbn [SFmul xorb].
    destruct (at_least_one mf ef Cf Hf) as [He Hm].
    apply SFleb_not_ltb.
    apply (round_aux_ge prec emax prec_pos (Zpos (ma * mf)) (ea + ef) ma ea (ea - 52));
      try assumption; try lia.
    + apply product_exponent; [exact emin_nonpos|exact Ca|exact Cf].
    + replace (ea - (ea - 52)) with 52 by lia.
      replace (ea + ef - (ea - 52)) with (ef + 52) by lia. rewrite Pos2Z.inj_mul.
      rewrite <- Z.mul_assoc. apply Z.mul_le_mono_nonneg_l; lia.
Qed.

(** [1 - q] is at most 1 for a [q] that is not negative. *)
Lemma one_minus_le (q : float) :
  (0 <=? q)%float = true -> (1 - q <=? 1)%float = true.
Proof.
  intros Hq. rewrite FloatAxioms.leb_spec, sub_spec, Prim2SF_one.
  destruct (nonneg_kind q Hq) as [[s E]|[E|[mq [eq E]]]]; rewrite E.
  - reflexivity.
  - reflexivity.
  - destruct (valid_canonical q _ _ _ E) as [Cq Bq].
    pose proof (Rounding.canonical_bounds prec emax mq eq Cq) as [Emin _].
    unfold SF64sub, one. cbn [SFsub cond_Zopp].
    rewrite !Rounding.shl_align_value by lia.
    set (ez := Z.min (-52) eq).
    assert (HY : 0 < Zpos mq * 2 ^ (eq - ez)).
    { apply Z.mul_pos_pos; [lia|apply Z.pow_pos_nonneg; lia]. }
    destruct (Zpos 4503599627370496 * 2 ^ (-52 - ez) - Zpos mq * 2 ^ (eq - ez))
      as [|p|p] eqn:ED; cbn [binary_normalize].
    + reflexivity.
    + apply (binary_round_le prec emax prec_pos p ez _ (-52) ez one_canonical);
        try (unfold ez; lia); [discriminate|].
      rewrite Z.sub_diag. change (2 ^ 0) with 1. lia.
    + destruct (binary_round_unfold prec emax true p ez) as [mz [ez' [-> _]]].
      pose proof (round_aux_signed prec emax true (Zpos mz) ez' loc_Exact) as Hs.
      pose proof (round_aux_not_nan prec emax true (Zpos mz) ez' loc_Exact ltac:(lia)) as Hn.
      destruct (binary_round_aux prec emax true (Zpos mz) ez' loc_Exact)
        as [s'|s'| |s' m' e']; cbn [signed] in Hs; subst; try reflexivity. congruence.
Qed.

(** [1 + q] is at least 1 for a [q] that is not negative. *)
Lemma one_plus_ge (q : float) :
  (0 <=? q)%float = true -> (1 <=? 1 + q)%float = true.
Proof.
  intros Hq. rewrite FloatAxioms.leb_spec, add_spec, Prim2SF_one.
  destruct (nonneg_kind q Hq) as [[s E]|[E|[mq [eq E]]]]; rewrite E.
  - reflexivity.
  - reflexivity.
  - destruct (valid_canonical q _ _ _ E) as [Cq Bq].
    pose proof (Rounding.canonical_bounds prec emax mq eq Cq) as [Emin _].
    unfold SF64add, one. cbn [SFadd cond_Zopp].
    rewrite !Rounding.shl_align_value by lia.
    set (ez := Z.min (-52) eq).
    assert (HY : 0 < Zpos mq * 2 ^ (eq - ez)).
    { apply Z.mul_pos_pos; [lia|apply Z.pow_pos_nonneg; lia]. }
    assert (HX : 0 < Zpos 4503599627370496 * 2 ^ (-52 - ez)).
    { apply Z.mul_pos_pos; [lia|apply Z.pow_pos_nonneg; unfold ez; lia]. }
    destruct (Zpos 4503599627370496 * 2 ^ (-52 - ez) + Zpos mq * 2 ^ (eq - ez))
      as [|p|p] eqn:ED; try lia. cbn [binary_normalize].
    apply (binary_round_ge prec emax prec_pos p ez _ (-52) ez one_canonical);
      try (unfold ez; lia).
    rewrite Z.sub_diag. change (2 ^ 0) with 1. lia.
Qed.

Lemma div_core_nonneg m1 e1 m2 e2 :
  0 <= m1 -> 0 < m2 ->
  0 <= fst (fst (SFdiv_core_binary prec emax m1 e1 m2 e2)).
Proof.
  intros H1 H2. unfold SFdiv_core_binary.
  set (s := e1 - e2 - _).
  set (m' := match s with 0 => m1 | Zpos _ => Z.shiftl m1 s | Zneg _ => 0 end).
  assert (Hm' : 0 <= m').
  { unfold m'. destruct s; try lia. apply Z.shiftl_nonneg. exact H1. }
  destruct (Z.div_eucl m' m2) as [q r] eqn:E. cbn [fst].
  assert (Hq : q = m' / m2) by (unfold Z.div; rewrite E; reflexivity).
  rewrite Hq. apply Z.div_pos; lia.
Qed.

(** A percentage that is not negative is not negative as a fraction. *)
Lemma percent_nonneg (x : float) :
  (0 <=? x)%float = true -> (0 <=? x / 100)%float = true.
Proof.
  intros Hx. rewrite FloatAxioms.leb_spec, div_spec.
  change (Prim2SF 0) with (S754_zero false).
  replace (Prim2SF 100) with (S754_finite false 7036874417766400 (-46))
    by (vm_compute; reflexivity).
  destruct (nonneg_kind x Hx) as [[s E]|[E|[mx [ex E]]]]; rewrite E.
  - destruct s; reflexivity.
  - reflexivity.
  - unfold SF64div. cbn [SFdiv xorb].
    pose proof (div_core_nonneg (Zpos mx) ex (Zpos 7036874417766400) (-46)
                  ltac:(lia) ltac:(lia)) as Hq.
    destruct (SFdiv_core_binary prec emax (Zpos mx) ex (Zpos 7036874417766400) (-46))
      as [[mz ez] lz]. cbn [fst] in Hq.
    pose proof (round_aux_signed prec emax false mz ez lz) as Hs.
    pose proof (round_aux_not_nan prec emax false mz ez lz Hq) as Hn.
    destruct (binary_round_aux prec emax false mz ez lz) as [s'|s'| |s' m' e'];
      cbn [signed] in Hs; subst; try reflexivity. congruence.
Qed.

(** The signs of the trade return. *)
Lemma mul_one_not_above (x : float) :
  (0 <? x)%float = false -> (0 <? 1 * x)%float = false.
Proof.
  rewrite !FloatAxioms.ltb_spec, mul_spec, Prim2SF_one.
  change (Prim2SF 0) with (S754_zero false). intros H.
  destruct (Prim2SF x) as [s|s| |s m e].
  - destruct s; reflexivity.
  - destruct s; [reflexivity|discriminate H].
  - reflexivity.
  - destruct s; [|discriminate H]. unfold SF64mul, one. cbn [SFmul xorb].
    apply Rounding.binary_round_aux_neg.
Qed.

Lemma mul_minus_one_not_above (x : float) :
  (x <? 0)%float = false -> (0 <? (-1) * x)%float = false.
Proof.
  rewrite !FloatAxioms.ltb_spec, mul_spec.
  replace (Prim2SF (-1)) with (S754_finite true 4503599627370496 (-52))
    by (vm_compute; reflexivity).
  change (Prim2SF 0) with (S754_zero false). intros H.
  destruct (Prim2SF x) as [s|s| |s m e].
  - destruct s; reflexivity.
  - destruct s; [discriminate H|reflexivity].
  - reflexivity.
  - destruct s; [discriminate H|]. unfold SF64mul. cbn [SFmul xorb].
    apply Rounding.binary_round_aux_neg.
Qed.

Lemma div_not_above (y a : float) :
  (0 <? y)%float = false -> (0 <? a)%float = true -> (0 <? y / a)%float = false.
Proof.
  intros Hy Ha. rewrite FloatAxioms.ltb_spec, div_spec.
  rewrite FloatAxioms.ltb_spec in Hy. change (Prim2SF 0) with (S754_zero false) in *.
  destruct (positive_kind a Ha) as [Ea|[ma [ea Ea]]]; rewrite Ea.
  - destruct (Prim2SF y) as [s|s| |s m e]; try reflexivity; destruct s;
      try reflexivity; discriminate Hy.
  - destruct (Prim2SF y) as [s|s| |s m e].
    + destruct s; reflexivity.
    + destruct s; [reflexivity|discriminate Hy].
    + reflexivity.
    + destruct s; [|discriminate Hy]. unfold SF64div. cbn [SFdiv xorb].
      destruct (SFdiv_core_binary prec emax (Zpos m) e (Zpos ma) ea) as [[mz ez] lz].
      apply Rounding.binary_round_aux_neg.
Qed.

Lemma sub_negative (a b : float) :
  is_nan a = false -> is_nan b = false ->
  (b - a <? 0)%float = (b <? a)%float.
Proof.
  intros Ha Hb. rewrite !FloatAxioms.ltb_spec, FloatAxioms.sub_spec.
  change (Prim2SF 0) with (S754_zero false).
  apply (SFsub_negative prec emax prec_pos).
  - apply Prim2SF_valid.
  - apply Prim2SF_valid.
  - intros E. apply NumberOrder.is_nan_Prim2SF in E. congruence.
  - intros E. apply NumberOrder.is_nan_Prim2SF in E. congruence.
Qed.

Lemma sub_nan (a b : float) :
  is_nan a = true \/ is_nan b = true -> is_nan (b - a) = true.
Proof.
  intros H. apply NumberOrder.is_nan_Prim2SF. rewrite sub_spec.
  destruct H as [H|H]; apply NumberOrder.is_nan_Prim2SF in H; rewrite H.
  - destruct (Prim2SF b) as [s|s| |s m e]; reflexivity.
  - reflexivity.
Qed.

Lemma add_not_above (a b : float) :
  (0 <? a)%float = false -> (0 <? b)%float = false -> (0 <? a + b)%float = false.
Proof.
  rewrite !FloatAxioms.ltb_spec, add_spec. change (Prim2SF 0) with (S754_zero false).
  intros Ha Hb.
  destruct (Prim2SF a) as [sa|sa| |sa ma ea], (Prim2SF b) as [sb|sb| |sb mb eb];
    try reflexivity;
    try (destruct sa; try discriminate Ha; destruct sb; try discriminate Hb; reflexivity);
    try (destruct sa; try discriminate Ha; reflexivity);
    try (destruct sb; try discriminate Hb; reflexivity).
  destruct sa; [|discriminate Ha]. destruct sb; [|discriminate Hb].
  unfold SF64add. cbn [SFadd cond_Zopp].
  destruct (- Zpos (fst (shl_align ma ea (Z.min ea eb)))
            + - Zpos (fst (shl_align mb eb (Z.min ea eb)))) as [|p|p] eqn:E; try lia.
  cbn [binary_normalize]. unfold binary_round.
  destruct (shl_align p (Z.min ea eb) _) as [mz ez].
  apply Rounding.binary_round_aux_neg.
Qed.

End RoundingOrder.





(** ** The signs of the ratios *)

Module Signs.

Local Open Scope Z_scope.

Import RoundingOrder.

(** A length as a number is not below 0. *)
Lemma of_nat_not_below (n : nat) : (of_nat n <? 0)%float = false.
Proof.
  rewrite FloatAxioms.ltb_spec. unfold of_nat. rewrite of_uint63_spec.
  change (Prim2SF 0) with (S754_zero false).
  pose proof (Uint63.to_Z_bounded (Uint63.of_Z (Z.of_nat n))) as [Hn _].
  destruct (Uint63.to_Z (Uint63.of_Z (Z.of_nat n))) as [|p|p]; [reflexivity| |lia].
  cbn [binary_normalize].
  destruct (binary_round_unfold prec emax false p 0) as [mz [ez [Hu _]]].
  rewrite Hu.
  pose proof (round_aux_signed prec emax false (Zpos mz) ez loc_Exact) as Hs.
  destruct (binary_round_aux prec emax false (Zpos mz) ez loc_Exact) as [s|s| |s m e];
    cbn [signed] in Hs; subst; reflexivity.
Qed.

Lemma of_nat_not_minus_zero (n : nat) : Prim2SF (of_nat n) <> S754_zero true.
Proof.
  unfold of_nat. rewrite of_uint63_spec.
  pose proof (Uint63.to_Z_bounded (Uint63.of_Z (Z.of_nat n))) as [Hn _].
  destruct (Uint63.to_Z (Uint63.of_Z (Z.of_nat n))) as [|p|p]; [discriminate| |lia].
  cbn [binary_normalize].
  destruct (binary_round_unfold prec emax false p 0) as [mz [ez [Hu _]]].
  rewrite Hu.
  pose proof (round_aux_signed prec emax false (Zpos mz) ez loc_Exact) as Hs.
  intros E. rewrite E in Hs. discriminate Hs.
Qed.

(** A number that is not [=== 0] is not [-0]. *)
Lemma guarded_not_minus_zero (a : float) :
  strict_eq a 0 = false -> Prim2SF a <> S754_zero true.
Proof.
  unfold strict_eq. rewrite FloatAxioms.eqb_spec. intros H E. rewrite E in H.
  discriminate H.
Qed.

(** A quotient of a number that is not above 0 by a number that is not below
    0, and not [-0], is not above 0. *)
Lemma div_signs (y a : float) :
  (0 <? y)%float = false -> (a <? 0)%float = false -> Prim2SF a <> S754_zero true ->
  (0 <? y / a)%float = false.
Proof.
  rewrite !FloatAxioms.ltb_spec, div_spec. change (Prim2SF 0) with (S754_zero false).
  intros Hy Ha Hz.
  destruct (Prim2SF y) as [sy|sy| |sy my ey], (Prim2SF a) as [sa|sa| |sa ma ea];
    try reflexivity;
    try (destruct sa; [congruence|]; destruct sy; try discriminate Hy; reflexivity);
    try (destruct sy; try discriminate Hy; destruct sa; try discriminate Ha; reflexivity).
  destruct sy; [|discriminate Hy]. destruct sa; [discriminate Ha|].
  unfold SF64div. cbn [SFdiv xorb].
  destruct (SFdiv_core_binary prec emax (Zpos my) ey (Zpos ma) ea) as [[mz ez] lz].
  apply Rounding.binary_round_aux_neg.
Qed.

(** A number that is not above 0, less a positive number, is not above 0. *)
Lemma sub_positive_not_above (a b : float) :
  (0 <? a)%float = false -> (0 <? b)%float = true -> (0 <? a - b)%float = false.
Proof.
  rewrite !FloatAxioms.ltb_spec, sub_spec. change (Prim2SF 0) with (S754_zero false).
  intros Ha Hb.
  destruct (Prim2SF a) as [sa|sa| |sa ma ea], (Prim2SF b) as [sb|sb| |sb mb eb];
    try reflexivity; try discriminate Hb;
    try (destruct sa; try discriminate Ha; destruct sb; try discriminate Hb; reflexivity);
    try (destruct sb; try discriminate Hb; reflexivity).
  destruct sa; [|discriminate Ha]. destruct sb; [discriminate Hb|].
  unfold SF64sub. cbn [SFsub cond_Zopp].
  destruct (- Zpos (fst (shl_align ma ea (Z.min ea eb)))
            - Zpos (fst (shl_align mb eb (Z.min ea eb)))) as [|p|p] eqn:E; try lia.
  cbn [binary_normalize]. unfold binary_round.
  destruct (shl_align p (Z.min ea eb) _) as [mz ez].
  apply Rounding.binary_round_aux_neg.
Qed.

(** A square root is not below 0. *)
Lemma sqrt_not_below (x : float) : (Math_sqrt x <? 0)%float = false.
Proof.
  unfold Math_sqrt. rewrite FloatAxioms.ltb_spec, sqrt_spec.
  change (Prim2SF 0) with (S754_zero false).
  destruct (Prim2SF x) as [s|s| |s m e].
  - reflexivity.
  - destruct s; reflexivity.
  - reflexivity.
  - destruct s; [reflexivity|]. unfold SF64sqrt. cbn [SFsqrt].
    destruct (SFsqrt_core_binary prec emax (Zpos m) e) as [[mz ez] lz].
    pose proof (round_aux_signed prec emax false mz ez lz) as Hs.
    destruct (binary_round_aux prec emax false mz ez lz) as [s|s| |s m' e'];
      cbn [signed] in Hs; subst; reflexivity.
Qed.

(** A number that is not above 0, times a positive number, is not above 0. *)
Lemma mul_positive_not_above (y c : float) :
  (0 <? y)%float = false -> (0 <? c)%float = true -> (0 <? y * c)%float = false.
Proof.
  rewrite !FloatAxioms.ltb_spec, mul_spec. change (Prim2SF 0) with (S754_zero false).
  intros Hy Hc.
  destruct (Prim2SF y) as [sy|sy| |sy my ey], (Prim2SF c) as [sc|sc| |sc mc ec];
    try reflexivity; try discriminate Hc;
    try (destruct sy; try discriminate Hy; destruct sc; try discriminate Hc; reflexivity).
  destruct sy; [|discriminate Hy]. destruct sc; [discriminate Hc|].
  unfold SF64mul. cbn [SFmul xorb]. apply Rounding.binary_round_aux_neg.
Qed.

End Signs.

(** * No trade of the backtest is a gain *)

Section WinningTrades.

Local Open Scope float_scope.

Lemma ltb_leb_trans a b c : (a <? b) = true -> (b <=? c) = true -> (a <? c) = true.
Proof.
  rewrite NumberOrder.leb_cmp, !NumberOrder.ltb_cmp. unfold NumberOrder.cmp.
  destruct (SFcompare (Prim2SF a) (Prim2SF b)) as [[ | | ]|] eqn:E1; try discriminate;
  destruct (SFcompare (Prim2SF b) (Prim2SF c)) as [[ | | ]|] eqn:E2; try discriminate;
  intros _ _.
  - rewrite (NumberOrder.SFcompare_Eq_r _ _ _ _ E1 E2). reflexivity.
  - rewrite (NumberOrder.SFcompare_trans _ _ _ _ E1 E2). reflexivity.
Qed.

Lemma ltb_nan_r a b : is_nan b = true -> (a <? b) = false.
Proof.
  intros H. apply NumberOrder.is_nan_Prim2SF in H.
  rewrite NumberOrder.ltb_cmp. unfold NumberOrder.cmp. rewrite H.
  destruct (Prim2SF a) as [s|s| |s m e]; reflexivity.
Qed.

Lemma ltb_not_nan a b : (a <? b) = true -> is_nan a = false /\ is_nan b = false.
Proof.
  intros H. split.
  - destruct (is_nan a) eqn:E; [|reflexivity].
    apply NumberOrder.is_nan_Prim2SF in E.
    rewrite NumberOrder.ltb_cmp in H. unfold NumberOrder.cmp in H. rewrite E in H.
    discriminate H.
  - destruct (is_nan b) eqn:E; [|reflexivity].
    rewrite (ltb_nan_r a b E) in H. discriminate H.
Qed.

(** [Math.min] with the stop is not above what the stop is not above. *)
Lemma Math_min_not_above entry stop target :
  (entry <? stop) = false -> (entry <? Math_min stop target) = false.
Proof.
  intros H. unfold Math_min.
  destruct (is_nan stop) eqn:Ns; [apply ltb_nan_r; reflexivity|].
  destruct (is_nan target) eqn:Nt; [apply ltb_nan_r; reflexivity|]. cbn [orb].
  destruct (stop <? target) eqn:E1; [exact H|].
  assert (Hle : (target <=? stop) = true) by (apply NumberOrder.not_ltb_leb; assumption).
  assert (Ht : (entry <? target) = false).
  { destruct (entry <? target) eqn:E; [|reflexivity].
    rewrite (ltb_leb_trans entry target stop E Hle) in H. discriminate H. }
  destruct (target <? stop); [exact Ht|]. destruct (get_sign stop); assumption.
Qed.

(** [Math.max] with the stop is not below what the stop is not below. *)
Lemma Math_max_not_below entry stop target :
  (stop <? entry) = false -> (Math_max stop target <? entry) = false.
Proof.
  intros H. unfold Math_max.
  destruct (is_nan stop) eqn:Ns; [apply ltb_nan_l; reflexivity|].
  destruct (is_nan target) eqn:Nt; [apply ltb_nan_l; reflexivity|]. cbn [orb].
  assert (Ht : (stop <=? target) = true -> (target <? entry) = false).
  { intros Hle. destruct (target <? entry) eqn:E; [|reflexivity].
    rewrite (NumberOrder.leb_ltb_trans stop target entry Hle E) in H. discriminate H. }
  destruct (stop <? target) eqn:E1.
  - apply Ht. apply NumberOrder.ltb_leb. exact E1.
  - destruct (target <? stop) eqn:E2; [exact H|].
    destruct (get_sign stop); [|exact H].
    apply Ht. apply NumberOrder.not_ltb_leb; assumption.
Qed.

(** The stop of a long position is not above the entry price, the stop of a
    short position is not below it. *)
Lemma long_stop_not_above strategy entry :
  (0 <=? stopLossPercentage strategy) = true -> (0 <? entry) = true ->
  (entry <? stopLossPrice strategy 1 entry) = false.
Proof.
  intros Hs He. unfold stopLossPrice. change (strict_eq 1 1) with true. cbv iota.
  apply RoundingOrder.mul_le_self; [exact He|].
  apply RoundingOrder.one_minus_le. apply RoundingOrder.percent_nonneg. exact Hs.
Qed.

Lemma short_stop_not_below strategy entry :
  (0 <=? stopLossPercentage strategy) = true -> (0 <? entry) = true ->
  (stopLossPrice strategy (-1) entry <? entry) = false.
Proof.
  intros Hs He. unfold stopLossPrice. change (strict_eq (-1) 1) with false. cbv iota.
  apply RoundingOrder.mul_ge_self; [exact He|].
  apply RoundingOrder.one_plus_ge. apply RoundingOrder.percent_nonneg. exact Hs.
Qed.

(** The return of a long trade closed at a price that is not above the entry
    price, and of a short trade closed at a price that is not below it. *)
Lemma long_return_not_positive entry exit_ :
  (0 <? entry) = true -> (entry <? exit_) = false ->
  (0 <? tradeReturn 1 exit_ entry) = false.
Proof.
  intros He H. unfold tradeReturn.
  apply RoundingOrder.div_not_above; [|exact He]. apply RoundingOrder.mul_one_not_above.
  destruct (ltb_not_nan _ _ He) as [_ Ne].
  destruct (is_nan exit_) eqn:Nx.
  - apply ltb_nan_r. apply RoundingOrder.sub_nan. right. exact Nx.
  - rewrite Rounding.sub_positive by assumption. exact H.
Qed.

Lemma short_return_not_positive entry exit_ :
  (0 <? entry) = true -> (exit_ <? entry) = false ->
  (0 <? tradeReturn (-1) exit_ entry) = false.
Proof.
  intros He H. unfold tradeReturn.
  apply RoundingOrder.div_not_above; [|exact He].
  apply RoundingOrder.mul_minus_one_not_above.
  destruct (ltb_not_nan _ _ He) as [_ Ne].
  destruct (is_nan exit_) eqn:Nx.
  - apply ltb_nan_l. apply RoundingOrder.sub_nan. right. exact Nx.
  - rewrite RoundingOrder.sub_negative by assumption. exact H.
Qed.

(** A return that is not a gain. *)
Definition noGain (r : number) : Prop := (0 <? r) = false.

(** A flat position, or a long or short one that was entered at a positive
    price. *)
Definition entered (st : SimState) : Prop :=
  position st = 0
  \/ ((position st = 1 \/ position st = -1) /\ (0 <? entryPrice st) = true).

Lemma simulateBar_noGain strategy historicalData i currentData st :
  (0 <=? stopLossPercentage strategy) = true ->
  (0 <? close currentData) = true ->
  entered st -> Forall noGain (returns st) ->
  entered (simulateBar strategy historicalData i currentData st)
  /\ Forall noGain (returns (simulateBar strategy historicalData i currentData st)).
Proof.
  intros Hs Hc Hst Hret. unfold simulateBar.
  destruct Hst as [H|[[H|H] He]]; rewrite H.
  - change (strict_eq 0 0) with true. cbv iota.
    set (sma20 := calculateSMA (slice historicalData (Nat.max 0 (i - 20)) (i + 1))).
    set (sma50 := calculateSMA (slice historicalData (Nat.max 0 (i - 50)) (i + 1))).
    destruct (gt sma20 sma50); [|destruct (sma20 <? sma50)];
      cbn [position entryPrice returns].
    + split; [right; auto|exact Hret].
    + split; [right; auto|exact Hret].
    + split; [left; exact H|exact Hret].
  - change (strict_eq 1 0) with false. cbv iota.
    destruct (exitTouched _ _ _ _); cbn [position entryPrice returns].
    + split; [left; reflexivity|]. apply Forall_app. split; [exact Hret|].
      constructor; [|constructor]. unfold exitPrice. change (strict_eq 1 1) with true.
      cbv iota. apply long_return_not_positive; [exact He|].
      apply Math_min_not_above. apply long_stop_not_above; assumption.
    + split; [right; auto|exact Hret].
  - change (strict_eq (-1) 0) with false. cbv iota.
    destruct (exitTouched _ _ _ _); cbn [position entryPrice returns].
    + split; [left; reflexivity|]. apply Forall_app. split; [exact Hret|].
      constructor; [|constructor]. unfold exitPrice.
      change (strict_eq (-1) 1) with false. cbv iota.
      apply short_return_not_positive; [exact He|].
      apply Math_max_not_below. apply short_stop_not_below; assumption.
    + split; [right; auto|exact Hret].
Qed.

Lemma simulateFrom_noGain strategy historicalData n i st st' :
  (0 <=? stopLossPercentage strategy) = true ->
  Forall (fun bar => (0 <? close bar) = true) historicalData ->
  entered st -> Forall noGain (returns st) ->
  simulateFrom strategy historicalData n i st = Ok st' ->
  Forall noGain (returns st').
Proof.
  intros Hs Hbars. revert i st. induction n as [|n IH]; intros i st Hst Hret H.
  - simpl in H. injection H as <-. exact Hret.
  - cbn [simulateFrom] in H.
    destruct (nth_error historicalData i) as [d|] eqn:E; [|discriminate].
    assert (Hd : (0 <? close d) = true).
    { rewrite Forall_forall in Hbars. apply Hbars. eapply nth_error_In. exact E. }
    destruct (simulateBar_noGain strategy historicalData i d st Hs Hd Hst Hret) as [H1 H2].
    eapply IH; eassumption.
Qed.

Lemma fold_sum_not_above (returns : list number) acc :
  noGain acc -> Forall noGain returns ->
  noGain (fold_left (fun a b => a + b) returns acc).
Proof.
  intros Hacc H. revert acc Hacc. induction H as [|r returns Hr _ IH]; intros acc Hacc.
  - exact Hacc.
  - cbn [fold_left]. apply IH. apply RoundingOrder.add_not_above; assumption.
Qed.

Lemma zero_div_not_above x : (0 <? 0 / x) = false.
Proof.
  rewrite FloatAxioms.ltb_spec, div_spec. change (Prim2SF 0) with (S754_zero false).
  destruct (Prim2SF x) as [s|s| |s m e]; try reflexivity; destruct s; reflexivity.
Qed.

Lemma fold_drawdown_not_below (returns : list number) st :
  (dd_max st <? 0) = false ->
  (dd_max (fold_left drawdownStep returns st) <? 0) = false.
Proof.
  revert st. induction returns as [|r returns IH]; intros st H; [exact H|].
  cbn [fold_left]. apply IH. unfold drawdownStep. cbn [dd_max].
  apply Math_max_not_below. exact H.
Qed.

(** The Sharpe and the Sortino ratio: [dev === 0 ? 0 : (avg - 0.02 / 252) /
    dev * Math.sqrt(252)] for a square root [dev]. *)
Lemma ratio_not_above avg x :
  (0 <? avg) = false ->
  (0 <? (if strict_eq (Math_sqrt x) 0 then 0
         else (avg - riskFreeRate / 252) / Math_sqrt x * Math_sqrt 252)) = false.
Proof.
  intros Havg. destruct (strict_eq (Math_sqrt x) 0) eqn:E; [reflexivity|].
  apply Signs.mul_positive_not_above; [|vm_compute; reflexivity].
  apply Signs.div_signs;
    [|apply Signs.sqrt_not_below|apply Signs.guarded_not_minus_zero; exact E].
  apply Signs.sub_positive_not_above; [exact Havg|vm_compute; reflexivity].
Qed.

(** Returns without a gain give a total return, a win rate and three ratios
    that are not above 0. *)
Lemma metrics_noGain (returns : list number) :
  Forall noGain returns ->
  gt (m_totalReturn (calculateMetrics returns)) 0 = false
  /\ gt (m_winRate (calculateMetrics returns)) 0 = false
  /\ gt (m_sharpeRatio (calculateMetrics returns)) 0 = false
  /\ gt (m_sortinoRatio (calculateMetrics returns)) 0 = false
  /\ gt (m_calmarRatio (calculateMetrics returns)) 0 = false.
Proof.
  intros Hret.
  assert (Htotal : (0 <? fold_left (fun a b => a + b) returns 0) = false)
    by (apply fold_sum_not_above; [reflexivity|exact Hret]).
  assert (Havg : (0 <? fold_left (fun a b => a + b) returns 0
                       / of_nat (List.length returns)) = false).
  { apply Signs.div_signs;
      [exact Htotal|apply Signs.of_nat_not_below|apply Signs.of_nat_not_minus_zero]. }
  unfold calculateMetrics. cbv zeta.
  cbn [m_totalReturn m_winRate m_sharpeRatio m_sortinoRatio m_calmarRatio].
  split; [exact Htotal|]. split; [|split; [|split]].
  - rewrite (filter_none _ (fun r => gt r 0) returns).
    + cbn [List.length]. change (of_nat 0) with 0. apply zero_div_not_above.
    + rewrite Forall_forall in Hret. exact Hret.
  - apply ratio_not_above. exact Havg.
  - apply ratio_not_above. exact Havg.
  - unfold gt. destruct (strict_eq _ 0) eqn:E; [reflexivity|].
    apply Signs.div_signs.
    + apply Signs.mul_positive_not_above; [exact Havg|vm_compute; reflexivity].
    + apply fold_drawdown_not_below. reflexivity.
    + apply Signs.guarded_not_minus_zero. exact E.
Qed.

(** X17: no trade that the backtest closes is a gain, for a stop-loss
    percentage that is not negative and bars with positive closing prices.
    An exit is booked at [Math.min(stopLoss, takeProfit)] for a long position
    and at [Math.max(stopLoss, takeProfit)] for a short one, whichever of the
    two levels the bar touched; the stop of a long position is not above the
    entry price and the stop of a short position is not below it.  No return
    is above 0, and none of the total return, the win rate, the Sharpe, the
    Sortino and the Calmar ratio is above 0. *)
Theorem no_winning_trade strategy historicalData :
  (0 <=? stopLossPercentage strategy) = true ->
  Forall (fun bar => (0 <? close bar) = true) historicalData ->
  exists st,
    simulate strategy historicalData = Ok st
    /\ Forall noGain (returns st)
    /\ evaluateStrategy strategy historicalData
       = Ok {| parameters := strategy; metrics := calculateMetrics (returns st) |}
    /\ gt (m_totalReturn (calculateMetrics (returns st))) 0 = false
    /\ gt (m_winRate (calculateMetrics (returns st))) 0 = false
    /\ gt (m_sharpeRatio (calculateMetrics (returns st))) 0 = false
    /\ gt (m_sortinoRatio (calculateMetrics (returns st))) 0 = false
    /\ gt (m_calmarRatio (calculateMetrics (returns st))) 0 = false.
Proof.
  intros Hs Hbars.
  destruct (simulate_returns strategy historicalData) as [st Hst].
  assert (Hret : Forall noGain (returns st)).
  { unfold simulate in Hst.
    eapply simulateFrom_noGain; [exact Hs|exact Hbars| | |exact Hst].
    - left. reflexivity.
    - constructor. }
  exists st. split; [exact Hst|]. split; [exact Hret|]. split.
  - unfold evaluateStrategy. rewrite Hst. reflexivity.
  - apply metrics_noGain. exact Hret.
Qed.

Lemma no_winning_trade_witness :
  exists st,
    simulate scenarioStrategy scenarioBars = Ok st
    /\ Forall noGain (returns st)
    /\ evaluateStrategy scenarioStrategy scenarioBars
       = Ok {| parameters := scenarioStrategy; metrics := calculateMetrics (returns st) |}
    /\ gt (m_totalReturn (calculateMetrics (returns st))) 0 = false
    /\ gt (m_winRate (calculateMetrics (returns st))) 0 = false
    /\ gt (m_sharpeRatio (calculateMetrics (returns st))) 0 = false
    /\ gt (m_sortinoRatio (calculateMetrics (returns st))) 0 = false
    /\ gt (m_calmarRatio (calculateMetrics (returns st))) 0 = false.
Proof.
  apply (no_winning_trade scenarioStrategy scenarioBars).
  - reflexivity.
  - unfold scenarioBars. repeat constructor.
Defined.

End WinningTrades.

(** * A redraw between the two ends of a bound

    [randomInRange] computes [min + r * (max - min)] with three roundings.
    For [0 <= min <= max] and a draw below 1 the result does not leave the
    bound: the rounded difference is at most one unit above the difference,
    and the product with a draw below 1 falls back by at least that unit. *)

Module Interpolation.

Local Open Scope Z_scope.

Section Format.

Variable prec emax : Z.
Hypothesis prec_pos : 0 < prec.
Hypothesis emin_nonpos : SpecFloat.emin prec emax <= 0.

Abbreviation emin := (SpecFloat.emin prec emax).
Abbreviation fexp := (SpecFloat.fexp prec emax).

Ltac pow_split e a b :=
  replace (2 ^ e) with (2 ^ a * 2 ^ b)
    by (rewrite <- Z.pow_add_r by lia; f_equal; lia).

(** Two scaled values compare the same at every exponent below them. *)
Lemma rebase A e1 B e2 b c :
  b <= c -> c <= e1 -> c <= e2 ->
  A * 2 ^ (e1 - b) <= B * 2 ^ (e2 - b) <-> A * 2 ^ (e1 - c) <= B * 2 ^ (e2 - c).
Proof.
  intros Hb H1 H2.
  pow_split (e1 - b) (e1 - c) (c - b). pow_split (e2 - b) (e2 - c) (c - b).
  rewrite !Z.mul_assoc. symmetry. apply Z.mul_le_mono_pos_r.
  apply Z.pow_pos_nonneg; lia.
Qed.

Lemma finish_finite s m2 e2 m e :
  RoundingOrder.finish prec emax s m2 e2 = S754_finite s m e ->
  m2 = Zpos m /\ e2 = e /\ e <= emax - prec.
Proof.
  unfold RoundingOrder.finish. destruct m2; try discriminate.
  destruct (e2 <=? emax - prec) eqn:E; [|discriminate].
  intros H. injection H as <- <-. apply Z.leb_le in E. auto.
Qed.

Lemma quotient_lt M e :
  0 < M -> e <= fexp (Zdigits2 M + e) ->
  M / 2 ^ (fexp (Zdigits2 M + e) - e) < 2 ^ prec.
Proof.
  intros HM He. destruct (Z.eq_dec (fexp (Zdigits2 M + e)) e) as [E|E].
  - rewrite E, Z.sub_diag. change (2 ^ 0) with 1. rewrite Z.div_1_r.
    pose proof (RoundingOrder.Zdigits2_bounds M HM) as [_ Hlt].
    eapply Z.lt_le_trans; [exact Hlt|]. apply Z.pow_le_mono_r; [lia|].
    unfold SpecFloat.fexp in E. lia.
  - apply (RoundingOrder.quotient_bounds prec emax prec_pos M e HM). lia.
Qed.

(** Rounding to nearest moves a quotient up by one at most. *)
Lemma round_up_le M K m1 :
  0 < K -> 0 <= M -> 2 * (m1 * K) <= 2 * M + K -> m1 <= M / K + 1.
Proof.
  intros HK HM H. pose proof (Z.div_mod M K ltac:(lia)) as E.
  pose proof (Z.mod_pos_bound M K HK) as B. nia.
Qed.

(** The product of a factor below 1 with a difference that was rounded up
    from [q] to [q + 1] units rounds to [q] units or less. *)
Lemma round_up_arith P q G Kp H T mr md m1p :
  0 < P -> P <= 2 * q -> 1 <= G -> 0 < Kp -> 0 < H -> 0 <= mr -> 0 <= md ->
  md * H = q + 1 -> T = Kp * G * H -> mr * P <= (P - 1) * T ->
  2 * (m1p * Kp) <= 2 * (mr * md) + Kp -> m1p <= P ->
  m1p <= q * G.
Proof.
  intros HP Hq HG HK HH Hmr Hmd E ET Hr Hhalf Hm.
  assert (E1 : 2 * (mr * P) * md <= 2 * ((P - 1) * T) * md) by nia.
  assert (E2 : T * md = Kp * (G * (q + 1))) by (subst T; nia).
  assert (E3 : P * (2 * (m1p * Kp)) <= P * (2 * (mr * md) + Kp)) by nia.
  assert (E4 : Kp * (2 * P * m1p) <= Kp * (2 * (P - 1) * (G * (q + 1)) + P)) by nia.
  apply Z.mul_le_mono_pos_l in E4; [|exact HK].
  assert (E5 : P < 2 * (G * (q + 1))) by nia.
  assert (E6 : m1p < G * (q + 1)) by nia.
  destruct (Z.eq_dec G 1) as [->|]; [lia|]. nia.
Qed.

(** The product of a factor below 1 with the rounded difference [d] of two
    numbers is at most the difference itself: [D * 2 ^ ez] is the exact
    difference, [d] its rounding and [p] the rounded product. *)
Lemma interpolation_step (D : positive) ez (md : positive) ed (mr : positive) er
    (mp : positive) ep c :
  emin <= ez ->
  binary_round prec emax false D ez = S754_finite false md ed ->
  canonical_mantissa prec emax md ed = true ->
  canonical_mantissa prec emax mr er = true -> er <= - prec ->
  binary_round_aux prec emax false (Zpos (mr * md)) (er + ed) loc_Exact
  = S754_finite false mp ep ->
  canonical_mantissa prec emax mp ep = true ->
  c <= ez -> c <= ep ->
  Zpos mp * 2 ^ (ep - c) <= Zpos D * 2 ^ (ez - c).
Proof.
  intros Hez Hd Cd Cr Her Hp Cp Hc1 Hc2.
  destruct (RoundingOrder.binary_round_unfold prec emax false D ez)
    as [mz [ez' [Hu [Hez' [Hmz Hle]]]]].
  rewrite Hu in Hd.
  destruct (RoundingOrder.round_aux_uniform prec emax prec_pos false (Zpos mz) ez'
              ltac:(lia) Hle)
    as [m1 [m2 [e2 [Hf [Hm2 [HF [Hm1 [Hq [Hhalf _]]]]]]]]].
  rewrite Hf in Hd. apply finish_finite in Hd. destruct Hd as [-> [-> Hed]].
  remember (fexp (Zdigits2 (Zpos mz) + ez')) as F eqn:EF in *.
  pose proof (RoundingOrder.product_exponent prec emax emin_nonpos mr er md ed Cr Cd)
    as HEp.
  pose proof Hp as Hp0.
  destruct (RoundingOrder.round_aux_uniform prec emax prec_pos false (Zpos (mr * md))
              (er + ed) ltac:(lia) HEp)
    as [m1p [m2p [e2p [Hfp [Hm2p [HFp [Hm1p [Hqp [Hhalfp _]]]]]]]]].
  rewrite Hfp in Hp. apply finish_finite in Hp. destruct Hp as [-> [-> Hep]].
  remember (fexp (Zdigits2 (Zpos (mr * md)) + (er + ed))) as Fp eqn:EFp in *.
  assert (Hemin' : emin <= ez' <= ez).
  { pose proof (Rounding.fexp_ge_emin prec emax (Zpos (digits2_pos D) + ez)). lia. }
  clear Hez'.
  assert (Hmr : Zpos mr < 2 ^ prec).
  { destruct (Rounding.canonical_bounds prec emax mr er Cr) as [_ [Hdig _]].
    pose proof (Rounding.digits2_pos_bounds mr) as [_ Hlt].
    eapply Z.lt_le_trans; [exact Hlt|]. apply Z.pow_le_mono_r; lia. }
  assert (Hb : exists b, b <= c /\ b <= er + ed /\ b <= ez').
  { exists (Z.min c (Z.min (er + ed) ez')). lia. }
  destruct Hb as [b [Hbc [Hbp Hbz]]].
  apply (proj1 (rebase (Zpos mp) ep (Zpos D) ez b c ltac:(lia) Hc2 Hc1)).
  assert (HD : Zpos D * 2 ^ (ez - b) = Zpos mz * 2 ^ (ez' - b)).
  { rewrite Hmz, <- Z.mul_assoc. f_equal.
    rewrite <- Z.pow_add_r by lia. f_equal. lia. }
  rewrite HD.
  assert (Hmd : Zpos md * 2 ^ (ed - b) = m1 * 2 ^ (F - b)).
  { rewrite <- Hm1, <- Z.mul_assoc. f_equal.
    rewrite <- Z.pow_add_r by lia. f_equal. lia. }
  assert (HK : 0 < 2 ^ (F - ez')) by (apply Z.pow_pos_nonneg; lia).
  destruct (Z_le_gt_dec (m1 * 2 ^ (F - ez')) (Zpos mz)) as [Hdown|Hup].
  - (* the difference was not rounded up *)
    assert (Hle' : SFleb (S754_finite false mp ep) (S754_finite false md ed) = true).
    { rewrite <- Hp0.
      apply (RoundingOrder.round_aux_le prec emax prec_pos _ _ md ed (er + ed));
        try assumption; try lia.
      rewrite Z.sub_diag, Z.mul_1_r, Pos2Z.inj_mul.
      replace (ed - (er + ed)) with (- er) by lia.
      rewrite Z.mul_comm. apply Z.mul_le_mono_nonneg_l; [lia|].
      apply Z.lt_le_incl. eapply Z.lt_le_trans; [exact Hmr|].
      apply Z.pow_le_mono_r; lia. }
    unfold SFleb in Hle'.
    rewrite (RoundingOrder.SFcompare_scaled prec emax prec_pos mp ep md ed b Cp Cd)
      in Hle' by lia.
    assert (Hle2 : Zpos mp * 2 ^ (ep - b) <= Zpos md * 2 ^ (ed - b)).
    { destruct (Z.compare_spec (Zpos mp * 2 ^ (ep - b)) (Zpos md * 2 ^ (ed - b)));
        try lia; discriminate. }
    eapply Z.le_trans; [exact Hle2|]. rewrite Hmd.
    pow_split (F - b) (F - ez') (ez' - b). rewrite Z.mul_assoc.
    apply Z.mul_le_mono_nonneg_r; [apply Z.pow_nonneg; lia|exact Hdown].
  - (* the difference was rounded up by one unit *)
    remember (Zpos mz / 2 ^ (F - ez')) as q eqn:Eq in *.
    assert (Hk : 0 < F - ez').
    { destruct (Z.eq_dec F ez') as [E|E]; [|lia].
      rewrite E, Z.sub_diag in Hhalf, Hup. change (2 ^ 0) with 1 in Hhalf, Hup. lia. }
    assert (Hqm : q * 2 ^ (F - ez') <= Zpos mz).
    { rewrite Eq, Z.mul_comm. apply Z.mul_div_le. exact HK. }
    assert (Hm1q : m1 = q + 1).
    { pose proof (round_up_le (Zpos mz) (2 ^ (F - ez')) m1 HK ltac:(lia) Hhalf).
      rewrite <- Eq in H. nia. }
    pose proof Hk as Hk'. rewrite EF in Hk'.
    destruct (RoundingOrder.quotient_bounds prec emax prec_pos (Zpos mz) ez'
                (Pos2Z.is_pos mz) Hk') as [[_ Hq1] Hq2].
    rewrite <- EF in Hq1, Hq2. rewrite <- Eq in Hq1, Hq2.
    assert (HeminF : emin < F) by (clear - Hk Hemin'; lia).
    specialize (Hq2 HeminF).
    assert (Hm1p_le : m1p <= 2 ^ prec).
    { assert (HKp : 0 < 2 ^ (Fp - (er + ed))) by (apply Z.pow_pos_nonneg; lia).
      pose proof (round_up_le (Zpos (mr * md)) (2 ^ (Fp - (er + ed))) m1p HKp
                    ltac:(lia) Hhalfp).
      pose proof HEp as HEp'. rewrite EFp in HEp'.
      pose proof (quotient_lt (Zpos (mr * md)) (er + ed) (Pos2Z.is_pos _) HEp').
      rewrite <- EFp in H0. clear - H H0. lia. }
    assert (Hh : ed - F <= prec).
    { apply (Z.pow_le_mono_r_iff 2); [lia|lia|].
      assert (0 < 2 ^ (ed - F)) by (apply Z.pow_pos_nonneg; lia). nia. }
    assert (HT : 2 ^ prec <= 2 ^ (- er)) by (apply Z.pow_le_mono_r; lia).
    assert (HFp_le : Fp <= F).
    { rewrite EFp.
      eapply Z.le_trans; [apply (RoundingOrder.fexp_mono prec emax _ (prec + F))|].
      - assert (Zdigits2 (Zpos (mr * md)) <= prec + F - (er + ed)); [|lia].
        apply RoundingOrder.Zdigits2_le; [lia|].
        rewrite Pos2Z.inj_mul.
        pow_split (prec + F - (er + ed)) prec (F - (er + ed)).
        assert (E : Zpos md * 2 ^ (- er) = (q + 1) * 2 ^ (F - (er + ed))).
        { rewrite <- Hm1q, <- Hm1, <- Z.mul_assoc. f_equal.
          rewrite <- Z.pow_add_r by lia. f_equal. lia. }
        apply Z.lt_le_trans with (Zpos md * 2 ^ (- er)).
        + rewrite Z.mul_comm. apply Z.mul_lt_mono_pos_l; lia.
        + rewrite E. apply Z.mul_le_mono_nonneg_r; [apply Z.pow_nonneg|]; lia.
      - unfold SpecFloat.fexp.
        pose proof (Rounding.fexp_ge_emin prec emax (Zdigits2 (Zpos mz) + ez')).
        rewrite <- EF in H. lia. }
    assert (Hgoal : m1p <= q * 2 ^ (F - Fp)).
    { apply (round_up_arith (2 ^ prec) q (2 ^ (F - Fp)) (2 ^ (Fp - (er + ed)))
               (2 ^ (ed - F)) (2 ^ (- er)) (Zpos mr) (Zpos md) m1p).
      - apply Z.pow_pos_nonneg; lia.
      - replace prec with (1 + (prec - 1)) at 1 by lia.
        rewrite Z.pow_add_r by lia. change (2 ^ 1) with 2. lia.
      - assert (0 < 2 ^ (F - Fp)) by (apply Z.pow_pos_nonneg; lia). lia.
      - apply Z.pow_pos_nonneg; lia.
      - apply Z.pow_pos_nonneg; lia.
      - lia.
      - lia.
      - rewrite Hm1. exact Hm1q.
      - rewrite <- !Z.pow_add_r by lia. f_equal. lia.
      - assert (0 < 2 ^ prec) by (apply Z.pow_pos_nonneg; lia).
        apply Z.le_trans with ((2 ^ prec - 1) * 2 ^ prec).
        + apply Z.mul_le_mono_nonneg_r; lia.
        + apply Z.mul_le_mono_nonneg_l; lia.
      - rewrite <- Pos2Z.inj_mul. exact Hhalfp.
      - exact Hm1p_le. }
    assert (Hmp : Zpos mp * 2 ^ (ep - b) = m1p * 2 ^ (Fp - b)).
    { rewrite <- Hm1p, <- Z.mul_assoc. f_equal.
      rewrite <- Z.pow_add_r by lia. f_equal. lia. }
    rewrite Hmp.
    eapply Z.le_trans;
      [apply Z.mul_le_mono_nonneg_r; [apply Z.pow_nonneg; lia|exact Hgoal]|].
    rewrite <- Z.mul_assoc, <- Z.pow_add_r by lia.
    replace (F - Fp + (Fp - b)) with ((F - ez') + (ez' - b)) by lia.
    rewrite (Z.pow_add_r 2 (F - ez') (ez' - b)) by lia. rewrite Z.mul_assoc.
    apply Z.mul_le_mono_nonneg_r; [apply Z.pow_nonneg; lia|exact Hqm].
Qed.

End Format.

(** Binary64. *)

Lemma round_kind (D : positive) ez bound :
  SFleb (binary_round prec emax false D ez) bound = true ->
  (exists mb eb, bound = S754_finite false mb eb) ->
  (exists s, binary_round prec emax false D ez = S754_zero s)
  \/ exists md ed, binary_round prec emax false D ez = S754_finite false md ed.
Proof.
  intros Hle [mb [eb ->]].
  destruct (RoundingOrder.binary_round_unfold prec emax false D ez)
    as [mz [ez' [Hu _]]].
  pose proof (RoundingOrder.round_aux_signed prec emax false (Zpos mz) ez' loc_Exact) as Hs.
  pose proof (RoundingOrder.round_aux_not_nan prec emax false (Zpos mz) ez' loc_Exact
                ltac:(lia)) as Hn.
  rewrite <- Hu in Hs, Hn.
  destruct (binary_round prec emax false D ez) as [s|s| |s md ed];
    cbn [RoundingOrder.signed] in Hs.
  - left. exists s. reflexivity.
  - subst s. discriminate Hle.
  - congruence.
  - subst s. right. exists md, ed. reflexivity.
Qed.

(** The difference of two positive numbers in order: zero, or the rounding
    of the exact difference [D * 2 ^ ez]. *)
Lemma difference (lo hi : float) ml el mh eh :
  Prim2SF lo = S754_finite false ml el ->
  Prim2SF hi = S754_finite false mh eh ->
  (lo <=? hi)%float = true ->
  (exists s, Prim2SF (hi - lo) = S754_zero s)
  \/ exists (D md : positive) ed,
       Zpos D = Zpos mh * 2 ^ (eh - Z.min eh el) - Zpos ml * 2 ^ (el - Z.min eh el)
       /\ binary_round prec emax false D (Z.min eh el) = S754_finite false md ed
       /\ Prim2SF (hi - lo) = S754_finite false md ed.
Proof.
  intros Elo Ehi Hle.
  destruct (RoundingOrder.valid_canonical lo _ _ _ Elo) as [Cl Bl].
  destruct (RoundingOrder.valid_canonical hi _ _ _ Ehi) as [Ch Bh].
  rewrite FloatAxioms.leb_spec, Elo, Ehi in Hle. unfold SFleb in Hle.
  rewrite (RoundingOrder.SFcompare_scaled prec emax RoundingOrder.prec_pos
             ml el mh eh (Z.min eh el) Cl Ch) in Hle by lia.
  assert (Hord : Zpos ml * 2 ^ (el - Z.min eh el) <= Zpos mh * 2 ^ (eh - Z.min eh el)).
  { destruct (Z.compare_spec (Zpos ml * 2 ^ (el - Z.min eh el))
                (Zpos mh * 2 ^ (eh - Z.min eh el))); try lia; discriminate. }
  rewrite sub_spec, Elo, Ehi. unfold SF64sub. cbn [SFsub cond_Zopp].
  rewrite !Rounding.shl_align_value by lia.
  destruct (Zpos mh * 2 ^ (eh - Z.min eh el) - Zpos ml * 2 ^ (el - Z.min eh el))
    as [|D|D] eqn:ED; [| |lia].
  - left. exists false. reflexivity.
  - cbn [binary_normalize].
    assert (Hb : SFleb (binary_round prec emax false D (Z.min eh el))
                   (S754_finite false mh eh) = true).
    { apply (RoundingOrder.binary_round_le prec emax RoundingOrder.prec_pos
               D (Z.min eh el) mh eh (Z.min eh el)); try assumption; try lia.
      rewrite Z.sub_diag, Z.mul_1_r. lia. }
    destruct (round_kind D (Z.min eh el) _ Hb ltac:(eauto)) as [[s E]|[md [ed E]]];
      rewrite E.
    + left. exists s. reflexivity.
    + right. exists D, md, ed. auto.
Qed.

(** The product of a draw below 1 with a positive number [d]: zero, or a
    positive number that is at most [d]. *)
Lemma product_below (r d : float) mr er md ed :
  Prim2SF r = S754_finite false mr er -> er <= -53 -> Zpos mr < 2 ^ 53 ->
  Prim2SF d = S754_finite false md ed ->
  (exists s, Prim2SF (r * d) = S754_zero s)
  \/ exists mp ep,
       Prim2SF (r * d) = S754_finite false mp ep
       /\ binary_round_aux prec emax false (Zpos (mr * md)) (er + ed) loc_Exact
          = S754_finite false mp ep
       /\ SFleb (S754_finite false mp ep) (S754_finite false md ed) = true.
Proof.
  intros Er Her Hmr Ed.
  destruct (RoundingOrder.valid_canonical r _ _ _ Er) as [Cr Br].
  destruct (RoundingOrder.valid_canonical d _ _ _ Ed) as [Cd Bd].
  rewrite mul_spec, Er, Ed. unfold SF64mul. cbn [SFmul xorb].
  assert (Hle : SFleb (binary_round_aux prec emax false (Zpos (mr * md)) (er + ed)
                         loc_Exact) (S754_finite false md ed) = true).
  { apply (RoundingOrder.round_aux_le prec emax RoundingOrder.prec_pos
             (Zpos (mr * md)) (er + ed) md ed (er + ed)); try assumption; try lia.
    - apply RoundingOrder.product_exponent;
        [exact RoundingOrder.emin_nonpos|exact Cr|exact Cd].
    - rewrite Z.sub_diag, Z.mul_1_r, Pos2Z.inj_mul.
      replace (ed - (er + ed)) with (- er) by lia.
      rewrite Z.mul_comm. apply Z.mul_le_mono_nonneg_l; [lia|].
      apply Z.lt_le_incl. eapply Z.lt_le_trans; [exact Hmr|].
      apply Z.pow_le_mono_r; lia. }
  pose proof (RoundingOrder.round_aux_signed prec emax false (Zpos (mr * md)) (er + ed)
                loc_Exact) as Hs.
  pose proof (RoundingOrder.round_aux_not_nan prec emax false (Zpos (mr * md)) (er + ed)
                loc_Exact ltac:(lia)) as Hn.
  destruct (binary_round_aux prec emax false (Zpos (mr * md)) (er + ed) loc_Exact)
    as [s|s| |s mp ep]; cbn [RoundingOrder.signed] in Hs.
  - left. exists s. reflexivity.
  - subst s. discriminate Hle.
  - congruence.
  - subst s. right. exists mp, ep. auto.
Qed.

(** The sum of a positive number [lo] and a positive number [p] that is at
    most the exact difference to [hi] lies between [lo] and [hi]. *)
Lemma sum_between (lo hi p : float) ml el mh eh mp ep (D : positive) :
  Prim2SF lo = S754_finite false ml el ->
  Prim2SF hi = S754_finite false mh eh ->
  Prim2SF p = S754_finite false mp ep ->
  Zpos D = Zpos mh * 2 ^ (eh - Z.min eh el) - Zpos ml * 2 ^ (el - Z.min eh el) ->
  (forall c, c <= Z.min eh el -> c <= ep ->
             Zpos mp * 2 ^ (ep - c) <= Zpos D * 2 ^ (Z.min eh el - c)) ->
  (lo <=? lo + p)%float = true /\ (lo + p <=? hi)%float = true.
Proof.
  intros Elo Ehi Ep ED Hp.
  destruct (RoundingOrder.valid_canonical lo _ _ _ Elo) as [Cl Bl].
  destruct (RoundingOrder.valid_canonical hi _ _ _ Ehi) as [Ch Bh].
  rewrite !FloatAxioms.leb_spec, add_spec, Elo, Ehi, Ep.
  unfold SF64add. cbn [SFadd cond_Zopp].
  rewrite !Rounding.shl_align_value by lia.
  set (ez2 := Z.min el ep).
  assert (Hl : 0 < Zpos ml * 2 ^ (el - ez2))
    by (apply Z.mul_pos_pos; [lia|apply Z.pow_pos_nonneg; lia]).
  assert (Hq : 0 < Zpos mp * 2 ^ (ep - ez2))
    by (apply Z.mul_pos_pos; [lia|apply Z.pow_pos_nonneg; lia]).
  destruct (Zpos ml * 2 ^ (el - ez2) + Zpos mp * 2 ^ (ep - ez2)) as [|S|S] eqn:ES;
    [lia| |lia].
  cbn [binary_normalize]. split.
  - apply (RoundingOrder.binary_round_ge prec emax RoundingOrder.prec_pos
             S ez2 ml el ez2); try assumption; try lia.
    rewrite Z.sub_diag, Z.mul_1_r, <- ES. lia.
  - set (c := Z.min ez2 eh).
    apply (RoundingOrder.binary_round_le prec emax RoundingOrder.prec_pos
             S ez2 mh eh c); try assumption; try lia.
    specialize (Hp c ltac:(lia) ltac:(lia)).
    rewrite <- ES, Z.mul_add_distr_r, <- !Z.mul_assoc, <- !Z.pow_add_r by lia.
    replace (el - ez2 + (ez2 - c)) with (el - c) by lia.
    replace (ep - ez2 + (ez2 - c)) with (ep - c) by lia.
    eapply Z.le_trans; [apply Z.add_le_mono_l; exact Hp|].
    rewrite ED, Z.mul_sub_distr_r, <- !Z.mul_assoc, <- !Z.pow_add_r by lia.
    replace (eh - Z.min eh el + (Z.min eh el - c)) with (eh - c) by lia.
    replace (el - Z.min eh el + (Z.min eh el - c)) with (el - c) by lia.
    lia.
Qed.

End Interpolation.

Section RedrawWithinBound.

Local Open Scope float_scope.

(** A zero of either sign, and a positive finite number. *)
Definition zeroF (x : number) : Prop := exists s, Prim2SF x = S754_zero s.
Definition posF (x : number) : Prop := exists m e, Prim2SF x = S754_finite false m e.

Lemma nonneg_finite_kind x :
  (0 <=? x) = true -> (x <? infinity) = true -> zeroF x \/ posF x.
Proof.
  intros H0 Hfin.
  destruct (RoundingOrder.nonneg_kind x H0) as [E|[E|E]]; [left; exact E| |right; exact E].
  rewrite FloatAxioms.ltb_spec, E in Hfin. discriminate Hfin.
Qed.

Lemma unit_kind r :
  (0 <=? r) = true -> (r <? 1) = true ->
  zeroF r
  \/ exists mr er, Prim2SF r = S754_finite false mr er
                   /\ (er <= -53)%Z /\ (Zpos mr < 2 ^ 53)%Z.
Proof.
  intros H0 H1.
  destruct (Rounding.unit_number_spec r H0 H1) as [E|[mr [er [E [He Hm]]]]];
    [left; exact E|right].
  exists mr, er. repeat split; [exact E|lia|exact Hm].
Qed.

Lemma mul_zeroF_l r d : zeroF r -> zeroF d \/ posF d -> zeroF (r * d).
Proof.
  intros [sr Er] [[sd Ed]|[md [ed Ed]]]; unfold zeroF;
    rewrite mul_spec, Er, Ed; eexists; reflexivity.
Qed.

Lemma mul_zeroF_r r d : zeroF r \/ posF r -> zeroF d -> zeroF (r * d).
Proof.
  intros [[sr Er]|[mr [er Er]]] [sd Ed]; unfold zeroF;
    rewrite mul_spec, Er, Ed; eexists; reflexivity.
Qed.

Lemma add_zeroF lo p : zeroF lo -> zeroF p -> zeroF (lo + p).
Proof.
  intros [sl El] [sp Ep]. unfold zeroF. rewrite add_spec, El, Ep.
  destruct sl, sp; eexists; reflexivity.
Qed.

Lemma add_zeroF_r lo p : posF lo -> zeroF p -> Prim2SF (lo + p) = Prim2SF lo.
Proof.
  intros [ml [el El]] [sp Ep]. rewrite add_spec, El, Ep. reflexivity.
Qed.

Lemma add_zeroF_l lo p : zeroF lo -> posF p -> Prim2SF (lo + p) = Prim2SF p.
Proof.
  intros [sl El] [mp [ep Ep]]. rewrite add_spec, El, Ep. reflexivity.
Qed.

Lemma sub_zeroF hi lo : zeroF hi -> zeroF lo -> zeroF (hi - lo).
Proof.
  intros [sh Eh] [sl El]. unfold zeroF. rewrite sub_spec, Eh, El.
  destruct sh, sl; eexists; reflexivity.
Qed.

Lemma sub_zeroF_r hi lo : posF hi -> zeroF lo -> Prim2SF (hi - lo) = Prim2SF hi.
Proof.
  intros [mh [eh Eh]] [sl El]. rewrite sub_spec, Eh, El. reflexivity.
Qed.

Lemma leb_zeroF lo x : zeroF lo -> zeroF x \/ posF x -> (lo <=? x) = true.
Proof.
  intros [sl El] [[sx Ex]|[mx [ex Ex]]]; rewrite FloatAxioms.leb_spec, El, Ex; reflexivity.
Qed.

Lemma leb_same a b :
  Prim2SF a = Prim2SF b -> posF b -> (a <=? b) = true /\ (b <=? a) = true.
Proof.
  intros E [m [e Eb]]. rewrite !FloatAxioms.leb_spec, E, Eb. unfold SFleb.
  rewrite NumberOrder.SFcompare_refl by discriminate. split; reflexivity.
Qed.

(** [min + r * (max - min)] lies between [min] and [max] when
    [0 <= min <= max], [max] is finite and the draw [r] is in [0, 1). *)
Lemma redraw_between lo hi r :
  (0 <=? lo) = true -> (lo <=? hi) = true -> (hi <? infinity) = true ->
  (0 <=? r) = true -> (r <? 1) = true ->
  (lo <=? lo + r * (hi - lo)) = true /\ (lo + r * (hi - lo) <=? hi) = true.
Proof.
  intros H0 Hle Hfin Hr0 Hr1.
  assert (Hhi0 : (0 <=? hi) = true) by exact (NumberOrder.leb_trans 0 lo hi H0 Hle).
  assert (Hlofin : (lo <? infinity) = true).
  { rewrite FloatAxioms.ltb_spec in *. rewrite FloatAxioms.leb_spec in Hle.
    destruct (Prim2SF lo) as [s|s| |s m e], (Prim2SF hi) as [s'|s'| |s' m' e'];
      try discriminate; try reflexivity; destruct s; try reflexivity;
      destruct s'; discriminate. }
  pose proof (nonneg_finite_kind lo H0 Hlofin) as Klo.
  pose proof (nonneg_finite_kind hi Hhi0 Hfin) as Khi.
  assert (Kr : zeroF r \/ posF r).
  { destruct (unit_kind r Hr0 Hr1) as [E|[mr [er [E _]]]]; [left; exact E|right].
    exists mr, er. exact E. }
  destruct Klo as [Zlo|Plo].
  - (* min is zero *)
    destruct Khi as [Zhi|Phi].
    + pose proof (sub_zeroF hi lo Zhi Zlo) as Zd.
      pose proof (mul_zeroF_r r _ Kr Zd) as Zp.
      pose proof (add_zeroF lo _ Zlo Zp) as Zx.
      split; [apply leb_zeroF; auto|].
      destruct Zx as [sx Ex], Zhi as [sh Eh].
      rewrite FloatAxioms.leb_spec, Ex, Eh. reflexivity.
    + pose proof (sub_zeroF_r hi lo Phi Zlo) as Ed.
      assert (Pd : posF (hi - lo)) by (unfold posF; rewrite Ed; exact Phi).
      destruct (unit_kind r Hr0 Hr1) as [Zr|[mr [er [Er [Her Hmr]]]]].
      * pose proof (mul_zeroF_l r _ Zr (or_intror Pd)) as Zp.
        pose proof (add_zeroF lo _ Zlo Zp) as Zx.
        split; [apply leb_zeroF; auto|].
        destruct Zx as [sx Ex], Phi as [mh [eh Eh]].
        rewrite FloatAxioms.leb_spec, Ex, Eh. reflexivity.
      * destruct Pd as [md [ed Ed']].
        destruct (Interpolation.product_below r (hi - lo) mr er md ed Er Her Hmr Ed')
          as [Zp|[mp [ep [Ep [_ Hpd]]]]].
        -- pose proof (add_zeroF lo _ Zlo Zp) as Zx.
           split; [apply leb_zeroF; auto|].
           destruct Zx as [sx Ex], Phi as [mh [eh Eh]].
           rewrite FloatAxioms.leb_spec, Ex, Eh. reflexivity.
        -- assert (Pp : posF (r * (hi - lo))) by (exists mp, ep; exact Ep).
           pose proof (add_zeroF_l lo _ Zlo Pp) as Ex.
           split.
           ++ apply leb_zeroF; [exact Zlo|]. right. unfold posF. rewrite Ex. exact Pp.
           ++ rewrite FloatAxioms.leb_spec, Ex, Ep, <- Ed, Ed'. exact Hpd.
  - (* min is positive *)
    destruct Plo as [ml [el El]].
    assert (Plo : posF lo) by (exists ml, el; exact El).
    destruct Khi as [[sh Eh]|[mh [eh Eh]]].
    { rewrite FloatAxioms.leb_spec, El, Eh in Hle. discriminate Hle. }
    assert (Hsame : forall p, zeroF p -> (lo <=? lo + p) = true /\ (lo + p <=? hi) = true).
    { intros p Zp. pose proof (add_zeroF_r lo p Plo Zp) as Ex.
      destruct (leb_same (lo + p) lo Ex Plo) as [_ Hl]. split; [exact Hl|].
      rewrite FloatAxioms.leb_spec, Ex, <- FloatAxioms.leb_spec. exact Hle. }
    destruct (Interpolation.difference lo hi ml el mh eh El Eh Hle)
      as [Zd|[D [md [ed [ED [Hround Ed]]]]]].
    + apply Hsame. apply mul_zeroF_r; assumption.
    + assert (Pd : posF (hi - lo)) by (exists md, ed; exact Ed).
      destruct (unit_kind r Hr0 Hr1) as [Zr|[mr [er [Er [Her Hmr]]]]].
      * apply Hsame. apply mul_zeroF_l; auto.
      * destruct (Interpolation.product_below r (hi - lo) mr er md ed Er Her Hmr Ed)
          as [Zp|[mp [ep [Ep [Hprod Hpd]]]]].
        -- apply Hsame. exact Zp.
        -- destruct (RoundingOrder.valid_canonical r _ _ _ Er) as [Cr _].
           destruct (RoundingOrder.valid_canonical _ _ _ _ Ed) as [Cd _].
           destruct (RoundingOrder.valid_canonical _ _ _ _ Ep) as [Cp _].
           destruct (RoundingOrder.valid_canonical _ _ _ _ El) as [Cl _].
           destruct (RoundingOrder.valid_canonical _ _ _ _ Eh) as [Ch _].
           apply (Interpolation.sum_between lo hi _ ml el mh eh mp ep D El Eh Ep ED).
           intros c Hc1 Hc2.
           apply (Interpolation.interpolation_step prec emax RoundingOrder.prec_pos
                    RoundingOrder.emin_nonpos D (Z.min eh el) md ed mr er mp ep c);
             try assumption.
           destruct (Rounding.canonical_bounds _ _ _ _ Cl) as [Hl _].
           destruct (Rounding.canonical_bounds _ _ _ _ Ch) as [Hh _]. lia.
Qed.

(** A bound [0 <= min <= max] with a finite [max]. *)
Definition orderedBound (bound : number * number) : Prop :=
  (0 <=? fst bound) = true
  /\ (fst bound <=? snd bound) = true
  /\ (snd bound <? infinity) = true.

Definition orderedConstraints (c : Constraints) : Prop :=
  orderedBound (c_maxPositionSize c)
  /\ orderedBound (c_stopLossPercentage c)
  /\ orderedBound (c_takeProfitPercentage c)
  /\ orderedBound (c_maxDrawdown c).

Lemma redraw_inBound random bound k :
  unitInterval random -> orderedBound bound ->
  inBound bound (redraw bound (random k)) = true.
Proof.
  intros Hunit [H0 [Hle Hfin]]. destruct (Hunit k) as [Hr0 Hr1].
  unfold inBound, redraw. apply andb_true_iff.
  apply redraw_between; assumption.
Qed.

(** X18: for a bound with [0 <= min <= max] and a finite [max],
    [randomInRange] takes one draw and returns a number [x] with
    [min <= x <= max], for every draw in the interval from 0 (included) to 1
    (excluded): the three roundings of [min + r * (max - min)] do not carry
    the result over an end of the bound. *)
Theorem randomInRange_within_bound random bound w :
  unitInterval random -> orderedBound bound ->
  exists x,
    randomInRange random bound w = (Ok x, advance w 1)
    /\ (fst bound <=? x) = true /\ (x <=? snd bound) = true.
Proof.
  intros Hunit Hbound. rewrite randomInRange_run.
  exists (redraw bound (random (draws w))). split; [reflexivity|].
  apply andb_true_iff. fold (inBound bound (redraw bound (random (draws w)))).
  apply redraw_inBound; assumption.
Qed.

End RedrawWithinBound.

Lemma randomInRange_within_bound_witness :
  exists x,
    randomInRange alternating (1, 10)%float initialWorld = (Ok x, advance initialWorld 1)
    /\ (fst (1, 10) <=? x)%float = true /\ (x <=? snd (1, 10))%float = true.
Proof.
  apply (randomInRange_within_bound alternating (1, 10)%float initialWorld).
  - exact alternating_unitInterval.
  - repeat split; vm_compute; reflexivity.
Defined.

(** ** What every result of a run keeps *)

Section RunInvariant.

Variable random : nat -> number.
Variable config : OptimizationConfig.
Variable historicalData : list MarketData.

(** [Q] holds for every candidate and [P] for every evaluated result. *)
Variable Q : StrategyConfig -> Prop.
Variable P : OptimizationResult -> Prop.

Hypothesis Q_initial : forall i d, Q (initialCandidate random config i d).
Hypothesis Q_crossover :
  forall parent1 parent2 w child w',
    crossover random parent1 parent2 w = (Ok child, w') ->
    Q parent1 -> Q parent2 -> Q child.
Hypothesis Q_mutate :
  forall strategy w mutated w',
    mutate random config strategy w = (Ok mutated, w') -> Q strategy -> Q mutated.
Hypothesis P_evaluated :
  forall strategy result,
    Q strategy -> evaluateStrategy strategy historicalData = Ok result -> P result.

Lemma generationStep_results generation population bestResult w population' best' w' :
  Forall Q population ->
  (forall b, bestResult = Some b -> P b) ->
  generationStep random config historicalData generation population bestResult w
  = (Ok (population', best'), w') ->
  Forall Q population' /\ P best'.
Proof.
  intros Hpop Hbest H. apply generationStep_unfold in H.
  destruct H as [results [currentBest [wb [Hc [Hp [Hr [-> [Hb _]]]]]]]].
  rewrite Forall_forall in Hpop. split.
  - eapply (breed_keeps random config Q Q_crossover Q_mutate); [|constructor|exact Hb].
    intros r Hin. apply Hpop. rewrite <- Hp. apply in_map.
    eapply select_In. exact Hin.
  - destruct (updateBest_In config bestResult currentBest) as [->|E].
    + apply reduce1_better_In in Hr.
      destruct (collect_evaluated _ _ _ Hc _ Hr) as [s [Hs He]].
      eapply P_evaluated; [apply Hpop; exact Hs|exact He].
    + apply Hbest. exact E.
Qed.

Lemma generationsFrom_results n generation population bestResult w best' w' :
  Forall Q population ->
  (forall b, bestResult = Some b -> P b) ->
  generationsFrom random config historicalData n generation population bestResult w
  = (Ok best', w') ->
  forall b, best' = Some b -> P b.
Proof.
  revert generation population bestResult w.
  induction n as [|n IH]; intros generation population bestResult w Hpop Hbest H.
  - simpl in H. unfold ret in H. injection H as <- _. exact Hbest.
  - cbn [generationsFrom] in H. apply bind_inv in H.
    destruct H as [[p1 b1] [w1 [Hs H]]]. cbn [fst snd] in H.
    apply generationStep_results in Hs; [|assumption|assumption].
    destruct Hs as [Hp1 Hb1].
    eapply IH; [exact Hp1| |exact H]. intros b E. injection E as <-. exact Hb1.
Qed.

Lemma run_results result w' :
  run random config historicalData = (Ok result, w') -> P result.
Proof.
  unfold run, optimize, generateInitialPopulation. intros H.
  rewrite (bind_run _ _ _ _ _ (generateFrom_spec random config _ 0 [] initialWorld)) in H.
  apply bind_inv in H. destruct H as [best [w1 [Hg H]]].
  destruct best as [b|]; [|discriminate]. unfold ret in H. injection H as <- _.
  eapply generationsFrom_results; [| |exact Hg|reflexivity].
  - apply Forall_forall. intros s Hs. cbn [app] in Hs. apply in_map_iff in Hs.
    destruct Hs as [j [<- _]]. apply Q_initial.
  - discriminate.
Qed.

End RunInvariant.

Section RunTheorems.

Local Open Scope float_scope.

(** X19: the result that a run returns is the backtest of its own
    parameters: its metrics are those that [evaluateStrategy] computes for
    its parameters on the bars given to [optimize].  The best result is kept
    as a pair over the generations and no operator changes a result. *)
Theorem optimize_result_is_its_backtest random config historicalData result w' :
  run random config historicalData = (Ok result, w') ->
  evaluateStrategy (parameters result) historicalData = Ok result.
Proof.
  apply (run_results random config historicalData (fun _ => True)
           (fun r => evaluateStrategy (parameters r) historicalData = Ok r));
    try (intros; exact I).
  intros strategy r _ He.
  assert (Hp : parameters r = strategy).
  { unfold evaluateStrategy in He.
    destruct (simulate strategy historicalData); [|discriminate].
    injection He as <-. reflexivity. }
  rewrite Hp. exact He.
Qed.

(** X20: with four bounds that have [0 <= min <= max] and a finite [max],
    and draws in the interval from 0 (included) to 1 (excluded), the four
    numbers of the strategy that a run returns lie within their bounds.
    Every initial number is a redraw, [crossover] copies a number from a
    parent and [mutate] keeps a number or draws it again. *)
Theorem optimize_result_within_bounds random config historicalData result w' :
  unitInterval random ->
  orderedConstraints (constraints config) ->
  run random config historicalData = (Ok result, w') ->
  withinBounds (constraints config) (parameters result) = true.
Proof.
  intros Hunit [Ha [Hb [Hc Hd]]].
  apply (run_keeps random config
           (fun s => withinBounds (constraints config) s = true)).
  - intros i d. unfold withinBounds, initialCandidate.
    cbn [maxPositionSize stopLossPercentage takeProfitPercentage maxDrawdown].
    rewrite !redraw_inBound by assumption. reflexivity.
  - intros parent1 parent2 w child w0 H H1 H2.
    rewrite crossover_run in H. injection H as <- _.
    unfold withinBounds in *.
    cbn [maxPositionSize stopLossPercentage takeProfitPercentage maxDrawdown].
    apply andb_prop in H1. destruct H1 as [H1 H1d].
    apply andb_prop in H1. destruct H1 as [H1 H1c].
    apply andb_prop in H1. destruct H1 as [H1a H1b].
    apply andb_prop in H2. destruct H2 as [H2 H2d].
    apply andb_prop in H2. destruct H2 as [H2 H2c].
    apply andb_prop in H2. destruct H2 as [H2a H2b].
    rewrite !andb_true_iff.
    split; [split; [split|]|]; destruct (_ <? _); assumption.
  - intros strategy w mutated w0 H Hs.
    destruct (mutate_fields random config strategy w)
      as [m [w1 [Hm [_ [_ [_ [_ [_ [Ka [Kb [Kc Kd]]]]]]]]]]].
    rewrite Hm in H. injection H as <- _.
    unfold withinBounds in *.
    apply andb_prop in Hs. destruct Hs as [Hs Hsd].
    apply andb_prop in Hs. destruct Hs as [Hs Hsc].
    apply andb_prop in Hs. destruct Hs as [Hsa Hsb].
    rewrite !andb_true_iff. split; [split; [split|]|].
    + destruct Ka as [->|[k ->]]; [exact Hsa|apply redraw_inBound; assumption].
    + destruct Kb as [->|[k ->]]; [exact Hsb|apply redraw_inBound; assumption].
    + destruct Kc as [->|[k ->]]; [exact Hsc|apply redraw_inBound; assumption].
    + destruct Kd as [->|[k ->]]; [exact Hsd|apply redraw_inBound; assumption].
Qed.

(** A redraw from a bound with [0 <= min] is not negative. *)
Lemma redraw_nonneg random bound k :
  unitInterval random -> orderedBound bound ->
  (0 <=? redraw bound (random k)) = true.
Proof.
  intros Hunit Hb. pose proof (redraw_inBound random bound k Hunit Hb) as H.
  destruct Hb as [H0 _]. unfold inBound in H. apply andb_prop in H.
  destruct H as [Hlo _].
  exact (NumberOrder.leb_trans 0 (fst bound) _ H0 Hlo).
Qed.

(** X21: with a bound [0 <= min <= max] (finite) for the stop-loss
    percentage, draws in the interval from 0 (included) to 1 (excluded) and
    bars whose closing prices are above 0, the result that a run returns
    shows no gain: none of its total return, win rate, Sharpe, Sortino and
    Calmar ratio is above 0.
    Every candidate keeps a stop-loss percentage that is not negative, and
    the backtest of such a candidate books every exit on the losing side. *)
Theorem optimize_result_shows_no_gain random config historicalData result w' :
  unitInterval random ->
  orderedBound (c_stopLossPercentage (constraints config)) ->
  Forall (fun bar => (0 <? close bar) = true) historicalData ->
  run random config historicalData = (Ok result, w') ->
  gt (m_totalReturn (metrics result)) 0 = false
  /\ gt (m_winRate (metrics result)) 0 = false
  /\ gt (m_sharpeRatio (metrics result)) 0 = false
  /\ gt (m_sortinoRatio (metrics result)) 0 = false
  /\ gt (m_calmarRatio (metrics result)) 0 = false.
Proof.
  intros Hunit Hb Hbars.
  apply (run_results random config historicalData
           (fun s => (0 <=? stopLossPercentage s) = true)
           (fun r => gt (m_totalReturn (metrics r)) 0 = false
                     /\ gt (m_winRate (metrics r)) 0 = false
                     /\ gt (m_sharpeRatio (metrics r)) 0 = false
                     /\ gt (m_sortinoRatio (metrics r)) 0 = false
                     /\ gt (m_calmarRatio (metrics r)) 0 = false)).
  - intros i d. cbn [initialCandidate stopLossPercentage].
    apply redraw_nonneg; assumption.
  - intros parent1 parent2 w child w0 H H1 H2.
    rewrite crossover_run in H. injection H as <- _. cbn [stopLossPercentage].
    destruct (_ <? _); assumption.
  - intros strategy w mutated w0 H Hs.
    destruct (mutate_fields random config strategy w)
      as [m [w1 [Hm [_ [_ [_ [_ [_ [_ [Kb _]]]]]]]]]].
    rewrite Hm in H. injection H as <- _.
    destruct Kb as [->|[k ->]]; [exact Hs|apply redraw_nonneg; assumption].
  - intros strategy r Hs He. unfold evaluateStrategy in He.
    destruct (simulate strategy historicalData) as [st|e] eqn:Hst; [|discriminate].
    injection He as <-. cbn [metrics]. apply metrics_noGain.
    unfold simulate in Hst.
    eapply simulateFrom_noGain; [exact Hs|exact Hbars| | |exact Hst].
    + left. reflexivity.
    + constructor.
Qed.

End RunTheorems.

Lemma optimize_result_is_its_backtest_witness :
  exists result w',
    run alternating exampleConfig scenarioBars = (Ok result, w')
    /\ evaluateStrategy (parameters result) scenarioBars = Ok result.
Proof.
  eexists. eexists. split; [vm_compute; reflexivity|].
  eapply (optimize_result_is_its_backtest alternating exampleConfig scenarioBars).
  vm_compute. reflexivity.
Defined.

Lemma optimize_result_within_bounds_witness :
  exists result w',
    run alternating exampleConfig scenarioBars = (Ok result, w')
    /\ withinBounds (constraints exampleConfig) (parameters result) = true.
Proof.
  eexists. eexists. split; [vm_compute; reflexivity|].
  eapply (optimize_result_within_bounds alternating exampleConfig scenarioBars).
  - exact alternating_unitInterval.
  - repeat split; vm_compute; reflexivity.
  - vm_compute. reflexivity.
Defined.

Lemma optimize_result_shows_no_gain_witness :
  exists result w',
    run alternating exampleConfig scenarioBars = (Ok result, w')
    /\ gt (m_totalReturn (metrics result)) 0 = false
    /\ gt (m_winRate (metrics result)) 0 = false
    /\ gt (m_sharpeRatio (metrics result)) 0 = false
    /\ gt (m_sortinoRatio (metrics result)) 0 = false
    /\ gt (m_calmarRatio (metrics result)) 0 = false.
Proof.
  eexists. eexists. split; [vm_compute; reflexivity|].
  eapply (optimize_result_shows_no_gain alternating exampleConfig scenarioBars).
  - exact alternating_unitInterval.
  - repeat split; vm_compute; reflexivity.
  - unfold scenarioBars. repeat constructor.
  - vm_compute. reflexivity.
Defined.
